(** * dsio: streaming entry readers and writers (JSON, CSV) and the
      carriage-return filter of package replacecr

    A shallow embedding of [dsio/json.go], [dsio/csv.go] and the
    [replacecr] reader, together with the parts of Go's [bufio], [strconv]
    and [encoding/json] packages these files call into.

    Conventions.
    - A Go [[]byte] is a [list ascii]; a Go [string] is a [string].
    - A Go [interface{}] holding decoded data is a [Value].
    - A Go [(T, error)] result is a pair whose second component is an
      [option error]; [None] is the nil error.
    - A run-time panic (index out of range) is the [Panic] outcome of the
      [res] type; it is never confused with a returned error. *)

From Stdlib Require Import ZArith NArith Ascii String List Lia.
From Stdlib Require Import DecimalString DecimalZ DecimalN DecimalPos.
From stdpp Require Import gmap strings list sorting.

Set Warnings "-register-all".
Set Default Proof Using "Type".

Open Scope string_scope.
Open Scope list_scope.

(* ================================================================== *)
(** ** Bytes, strings and errors *)

Abbreviation bytes := (list ascii).

(** [[]byte(s)] and [string(b)]. *)
Abbreviation bytes_of := list_ascii_of_string.
Abbreviation string_of := string_of_list_ascii.

Definition dquote : ascii := "034"%char.
Definition backslash : ascii := "\"%char.
Definition LF : ascii := "010"%char.
Definition CR : ascii := "013"%char.
Definition TAB : ascii := "009"%char.

Definition code (c : ascii) : N := N_of_ascii c.

(** Go's [error] values: the [io.EOF] sentinel and errors carrying a
    message ([fmt.Errorf], [strconv]'s syntax and range errors, ...). *)
Inductive error :=
| io_EOF
| Errorf (msg : string).

(** [err.Error()] *)
Definition Error (e : error) : string :=
  match e with
  | io_EOF => "EOF"
  | Errorf msg => msg
  end.

(** Outcome of a computation that may panic.  [OutOfFuel] is an artefact
    of the embedding of unbounded loops: the theorems about the entry
    points state results of the form [Ret _] or [Panic _], with the fuel
    the entry points compute themselves. *)
Inductive res (A : Type) :=
| Ret (a : A)
| Panic (msg : string)
| OutOfFuel.
Arguments Ret {A} a.
Arguments Panic {A} msg.
Arguments OutOfFuel {A}.

#[export] Instance res_ret : MRet res := fun A a => Ret a.
#[export] Instance res_bind : MBind res := fun A B k m =>
  match m with
  | Ret a => k a
  | Panic msg => Panic msg
  | OutOfFuel => OutOfFuel
  end.

(* ================================================================== *)
(** ** strconv *)

Module strconv.
Local Open Scope char_scope.

Definition ErrSyntax (fn s : string) : error :=
  Errorf ("strconv." ++ fn ++ ": parsing " ++ String dquote (s ++ String dquote ": invalid syntax"))%string.
Definition ErrRange (fn s : string) : error :=
  Errorf ("strconv." ++ fn ++ ": parsing " ++ String dquote (s ++ String dquote ": value out of range"))%string.

Definition isDigit (c : ascii) : bool := (code "0" <=? code c)%N && (code c <=? code "9")%N.

Definition digitVal (c : ascii) : Z := Z.of_N (code c) - 48.

(** The digit loop [n = n*10 + int(ch)]; [None] on a byte that is not
    a decimal digit. *)
Fixpoint digitsValue (acc : Z) (l : bytes) : option Z :=
  match l with
  | [] => Some acc
  | ch :: l' => if isDigit ch then digitsValue (acc * 10 + digitVal ch) l' else None
  end.

Definition MaxInt64 : Z := 2 ^ 63 - 1.
Definition MinInt64 : Z := - 2 ^ 63.

(** [strconv.Atoi] on a 64-bit platform: an optional sign, then one or
    more decimal digits; a value outside the [int] range is clamped and
    reported with a range error. *)
Definition Atoi (s : string) : Z * option error :=
  let b := bytes_of s in
  let '(neg, ds) :=
    match b with
    | "-" :: ds => (true, ds)
    | "+" :: ds => (false, ds)
    | _ => (false, b)
    end in
  match ds with
  | [] => (0%Z, Some (ErrSyntax "Atoi" s))
  | _ =>
      match digitsValue 0 ds with
      | None => (0%Z, Some (ErrSyntax "Atoi" s))
      | Some un =>
          if negb neg && (MaxInt64 <? un)%Z then (MaxInt64, Some (ErrRange "Atoi" s))
          else if neg && (- MinInt64 <? un)%Z then (MinInt64, Some (ErrRange "Atoi" s))
          else (if neg then (- un)%Z else un, None)
      end
  end.

(** The bytes of a decimal numeral. *)
Definition digitChars (d : Decimal.uint) : bytes := bytes_of (NilEmpty.string_of_uint d).

(** [strconv.Itoa] / [AppendInt(_, v, 10)]. *)
Definition Itoa (z : Z) : string := NilZero.string_of_int (Z.to_int z).

(** *** Unquote, for double-quoted literals *)

Definition unhex (c : ascii) : option N :=
  if isDigit c then Some (code c - code "0")%N
  else if (code "a" <=? code c)%N && (code c <=? code "f")%N then Some (code c - code "a" + 10)%N
  else if (code "A" <=? code c)%N && (code c <=? code "F")%N then Some (code c - code "A" + 10)%N
  else None.

Fixpoint hexValue (acc : N) (l : bytes) : option N :=
  match l with
  | [] => Some acc
  | c :: l' => match unhex c with
               | Some x => hexValue (acc * 16 + x) l'
               | None => None
               end
  end.

Definition isOctal (c : ascii) : bool := (code "0" <=? code c)%N && (code c <=? code "7")%N.

(** [utf8.ValidRune] *)
Definition ValidRune (v : N) : bool :=
  (v <? 55296)%N || ((57343 <? v)%N && (v <=? 1114111)%N).

Definition byteN (n : N) : ascii := ascii_of_N (n mod 256).

(** [utf8.AppendRune] for a valid rune. *)
Definition encodeRune (v : N) : bytes :=
  if (v <? 128)%N then [byteN v]
  else if (v <? 2048)%N then [byteN (192 + v / 64); byteN (128 + v mod 64)]
  else if (v <? 65536)%N then
    [byteN (224 + v / 4096); byteN (128 + (v / 64) mod 64); byteN (128 + v mod 64)]
  else
    [byteN (240 + v / 262144); byteN (128 + (v / 4096) mod 64);
     byteN (128 + (v / 64) mod 64); byteN (128 + v mod 64)].

(** [utf8.RuneError], encoded. *)
Definition replacement : bytes := encodeRune 65533.

Definition inRange (lo hi : N) (c : ascii) : bool :=
  (lo <=? code c)%N && (code c <=? hi)%N.

(** A continuation byte, 0x80 to 0xBF. *)
Definition isCont (c : ascii) : bool := inRange 128 191 c.

(** The second byte that [utf8] accepts after the leading byte [c1] of
    an encoding of three or four bytes: no overlong form, no surrogate,
    nothing above U+10FFFF. *)
Definition second (c1 c2 : ascii) : bool :=
  if (code c1 =? 224)%N then inRange 160 191 c2
  else if (code c1 =? 237)%N then inRange 128 159 c2
  else if (code c1 =? 240)%N then inRange 144 191 c2
  else if (code c1 =? 244)%N then inRange 128 143 c2
  else isCont c2.

(** [utf8.DecodeRune] on text whose first byte is at or above
    [utf8.RuneSelf]: the size of the encoding at the head, [0] when the
    head is no valid encoding (Go then returns [RuneError] and the
    size 1). *)
Definition runeLen (l : bytes) : nat :=
  match l with
  | c1 :: c2 :: l2 =>
      if inRange 194 223 c1 then (if isCont c2 then 2 else 0)%nat
      else if inRange 224 239 c1 then
        match l2 with
        | c3 :: _ => if second c1 c2 && isCont c3 then 3%nat else 0%nat
        | [] => 0%nat
        end
      else if inRange 240 244 c1 then
        match l2 with
        | c3 :: c4 :: _ => if second c1 c2 && isCont c3 && isCont c4 then 4%nat else 0%nat
        | _ => 0%nat
        end
      else 0%nat
  | _ => 0%nat
  end.

(** [utf8.ValidString], with [k] bytes of an encoding still to pass. *)
Fixpoint ValidString (k : nat) (l : bytes) : bool :=
  match l with
  | [] => true
  | c :: l1 =>
      match k with
      | S k' => ValidString k' l1
      | O =>
          if (code c <? 128)%N then ValidString 0 l1
          else
            match runeLen (c :: l1) with
            | O => false
            | S n => ValidString n l1
            end
      end
  end.

(** A [\u] or [\U] escape: the digits, then the rune appended. *)
Definition unicodeEscape (ds : bytes) : option bytes :=
  match hexValue 0 ds with
  | Some v => if ValidRune v then Some (encodeRune v) else None
  | None => None
  end.

(** The loop of [strconv.unquote] over the text after the opening
    quote: [UnquoteChar] until the terminating quote, which must be the
    last byte ([Unquote] rejects a non-empty remainder).  At a byte at
    or above [utf8.RuneSelf] the rune is decoded and appended: a valid
    encoding is copied ([k] counts its bytes still to copy), a byte
    that starts none becomes U+FFFD. *)
Fixpoint unquoteBody (k : nat) (l : bytes) : option bytes :=
  match l with
  | [] => None
  | c :: l1 =>
      match k with
      | S k' => cons c <$> unquoteBody k' l1
      | O =>
      if (c =? dquote)%char then match l1 with [] => Some [] | _ => None end
      else if (c =? LF)%char then None
      else if (c =? backslash)%char then
        match l1 with
        | [] => None
        | e :: l2 =>
            match e with
            | "a" => cons "007" <$> unquoteBody 0 l2
            | "b" => cons "008" <$> unquoteBody 0 l2
            | "f" => cons "012" <$> unquoteBody 0 l2
            | "n" => cons LF <$> unquoteBody 0 l2
            | "r" => cons CR <$> unquoteBody 0 l2
            | "t" => cons TAB <$> unquoteBody 0 l2
            | "v" => cons "011" <$> unquoteBody 0 l2
            | "\" => cons backslash <$> unquoteBody 0 l2
            | "034" => cons dquote <$> unquoteBody 0 l2
            | "x" =>
                match l2 with
                | h1 :: h2 :: l3 =>
                    match hexValue 0 [h1; h2] with
                    | Some v => cons (byteN v) <$> unquoteBody 0 l3
                    | None => None
                    end
                | _ => None
                end
            | "u" =>
                match l2 with
                | h1 :: h2 :: h3 :: h4 :: l3 =>
                    match unicodeEscape [h1; h2; h3; h4] with
                    | Some bs => app bs <$> unquoteBody 0 l3
                    | None => None
                    end
                | _ => None
                end
            | "U" =>
                match l2 with
                | h1 :: h2 :: h3 :: h4 :: h5 :: h6 :: h7 :: h8 :: l3 =>
                    match unicodeEscape [h1; h2; h3; h4; h5; h6; h7; h8] with
                    | Some bs => app bs <$> unquoteBody 0 l3
                    | None => None
                    end
                | _ => None
                end
            | _ =>
                if isOctal e then
                  match l2 with
                  | o2 :: o3 :: l3 =>
                      if isOctal o2 && isOctal o3 then
                        let v := ((code e - 48) * 64 + (code o2 - 48) * 8 + (code o3 - 48))%N in
                        if (255 <? v)%N then None else cons (byteN v) <$> unquoteBody 0 l3
                      else None
                  | _ => None
                  end
                else None
            end
        end
      else if (code c <? 128)%N then cons c <$> unquoteBody 0 l1
      else
        match runeLen (c :: l1) with
        | O => app replacement <$> unquoteBody 0 l1
        | S n => cons c <$> unquoteBody n l1
        end
      end
  end.

(** [strconv.Unquote] restricted to interpreted string literals (the
    reader only passes text that starts with a double quote; raw and
    rune literals are reported as syntax errors here). *)
Definition Unquote (s : string) : string * option error :=
  match bytes_of s with
  | q :: l =>
      if (q =? dquote)%char then
        match unquoteBody 0 l with
        | Some out => (string_of out, None)
        | None => (EmptyString, Some (Errorf "invalid syntax"))
        end
      else (EmptyString, Some (Errorf "invalid syntax"))
  | [] => (EmptyString, Some (Errorf "invalid syntax"))
  end.

(** *** Floating point

    A [float64] is modelled by the decimal number that identifies it:
    NaN, an infinity, or [(-1)^neg * sig * 10^exp] in lowest terms
    ([sig] has no trailing zero; zero is [sig = 0], [exp = 0]).  Every
    finite float64 has such a shortest decimal, which is what Go prints
    and what [ParseFloat] maps back to the same float64.  Rounding of
    longer decimals to the nearest float64 and overflow to an infinity
    are not modelled. *)
Inductive float64 :=
| FNaN
| FInf (neg : bool)
| FDec (neg : bool) (sig : N) (exp : Z).

Fixpoint span (p : ascii -> bool) (l : bytes) : bytes * bytes :=
  match l with
  | [] => ([], [])
  | c :: l' => if p c then let '(a, b) := span p l' in (c :: a, b) else ([], l)
  end.

Definition digitsN (l : bytes) : N :=
  fold_left (fun acc c => (acc * 10 + (code c - 48))%N) l 0%N.

Definition isZeroDigit (c : ascii) : bool := (c =? "0")%char.

(** Lowest terms of [digits * 10^exp]. *)
Definition normDec (neg : bool) (digits : bytes) (exp : Z) : float64 :=
  let '(zs, rsig) := span isZeroDigit (rev digits) in
  match rsig with
  | [] => FDec neg 0 0
  | _ => FDec neg (digitsN (rev rsig)) (exp + Z.of_nat (length zs))
  end.

(** The exponent part [e[+-]ddd] at the end of the text. *)
Definition readExponent (l : bytes) : option Z :=
  match l with
  | [] => Some 0%Z
  | c :: l1 =>
      if (c =? "e")%char || (c =? "E")%char then
        let '(esign, ds) :=
          match l1 with
          | "+" :: ds => (1%Z, ds)
          | "-" :: ds => ((-1)%Z, ds)
          | _ => (1%Z, l1)
          end in
        match ds with
        | [] => None
        | _ => match digitsValue 0 ds with
               | Some e => Some (e * esign)%Z
               | None => None
               end
        end
      else None
  end.

(** [strconv.ParseFloat(s, 64)] on decimal text: sign, digits with an
    optional point, optional exponent, nothing after. *)
Definition ParseFloat (s : string) : float64 * option error :=
  let b := bytes_of s in
  let '(neg, l0) :=
    match b with
    | "+" :: l => (false, l)
    | "-" :: l => (true, l)
    | _ => (false, b)
    end in
  let '(ip, l1) := span isDigit l0 in
  let '(fp, l2) :=
    match l1 with
    | "." :: l => span isDigit l
    | _ => ([], l1)
    end in
  match ip ++ fp with
  | [] => (FDec false 0 0, Some (ErrSyntax "ParseFloat" s))
  | ds =>
      match readExponent l2 with
      | Some e => (normDec neg ds (e - Z.of_nat (length fp)), None)
      | None => (FDec false 0 0, Some (ErrSyntax "ParseFloat" s))
      end
  end.

End strconv.

(* ================================================================== *)
(** ** Values and entries *)

(** What an [interface{}] holds in this package: nil, bool, int,
    float64, string, [[]interface{}], [map[string]interface{}].  A
    slice and a map may be nil, which is not the empty slice or map:
    [json.Marshal] writes the nil ones as null. *)
Inductive Value :=
| VNull
| VBool (b : bool)
| VInt (z : Z)
| VFloat (f : strconv.float64)
| VString (s : string)
| VArray (l : list Value)
| VObject (m : gmap string Value)
| VNilSlice
| VNilMap.

(** [dsio.Entry]: the declaration is not among the files at hand; its
    three fields are the ones the readers and writers use. *)
Record Entry := mkEntry {
  Index : Z;
  Key : string;
  EValue : Value;
}.

(** [Entry{}] *)
Definition Entry0 : Entry := mkEntry 0 "" VNull.

(* ================================================================== *)
(** ** encoding/json: Marshal *)

Module json.
Local Open Scope char_scope.

Definition hexDigit (n : N) : ascii :=
  if (n <? 10)%N then ascii_of_N (48 + n) else ascii_of_N (87 + n).

(** One byte below [utf8.RuneSelf] of a string in [appendString] with
    HTML escaping on (the default of [Marshal]). *)
Definition escapeByte (b : ascii) : bytes :=
  match b with
  | "\" => [backslash; backslash]
  | "034" => [backslash; dquote]
  | "008" => [backslash; "b"]
  | "012" => [backslash; "f"]
  | "010" => [backslash; "n"]
  | "013" => [backslash; "r"]
  | "009" => [backslash; "t"]
  | _ =>
      if (code b <? 32)%N || (b =? "<") || (b =? ">") || (b =? "&") then
        [backslash; "u"; "0"; "0"; hexDigit (code b / 16); hexDigit (code b mod 16)]
      else [b]
  end.

(** U+2028 and U+2029 at the head of [l]: the last hexadecimal digit
    of the rune. *)
Definition lineSep (l : bytes) : option ascii :=
  match l with
  | c1 :: c2 :: c3 :: _ =>
      if (code c1 =? 226)%N && (code c2 =? 128)%N then
        if (code c3 =? 168)%N then Some "8"
        else if (code c3 =? 169)%N then Some "9"
        else None
      else None
  | _ => None
  end.

(** The loop of [appendString]: bytes below [utf8.RuneSelf] go through
    [escapeByte]; at a byte above, the rune is decoded: a byte that
    starts no valid encoding is written as the escape of U+FFFD, the
    two line separators are written as escapes, every other encoding is
    copied.  [k] counts the bytes of the current encoding that are
    still to pass, copied when [keep] is set. *)
Fixpoint escapeRunes (k : nat) (keep : bool) (l : bytes) : bytes :=
  match l with
  | [] => []
  | b :: l' =>
      match k with
      | S k' => (if keep then [b] else []) ++ escapeRunes k' keep l'
      | O =>
          if (code b <? 128)%N then escapeByte b ++ escapeRunes 0 true l'
          else
            match strconv.runeLen (b :: l') with
            | O => [backslash; "u"; "f"; "f"; "f"; "d"] ++ escapeRunes 0 true l'
            | S n =>
                match lineSep (b :: l') with
                | Some h => [backslash; "u"; "2"; "0"; "2"; h] ++ escapeRunes n false l'
                | None => b :: escapeRunes n true l'
                end
            end
      end
  end.

Definition escapeString (l : bytes) : bytes := escapeRunes 0 true l.

Definition marshalString (s : string) : bytes :=
  dquote :: escapeString (bytes_of s) ++ [dquote].

Definition zeros (n : nat) : bytes := repeat "0" n.

(** The float encoder: format 'e' below 1e-6 and from 1e21 on, format
    'f' otherwise, shortest digits; NaN and infinities are rejected. *)
Definition marshalFloat (f : strconv.float64) : option bytes :=
  match f with
  | strconv.FNaN | strconv.FInf _ => None
  | strconv.FDec neg sig exp =>
      let sign := if neg then ["-"] else [] in
      if (sig =? 0)%N then Some (sign ++ ["0"])
      else
        let ds := bytes_of (NilZero.string_of_uint (N.to_uint sig)) in
        let nd := Z.of_nat (length ds) in
        let dp := (exp + nd)%Z in
        if (dp <=? -6)%Z || (22 <=? dp)%Z then
          let e10 := (dp - 1)%Z in
          Some (sign ++ take 1 ds
                  ++ (if (1 <? nd)%Z then "." :: drop 1 ds else [])
                  ++ "e" :: (if (e10 <? 0)%Z then "-" else "+")
                  :: bytes_of (strconv.Itoa (Z.abs e10)))
        else
          let ipart :=
            if (0 <? dp)%Z then take (Z.to_nat dp) ds ++ zeros (Z.to_nat (dp - nd))
            else ["0"] in
          let fpart :=
            if (dp <? nd)%Z then "." :: zeros (Z.to_nat (- dp)) ++ drop (Z.to_nat dp) ds
            else [] in
          Some (sign ++ ipart ++ fpart)
  end.

Fixpoint join (sep : bytes) (parts : list bytes) : bytes :=
  match parts with
  | [] => []
  | [p] => p
  | p :: ps => p ++ sep ++ join sep ps
  end.

(** All parts, or nothing if one of them failed. *)
Fixpoint allSome {A} (l : list (option A)) : option (list A) :=
  match l with
  | [] => Some []
  | Some a :: l' => cons a <$> allSome l'
  | None :: _ => None
  end.

(** Map keys are emitted in increasing byte order. *)
Definition keyLe (a b : string * option bytes) : Prop := String.leb a.1 b.1 = true.
#[export] Instance keyLe_dec a b : Decision (keyLe a b).
Proof. unfold keyLe. apply _. Defined.

Definition member (kv : string * bytes) : bytes :=
  marshalString kv.1 ++ ":" :: kv.2.

Definition liftMember (kv : string * option bytes) : option (string * bytes) :=
  pair kv.1 <$> kv.2.

(** [json.Marshal] on a [Value]. *)
Fixpoint Marshal (v : Value) : option bytes :=
  match v with
  | VNull => Some (bytes_of "null")
  | VBool true => Some (bytes_of "true")
  | VBool false => Some (bytes_of "false")
  | VInt z => Some (bytes_of (strconv.Itoa z))
  | VFloat f => marshalFloat f
  | VString s => Some (marshalString s)
  | VArray l =>
      (fun parts => "[" :: join [","] parts ++ ["]"]) <$> allSome (map Marshal l)
  | VObject m =>
      (fun kvs => "{" :: join [","] (map member kvs) ++ ["}"])
        <$> allSome (map liftMember (merge_sort keyLe (map_to_list (Marshal <$> m))))
  | VNilSlice | VNilMap => Some (bytes_of "null")
  end.

(** The text of the value that makes [Marshal] fail: the first float
    that is NaN or an infinity, in the order of the encoding. *)
Definition floatText (f : strconv.float64) : option string :=
  match f with
  | strconv.FNaN => Some "NaN"%string
  | strconv.FInf false => Some "+Inf"%string
  | strconv.FInf true => Some "-Inf"%string
  | strconv.FDec _ _ _ => None
  end.

Fixpoint firstSome {A} (l : list (option A)) : option A :=
  match l with
  | [] => None
  | Some a :: _ => Some a
  | None :: l' => firstSome l'
  end.

Definition nameLe (a b : string * option string) : Prop := String.leb a.1 b.1 = true.
#[export] Instance nameLe_dec a b : Decision (nameLe a b).
Proof. unfold nameLe. apply _. Defined.

Fixpoint unsupported (v : Value) : option string :=
  match v with
  | VFloat f => floatText f
  | VArray l => firstSome (map unsupported l)
  | VObject m => firstSome (map snd (merge_sort nameLe (map_to_list (unsupported <$> m))))
  | _ => None
  end.

End json.

(* ================================================================== *)
(** ** io.Writer *)

(** The destination of a writer: the bytes accepted so far and the
    number of bytes it will still accept ([None]: no limit, as for a
    [bytes.Buffer]).  A write that does not fit is cut short and reports
    an error, as [io.Writer] requires. *)
Record Sink := mkSink {
  out : bytes;
  room : option nat;
}.

Definition Write (p : bytes) (w : Sink) : Sink * option error :=
  match room w with
  | None => (mkSink (out w ++ p) None, None)
  | Some k =>
      if (length p <=? k)%nat then (mkSink (out w ++ p) (Some (k - length p)%nat), None)
      else (mkSink (out w ++ take k p) (Some 0%nat), Some (Errorf "short write"))
  end.

(** A [bytes.Buffer] holding [b]. *)
Definition bufferSink (b : bytes) : Sink := mkSink b None.

(** [GetTopLevelType] yields one of the two strings "array" and
    "object"; they are the two constructors here. *)
Inductive TopLevelType := tlt_array | tlt_object.

Definition isObject (t : TopLevelType) : bool :=
  match t with tlt_object => true | tlt_array => false end.
Definition isArray (t : TopLevelType) : bool :=
  match t with tlt_array => true | tlt_object => false end.

(* ================================================================== *)
(** ** JSONWriter (dsio/json.go) *)

Module JSONWriter.
Local Open Scope char_scope.

Record t := mk {
  rowsWritten : nat;
  tlt : TopLevelType;
  wr : Sink;
  keysWritten : gmap string bool;
}.

(** [NewJSONWriter], after the schema check and [GetTopLevelType]. *)
Definition NewJSONWriter (tl : TopLevelType) (w : Sink) : t :=
  mk 0 tl w ∅.

(** The [UnsupportedValueError] of [json.Marshal] on [v]. *)
Definition marshalErr (v : Value) : error :=
  Errorf ("json: unsupported value: "
          ++ match json.unsupported v with Some str => str | None => EmptyString end)%string.

(** [json.Marshal] as a Go result. *)
Definition Marshal (v : Value) : bytes * option error :=
  match json.Marshal v with
  | Some b => (b, None)
  | None => ([], Some (marshalErr v))
  end.

Definition keyEmpty : error := Errorf "entry key cannot be empty".
Definition keyRepeated (k : string) : error :=
  Errorf ("key already written: " ++ String dquote (k ++ String dquote ""))%string.

(** The two errors of the key check of [valBytes]. *)
Definition KeyViolation (e : error) : Prop :=
  e = keyEmpty \/ exists k, e = keyRepeated k.

(** [valBytes]: the encoding of one entry; in object mode the key is
    checked and recorded first. *)
Definition valBytes (ent : Entry) (w : t) : t * (bytes * option error) :=
  if isArray (tlt w) then (w, Marshal (EValue ent))
  else if String.eqb (Key ent) "" then
    (w, ([], Some keyEmpty))
  else if bool_decide (keysWritten w !! Key ent = Some true) then
    (w, ([], Some (keyRepeated (Key ent))))
  else
    let w := mk (rowsWritten w) (tlt w) (wr w) (<[Key ent := true]> (keysWritten w)) in
    let data := json.marshalString (Key ent) in
    let data := data ++ [":"] in
    let '(val, err) := Marshal (EValue ent) in
    match err with
    | Some e => (w, (data, Some e))
    | None => (w, (data ++ val, None))
    end.

(** The deferred [w.rowsWritten++]. *)
Definition bump (w : t) : t :=
  mk (S (rowsWritten w)) (tlt w) (wr w) (keysWritten w).

Definition setWr (w : t) (s : Sink) : t :=
  mk (rowsWritten w) (tlt w) s (keysWritten w).

(** [WriteEntry] *)
Definition WriteEntry (ent : Entry) (w : t) : t * option error :=
  let open := if isObject (tlt w) then ["{"] else ["["] in
  let '(w, openErr) :=
    if (rowsWritten w =? 0)%nat then
      let '(s, err) := Write open (wr w) in (setWr w s, err)
    else (w, None) in
  match openErr with
  | Some err =>
      (bump w, Some (Errorf ("error writing initial `" ++ string_of open ++ "`: "
                             ++ Error err)%string))
  | None =>
      let '(w, (data, err)) := valBytes ent w in
      match err with
      | Some e => (bump w, Some e)
      | None =>
          let enc := if (rowsWritten w =? 0)%nat then [] else [","] in
          let '(s, err) := Write (enc ++ data) (wr w) in
          (bump (setWr w s), err)
      end
  end.

(** [Close] *)
Definition Close (w : t) : t * option error :=
  if (rowsWritten w =? 0)%nat then
    let data := if isObject (tlt w) then bytes_of "{}" else bytes_of "[]" in
    let '(s, err) := Write data (wr w) in
    match err with
    | Some e =>
        (setWr w s, Some (Errorf ("error writing empty closure '" ++ string_of data ++ "': "
                                  ++ Error e)%string))
    | None => (setWr w s, None)
    end
  else
    let cloze := if isObject (tlt w) then ["}"] else ["]"] in
    let '(s, err) := Write cloze (wr w) in
    match err with
    | Some e => (setWr w s, Some (Errorf ("error closing writer: " ++ Error e)%string))
    | None => (setWr w s, None)
    end.

(** A session: entries written one after the other, every result
    kept, then the writer closed. *)
Fixpoint writeAll (es : list Entry) (w : t) : t * list (option error) :=
  match es with
  | [] => (w, [])
  | e :: es' =>
      let '(w1, r) := WriteEntry e w in
      let '(w2, rs) := writeAll es' w1 in
      (w2, r :: rs)
  end.

End JSONWriter.

(* ================================================================== *)
(** ** bufio.Reader over an io.Reader *)

Module bufio.

(** The underlying [io.Reader]: the bytes it has not delivered yet and
    how it chunks them.  The k-th call of [Read] delivers at most
    [S n] bytes when [n] is the k-th number of the schedule, and as
    many as the caller has room for once the schedule is used up.  It
    delivers at least one byte per call until the bytes are exhausted,
    and reports [io.EOF] from then on. *)
Record Source := mkSource {
  pending : bytes;
  sched : list nat;
}.

(** [rd.Read(p)] with [len(p) = avail]. *)
Definition srcRead (avail : nat) (s : Source) : bytes * Source :=
  let want :=
    match sched s with
    | [] => avail
    | n :: _ => Nat.min avail (S n)
    end in
  (take want (pending s), mkSource (drop want (pending s)) (tail (sched s))).

Definition exhausted (s : Source) : bool :=
  match pending s with [] => true | _ => false end.

(** A [bufio.Reader]: [buf] is the unread part [b.buf[b.r:b.w]] of the
    buffer and [size] is [len(b.buf)].  The sticky error [b.err] is
    [io.EOF] exactly after a [fill] on an exhausted source, so it is
    read off the source. *)
Record Reader := mk {
  buf : bytes;
  size : nat;
  rd : Source;
}.

(** Everything the reader will still deliver. *)
Definition unread (b : Reader) : bytes := buf b ++ pending (rd b).

Definition minReadBufferSize : nat := 16.
Definition defaultBufSize : nat := 4096.

Definition NewReaderSize (rd : Source) (size : nat) : Reader :=
  mk [] (Nat.max size minReadBufferSize) rd.

Definition NewReader (rd : Source) : Reader := NewReaderSize rd defaultBufSize.

Definition Buffered (b : Reader) : nat := length (buf b).

(** [fill]: slide the unread bytes to the front and read once into the
    free space behind them. *)
Definition fill (b : Reader) : Reader :=
  let '(chunk, rd') := srcRead (size b - length (buf b)) (rd b) in
  mk (buf b ++ chunk) (size b) rd'.

(** The loop of [Peek]:
    [for b.w-b.r < n && b.w-b.r < len(b.buf) && b.err == nil { b.fill() }]. *)
Fixpoint fillUntil (fuel n : nat) (b : Reader) : Reader :=
  match fuel with
  | O => b
  | S fuel' =>
      if (Buffered b <? n)%nat && (Buffered b <? size b)%nat && negb (exhausted (rd b))
      then fillUntil fuel' n (fill b)
      else b
  end.

Definition ErrBufferFull : error := Errorf "bufio: buffer full".

(** [Peek(n)] for [n >= 0]. *)
Definition Peek (n : nat) (b : Reader) : (bytes * option error) * Reader :=
  let b := fillUntil (S (length (pending (rd b)))) n b in
  if (size b <? n)%nat then ((buf b, Some ErrBufferFull), b)
  else if (Buffered b <? n)%nat then ((buf b, Some io_EOF), b)
  else ((take n (buf b), None), b).

Definition advance (k : nat) (b : Reader) : Reader :=
  mk (drop k (buf b)) (size b) (rd b).

(** The loop of [Discard]: skip what is buffered, refilling an empty
    buffer, until [remain] bytes are skipped or the source is
    exhausted. *)
Fixpoint discardLoop (fuel remain : nat) (b : Reader) : Reader :=
  match fuel with
  | O => b
  | S fuel' =>
      let b1 := if (Buffered b =? 0)%nat then fill b else b in
      let skip := Nat.min (Buffered b1) remain in
      let b2 := advance skip b1 in
      if ((remain - skip =? 0) || (Buffered b1 =? 0))%nat then b2
      else discardLoop fuel' (remain - skip) b2
  end.

(** [Discard(n)]; a negative count is refused and nothing is skipped,
    a zero count returns at once.  The callers ignore both results. *)
Definition Discard (n : Z) (b : Reader) : Reader :=
  if (n <? 0)%Z then b
  else if (n =? 0)%Z then b
  else discardLoop (Z.to_nat n) (Z.to_nat n) b.

(** [ReadByte] *)
Definition ReadByte (b : Reader) : (ascii * option error) * Reader :=
  let b1 := if (Buffered b =? 0)%nat then fill b else b in
  match buf b1 with
  | [] => (("000"%char, Some io_EOF), b1)
  | c :: _ => ((c, None), advance 1 b1)
  end.

End bufio.

(* ================================================================== *)
(** ** JSONReader (dsio/json.go) *)

Module JSONReader.
Local Open Scope char_scope.

Record t := mk {
  entriesRead : nat;
  initialized : bool;
  tlt : TopLevelType;
  reader : bufio.Reader;
  prevSize : Z;
}.

(** [NewJSONReaderSize], after the schema check and [GetTopLevelType]. *)
Definition NewJSONReaderSize (tl : TopLevelType) (src : bufio.Source) (size : nat) : t :=
  mk 0 false tl (bufio.NewReaderSize src size) 0.

Definition NewJSONReader (tl : TopLevelType) (src : bufio.Source) : t :=
  NewJSONReaderSize tl src (256 * 1024).

Definition blockSize : nat := 4096.

Definition setReader (r : t) (b : bufio.Reader) : t :=
  mk (entriesRead r) (initialized r) (tlt r) b (prevSize r).
Definition setPrevSize (r : t) (n : Z) : t :=
  mk (entriesRead r) (initialized r) (tlt r) (reader r) n.
Definition setInitialized (r : t) : t :=
  mk (entriesRead r) true (tlt r) (reader r) (prevSize r).
Definition countEntry (r : t) : t :=
  mk (S (entriesRead r)) (initialized r) (tlt r) (reader r) (prevSize r).

(** [_, _ = r.reader.Discard(n)] and [_, _ = r.reader.Peek(n)] *)
Definition Discard (n : Z) (r : t) : t := setReader r (bufio.Discard n (reader r)).
Definition Peek (n : nat) (r : t) : bytes * t :=
  let '((b, _), rd) := bufio.Peek n (reader r) in (b, setReader r rd).

Definition isWhitespace (ch : ascii) : bool :=
  (ch =? " ") || (ch =? LF) || (ch =? CR) || (ch =? TAB).

Definition len (b : bytes) : Z := Z.of_nat (length b).

(** [extendBuffer] *)
Definition extendBuffer (orig : bytes) (r : t) : (bytes * bool) * t :=
  let preserve := orig in
  let size := bufio.Buffered (reader r) in
  let r := setPrevSize r (prevSize r + Z.of_nat size) in
  let r := Discard (Z.of_nat size) r in
  let '(_, r) := Peek blockSize r in
  let size := bufio.Buffered (reader r) in
  if (0 <? size)%nat then
    let '(extend, r) := Peek size r in
    ((preserve ++ extend, true), r)
  else ((orig, false), r).

(** The whitespace loop of [currentBuffer]; [buff[skip]] panics when
    out of range. *)
Fixpoint skipLoop (fuel : nat) (buff : bytes) (skip : nat) (r : t)
  : res ((bytes * nat) * t) :=
  match fuel with
  | O => OutOfFuel
  | S fuel' =>
      let '((buff, more), r) :=
        if (length buff <=? skip)%nat then extendBuffer buff r else ((buff, true), r) in
      if negb more then Ret ((buff, skip), r)
      else
        match buff !! skip with
        | None => Panic "index out of range"
        | Some c =>
            if isWhitespace c then skipLoop fuel' buff (S skip) r
            else Ret ((buff, skip), r)
        end
  end.

Definition remaining (r : t) : nat :=
  (length (bufio.buf (reader r)) + length (bufio.pending (bufio.rd (reader r))))%nat.

(** [currentBuffer] *)
Definition currentBuffer (r : t) : res (bytes * t) :=
  let '(buff, r) := Peek (bufio.Buffered (reader r)) r in
  let r := setPrevSize r 0 in
  '((buff, skip), r) ← skipLoop (S (S (remaining r))) buff 0 r;
  if (0 <? skip)%nat then
    let r := Discard (Z.of_nat skip - prevSize r) r in
    let r := setPrevSize r 0 in
    Ret (drop skip buff, r)
  else Ret (buff, r).

(** [readTokenChar] *)
Definition readTokenChar (ch : ascii) (r : t) : res (bool * t) :=
  '(buff, r) ← currentBuffer r;
  match buff with
  | c :: _ => if (c =? ch) then Ret (true, Discard 1 r) else Ret (false, r)
  | [] => Ret (false, r)
  end.

(** [bytes.Compare(tok, buff[0:len(tok)]) == 0] *)
Definition bytesEqual (a b : bytes) : bool := bool_decide (a = b).

(** [readLiteralToken] *)
Definition readLiteralToken (tok : bytes) (r : t) : res (bool * t) :=
  '(buff, r) ← currentBuffer r;
  let '((buff, more), r) :=
    if (length buff <? length tok)%nat then extendBuffer buff r else ((buff, true), r) in
  if negb more then Ret (false, r)
  else if (length tok <=? length buff)%nat && bytesEqual tok (take (length tok) buff) then
    Ret (true, Discard (len tok - prevSize r) r)
  else Ret (false, r).

(** [peekNextChar] *)
Definition peekNextChar (r : t) : res (ascii * t) :=
  '(buff, r) ← currentBuffer r;
  match buff with
  | c :: _ => Ret (c, r)
  | [] => Ret ("000", r)
  end.

(** [extractFromBuffer] *)
Definition extractFromBuffer (buffer : bytes) (i : nat) (r : t) : string * t :=
  let text := string_of (take i buffer) in
  let r := Discard (Z.of_nat i - prevSize r) r in
  let r := setPrevSize r 0 in
  (text, r).

(** The scanning loop of [readString], from index [i] on. *)
Fixpoint stringLoop (fuel : nat) (buff : bytes) (i : nat) (r : t)
  : res ((string * option error) * t) :=
  match fuel with
  | O => OutOfFuel
  | S fuel' =>
      let '((buff, more), r) :=
        if (length buff <=? i)%nat then extendBuffer buff r else ((buff, true), r) in
      if negb more then
        Ret ((EmptyString,
              Some (Errorf ("Expected: closing '" ++ String dquote "' for string")%string)), r)
      else
        match buff !! i with
        | None => Panic "index out of range"
        | Some c =>
            if (c =? backslash) then stringLoop fuel' buff (S (S i)) r
            else if (c =? dquote) then
              let '(text, r) := extractFromBuffer buff (S i) r in
              Ret (strconv.Unquote text, r)
            else stringLoop fuel' buff (S i) r
        end
  end.

(** [readString] *)
Definition readString (r : t) : res ((string * option error) * t) :=
  '(buff, r) ← currentBuffer r;
  match buff with
  | c :: _ =>
      if (c =? dquote) then stringLoop (S (S (remaining r))) buff 1 r
      else Ret ((EmptyString, Some (Errorf "Expected: string")), r)
  | [] => Ret ((EmptyString, Some (Errorf "Expected: string")), r)
  end.

(** The scanning loop of [readNumber]. *)
Fixpoint numberLoop (fuel : nat) (buff : bytes) (isFloat : bool) (i : nat) (r : t)
  : res (((bytes * bool) * nat) * t) :=
  match fuel with
  | O => OutOfFuel
  | S fuel' =>
      let '((buff, more), r) :=
        if (length buff <=? i)%nat then extendBuffer buff r else ((buff, true), r) in
      if negb more then Ret (((buff, isFloat), i), r)
      else
        match buff !! i with
        | None => Panic "index out of range"
        | Some c =>
            if strconv.isDigit c then numberLoop fuel' buff isFloat (S i) r
            else if (c =? ".") || (c =? "e") || (c =? "E") || (c =? "+") then
              numberLoop fuel' buff true (S i) r
            else if (c =? "-") then numberLoop fuel' buff isFloat (S i) r
            else Ret (((buff, isFloat), i), r)
        end
  end.

(** [readNumber] *)
Definition readNumber (r : t) : res ((Value * option error) * t) :=
  '(buff, r) ← currentBuffer r;
  '(((buff, isFloat), i), r) ← numberLoop (S (S (remaining r))) buff false 0 r;
  if (0 <? i)%nat then
    let '(text, r) := extractFromBuffer buff i r in
    if (isFloat : bool) then
      let res := strconv.ParseFloat text in Ret ((VFloat res.1, res.2), r)
    else
      let res := strconv.Atoi text in Ret ((VInt res.1, res.2), r)
  else Ret ((VInt 0, Some (Errorf "Expected: number")), r).

Section Composite.
(** The functions below call [readValue], which in turn calls them;
    [rv] stands for the recursive call. *)
Variable rv : t -> res ((Value * option error) * t).

(** [readKeyValuePair] *)
Definition readKeyValuePair (r : t) : res (((string * Value) * option error) * t) :=
  '((key, err), r) ← readString r;
  match err with
  | Some e => Ret (((EmptyString, VNull), Some e), r)
  | None =>
      '(ok, r) ← readTokenChar ":" r;
      if negb ok then
        Ret (((EmptyString, VNull), Some (Errorf "Expected: ':' to separate key and value")), r)
      else
        '((val, err), r) ← rv r;
        match err with
        | Some e => Ret (((EmptyString, VNull), Some e), r)
        | None => Ret (((key, val), None), r)
        end
  end.

(** The loop of [readObject] over the pairs after the first. *)
Fixpoint objectLoop (fuel : nat) (obj : gmap string Value) (r : t)
  : res ((Value * option error) * t) :=
  match fuel with
  | O => OutOfFuel
  | S fuel' =>
      '(ok, r) ← readTokenChar "}" r;
      if (ok : bool) then Ret ((VObject obj, None), r)
      else
        '(ok, r) ← readTokenChar "," r;
        if negb ok then
          Ret ((VNull, Some (Errorf "Expected: ',' to separate elements")), r)
        else
          '(((key, val), err), r) ← readKeyValuePair r;
          match err with
          | Some e => Ret ((VObject obj, Some e), r)
          | None => objectLoop fuel' (<[key := val]> obj) r
          end
  end.

(** [readObject] *)
Definition readObject (fuel : nat) (r : t) : res ((Value * option error) * t) :=
  '(ok, r) ← readTokenChar "{" r;
  if negb ok then Ret ((VNull, Some (Errorf "Expected: opening '{' for object")), r)
  else
    let obj : gmap string Value := ∅ in
    '(ok, r) ← readTokenChar "}" r;
    if (ok : bool) then Ret ((VObject obj, None), r)
    else
      '(((key, val), err), r) ← readKeyValuePair r;
      match err with
      | Some e => Ret ((VNull, Some e), r)
      | None => objectLoop fuel (<[key := val]> obj) r
      end.

(** The loop of [readArray] over the elements after the first. *)
Fixpoint arrayLoop (fuel : nat) (array : list Value) (r : t)
  : res ((Value * option error) * t) :=
  match fuel with
  | O => OutOfFuel
  | S fuel' =>
      '(ok, r) ← readTokenChar "]" r;
      if (ok : bool) then Ret ((VArray array, None), r)
      else
        '(ok, r) ← readTokenChar "," r;
        if negb ok then
          '(_, r) ← currentBuffer r;
          Ret ((VNilSlice, Some (Errorf "Expected: ',' to separate elements")), r)
        else
          '((val, err), r) ← rv r;
          match err with
          | Some e => Ret ((VArray array, Some e), r)
          | None => arrayLoop fuel' (array ++ [val]) r
          end
  end.

(** [readArray]; where the source returns nil the result is the nil
    slice.  An error on the first element is dropped, as in the
    source. *)
Definition readArray (fuel : nat) (r : t) : res ((Value * option error) * t) :=
  '(ok, r) ← readTokenChar "[" r;
  if negb ok then Ret ((VNilSlice, Some (Errorf "Expected: opening '[' for array")), r)
  else
    let array : list Value := [] in
    '(ok, r) ← readTokenChar "]" r;
    if (ok : bool) then Ret ((VArray array, None), r)
    else
      '((val, err), r) ← rv r;
      match err with
      | Some _ => Ret ((VArray array, None), r)
      | None => arrayLoop fuel (array ++ [val]) r
      end.

End Composite.

(** [readValue] *)
Fixpoint readValue (fuel : nat) (r : t) : res ((Value * option error) * t) :=
  match fuel with
  | O => OutOfFuel
  | S fuel' =>
      '(b, r) ← peekNextChar r;
      match b with
      | "n" =>
          '(ok, r) ← readLiteralToken (bytes_of "null") r;
          if (ok : bool) then Ret ((VNull, None), r)
          else Ret ((VNull, Some (Errorf "Expected: null")), r)
      | "t" =>
          '(ok, r) ← readLiteralToken (bytes_of "true") r;
          if (ok : bool) then Ret ((VBool true, None), r)
          else Ret ((VNull, Some (Errorf "Expected: true")), r)
      | "f" =>
          '(ok, r) ← readLiteralToken (bytes_of "false") r;
          if (ok : bool) then Ret ((VBool false, None), r)
          else Ret ((VNull, Some (Errorf "Expected: false")), r)
      | "034" =>
          '((s, err), r) ← readString r;
          Ret ((VString s, err), r)
      | "-" | "0" | "1" | "2" | "3" | "4" | "5" | "6" | "7" | "8" | "9" =>
          readNumber r
      | "{" => readObject (readValue fuel') fuel' r
      | "[" => readArray (readValue fuel') fuel' r
      | _ => Ret ((VNull, None), r)
      end
  end.

(** [ReadEntry] *)
Definition ReadEntry (r : t) : res ((Entry * option error) * t) :=
  let ent := Entry0 in
  let fuel := S (S (remaining r)) in
  let '(_, r) := Peek blockSize r in
  '(opened, r) ←
    (if initialized r then Ret (true, r)
     else readTokenChar (if isObject (tlt r) then "{" else "[") r);
  if negb opened then
    Ret ((ent, Some (Errorf (if isObject (tlt r)
                             then "Expected: opening object '{'"
                             else "Expected: opening array '['"))), r)
  else
    '(closed, r) ← readTokenChar (if isObject (tlt r) then "}" else "]") r;
    if (closed : bool) then Ret ((ent, Some io_EOF), r)
    else
      '(sep, r) ← (if initialized r then readTokenChar "," r else Ret (true, r));
      if negb sep then Ret ((ent, Some (Errorf "Expected: separator ','")), r)
      else
        let r := setInitialized r in
        if isObject (tlt r) then
          '(((key, val), err), r) ← readKeyValuePair (readValue fuel) r;
          let ent := mkEntry (Index ent) key val in
          match err with
          | Some e => Ret ((ent, Some e), r)
          | None => Ret ((ent, None), countEntry r)
          end
        else
          '((val, err), r) ← readValue fuel r;
          let ent := mkEntry (Z.of_nat (entriesRead r)) (Key ent) val in
          match err with
          | Some e => Ret ((ent, Some e), r)
          | None => Ret ((ent, None), countEntry r)
          end.

(** [n] calls of [ReadEntry] in a row; a panic ends the run. *)
Fixpoint run (n : nat) (r : t) : res (list (Entry * option error)) :=
  match n with
  | O => Ret []
  | S n' =>
      '(x, r) ← ReadEntry r;
      xs ← run n' r;
      Ret (x :: xs)
  end.

End JSONReader.

(* ================================================================== *)
(** ** Package replacecr *)

Module replacecr.

(** [Reader(data)]: the filter owns a [bufio.Reader] of default size
    over the source. *)
Definition Reader (data : bufio.Source) : bufio.Reader := bufio.NewReader data.

(** The condition under which a line feed is added after a carriage
    return: the next byte exists and is not a line feed, or the peek
    fails with the error whose text is "EOF". *)
Definition lonely (pk : bytes) (err : option error) : bool :=
  match err, pk with
  | None, c :: _ => negb (c =? LF)%char
  | None, [] => false
  | Some e, _ => String.eqb (Error e) "EOF"
  end.

(** The loop of [crlfReplaceReader.Read]; [p] is the part [p[0:n]] of
    the destination written so far and [plen] is [len(p)]. *)
Fixpoint readLoop (fuel plen : nat) (p : bytes) (c : bufio.Reader)
  : res ((bytes * option error) * bufio.Reader) :=
  match fuel with
  | O => OutOfFuel
  | S fuel' =>
      if (length p =? plen)%nat then Ret ((p, None), c)
      else
        let '((b, err), c) := bufio.ReadByte c in
        match err with
        | Some e => Ret ((p, Some e), c)
        | None =>
            if (b =? CR)%char && (length p <? plen)%nat then
              let '((pk, perr), c) := bufio.Peek 1 c in
              if lonely pk perr then
                (* n++; p[n] = '\n' *)
                if (S (length p) <? plen)%nat then readLoop fuel' plen (p ++ [b; LF]) c
                else Panic "index out of range"
              else readLoop fuel' plen (p ++ [b]) c
            else readLoop fuel' plen (p ++ [b]) c
        end
  end.

(** [Read(p)] with [len(p) = plen]: the bytes stored in [p[0:n]] and
    the error. *)
Definition Read (plen : nat) (c : bufio.Reader) : res ((bytes * option error) * bufio.Reader) :=
  if (plen =? 0)%nat then Ret (([], None), c)
  else readLoop (S plen) plen [] c.

(** What the package documents: every carriage return that is not
    followed by a line feed gets one. *)
Fixpoint normalize (l : bytes) : bytes :=
  match l with
  | [] => []
  | c :: l' =>
      if (c =? CR)%char then
        match l' with
        | c' :: _ => if (c' =? LF)%char then c :: normalize l' else c :: LF :: normalize l'
        | [] => [c; LF]
        end
      else c :: normalize l'
  end.

End replacecr.

(* ================================================================== *)
(** ** encoding/csv, for text without quotes *)

Module csv.

(** What one call of [csv.Reader.Read] returns. *)
Inductive result :=
| Record_ (fields : list string)
| Failed (e : error).

Fixpoint splitOn (sep : ascii) (cur : bytes) (l : bytes) : list bytes :=
  match l with
  | [] => [rev cur]
  | c :: l' => if (c =? sep)%char then rev cur :: splitOn sep [] l' else splitOn sep (c :: cur) l'
  end.

Definition trimCR (line : bytes) : bytes :=
  match rev line with
  | c :: l => if (c =? CR)%char then rev l else line
  | [] => line
  end.

Definition ErrFieldCount : error := Errorf "wrong number of fields".

(** The text of a [ParseError] that wraps [ErrFieldCount]. *)
Definition ParseError (line : nat) (err : error) : error :=
  Errorf ("record on line " ++ strconv.Itoa (Z.of_nat line) ++ ": " ++ Error err)%string.

(** The records of a text in which no field is quoted, with the
    default separator and [FieldsPerRecord = 0]: lines end in a line
    feed (a carriage return before it is dropped), empty lines are
    skipped but counted, and every record must have as many fields as
    the first; one that has not is reported with its line. *)
Definition records (text : bytes) : list result :=
  let lines :=
    filter (fun l => l.2 <> []) (imap (fun i l => (S i, trimCR l)) (splitOn LF [] text)) in
  let recs := map (fun l => (l.1, map string_of (splitOn ","%char [] l.2))) lines in
  match recs with
  | [] => []
  | first :: _ =>
      map (fun r => if (length r.2 =? length first.2)%nat then Record_ r.2
                    else Failed (ParseError r.1 ErrFieldCount)) recs
  end.

End csv.

(* ================================================================== *)
(** ** dataset.Structure and the CSV options (data_format_config.go) *)

Record Structure := mkStructure {
  Format : string;
  FormatConfig : option (gmap string Value);
  Schema : option (gmap string Value);
}.

Record CSVOptions := mkCSVOptions {
  HeaderRow : bool;
  LazyQuotes : bool;
  Separator : option ascii;
  VariadicFields : bool;
}.

(** A boolean option of the configuration map: absent or nil keeps the
    default, a boolean sets it, anything else is an error. *)
Definition boolOpt (opts : gmap string Value) (name : string) (dflt : bool) : option bool :=
  match opts !! name with
  | None | Some VNull => Some dflt
  | Some (VBool b) => Some b
  | Some _ => None
  end.

(** [NewCSVOptions] *)
Definition NewCSVOptions (opts : option (gmap string Value)) : option CSVOptions :=
  match opts with
  | None => Some (mkCSVOptions false false None false)
  | Some opts =>
      h ← boolOpt opts "headerRow" false;
      lq ← boolOpt opts "lazyQuotes" false;
      sep ← match opts !! "separator" with
            | None | Some VNull => Some None
            | Some (VString s) =>
                match bytes_of s with
                | [c] => Some (Some c)
                | _ => None
                end
            | Some _ => None
            end;
      vf ← boolOpt opts "variadicFields" false;
      Some (mkCSVOptions h lq sep vf)
  end.

(** [CSVOptions.Map]: a nil receiver gives a nil map; an option
    that has its zero value is left out; the separator is stored as the
    rune it is, an integer. *)
Definition CSVOptions_Map (o : option CSVOptions) : option (gmap string Value) :=
  match o with
  | None => None
  | Some o =>
      let opt : gmap string Value := ∅ in
      let opt := if HeaderRow o then <["headerRow" := VBool (HeaderRow o)]> opt else opt in
      let opt := if LazyQuotes o then <["lazyQuotes" := VBool (LazyQuotes o)]> opt else opt in
      let opt :=
        if VariadicFields o then <["variadicFields" := VBool (VariadicFields o)]> opt
        else opt in
      let opt :=
        match Separator o with
        | Some c =>
            if (c =? "000")%char then opt
            else <["separator" := VInt (Z.of_N (code c))]> opt
        | None => opt
        end in
      Some opt
  end.

Record XLSXOptions := mkXLSXOptions {
  SheetName : string;
}.

(** [NewXLSXOptions] *)
Definition NewXLSXOptions (opts : option (gmap string Value)) : option XLSXOptions :=
  match opts with
  | None => Some (mkXLSXOptions "")
  | Some opts =>
      match opts !! "sheetName" with
      | None | Some VNull => Some (mkXLSXOptions "")
      | Some (VString sheetName) => Some (mkXLSXOptions sheetName)
      | Some _ => None
      end
  end.

(** [XLSXOptions.Map] *)
Definition XLSXOptions_Map (o : option XLSXOptions) : option (gmap string Value) :=
  match o with
  | None => None
  | Some o =>
      let opt : gmap string Value := ∅ in
      let opt :=
        if negb (String.eqb (SheetName o) "") then <["sheetName" := VString (SheetName o)]> opt
        else opt in
      Some opt
  end.

(* ================================================================== *)
(** ** CSVReader (dsio/csv.go) *)

Module CSVReader.

(** [HasHeaderRow] *)
Definition HasHeaderRow (st : Structure) : bool :=
  if String.eqb (Format st) "csv" && bool_decide (FormatConfig st <> None) then
    match NewCSVOptions (FormatConfig st) with
    | Some csvOpt => HeaderRow csvOpt
    | None => false
    end
  else false.

(** The type of one column descriptor in
    [terribleHackToGetHeaderRowAndTypes]. *)
Definition fieldType (f : Value) : string :=
  match f with
  | VObject field =>
      match field !! "type" with
      | Some (VString ts) => ts
      | Some (VArray (VString s :: _)) => s
      | _ => "string"
      end
  | _ => ""
  end.

Definition fieldTitle (f : Value) : string :=
  match f with
  | VObject field =>
      match field !! "title" with
      | Some (VString title) => title
      | _ => ""
      end
  | _ => ""
  end.

(** [terribleHackToGetHeaderRowAndTypes] *)
Definition terribleHackToGetHeaderRowAndTypes (st : Structure)
  : (list string * list string) * option error :=
  match Schema st with
  | Some sch =>
      match sch !! "items" with
      | Some (VObject itemObj) =>
          match itemObj !! "items" with
          | Some (VArray itemArr) => ((map fieldTitle itemArr, map fieldType itemArr), None)
          | _ => (([], []), Some (Errorf "nope"))
          end
      | _ => (([], []), Some (Errorf "nope"))
      end
  | None => (([], []), Some (Errorf "nope"))
  end.

(** The reader; [r] holds what the calls of [csv.Reader.Read] will
    return, in order, before [io.EOF]. *)
Record t := mk {
  st : Structure;
  readHeader : bool;
  r : list csv.result;
  types : list string;
}.

(** [NewCSVReader]; [recs] stands for the [csv.Reader] built over the
    filtered input with the options of the structure. *)
Definition NewCSVReader (st : Structure) (recs : list csv.result) : t :=
  mk st false recs (terribleHackToGetHeaderRowAndTypes st).1.2.

(** [r.r.Read()] *)
Definition Read (rd : t) : (list string * option error) * t :=
  match r rd with
  | [] => (([], Some io_EOF), rd)
  | csv.Record_ fields :: q => ((fields, None), mk (st rd) (readHeader rd) q (types rd))
  | csv.Failed e :: q => (([], Some e), mk (st rd) (readHeader rd) q (types rd))
  end.

Section Decode.
(** The parsers of package [vals] and [json.Unmarshal] into a map
    or a slice; [None] is a non-nil error. *)
Variable ParseNumber : string -> option strconv.float64.
Variable ParseInteger : string -> option Z.
Variable ParseBoolean : string -> option bool.
Variable UnmarshalObject : string -> option (gmap string Value).
Variable UnmarshalArray : string -> option (list Value).

(** The coercion that [decode] attempts for a column of type [ty] fails
    on the text [str]. *)
Definition coercionFails (ty str : string) : Prop :=
  (ty = "number" /\ ParseNumber str = None)
  \/ (ty = "integer" /\ ParseInteger str = None)
  \/ (ty = "boolean" /\ ParseBoolean str = None)
  \/ (ty = "object" /\ UnmarshalObject str = None)
  \/ (ty = "array" /\ UnmarshalArray str = None).

(** One iteration of the loop of [decode]. *)
Definition decodeField (ty str : string) : Value :=
  let v := VString str in
  if String.eqb ty "number" then
    match ParseNumber str with Some num => VFloat num | None => v end
  else if String.eqb ty "integer" then
    match ParseInteger str with Some num => VInt num | None => v end
  else if String.eqb ty "boolean" then
    match ParseBoolean str with Some b => VBool b | None => v end
  else if String.eqb ty "object" then
    match UnmarshalObject str with Some m => VObject m | None => v end
  else if String.eqb ty "array" then
    match UnmarshalArray str with Some l => VArray l | None => v end
  else if String.eqb ty "null" then VNull
  else v.

(** [decode] *)
Definition decode (rd : t) (strings : list string) : list Value * option error :=
  let types := types rd in
  let types :=
    if (length types <? length strings)%nat then replicate (length strings) "string"
    else types in
  (imap (fun i str => decodeField (types !!! i) str) strings, None).

(** [ReadEntry] *)
Definition ReadEntry (rd : t) : (Entry * option error) * t :=
  let '(herr, rd) :=
    if negb (readHeader rd) then
      if HasHeaderRow (st rd) then
        let '((_, err), rd) := Read rd in
        match err with
        | Some e => (Some e, rd)
        | None => (None, mk (st rd) true (r rd) (types rd))
        end
      else (None, mk (st rd) true (r rd) (types rd))
    else (None, rd) in
  match herr with
  | Some e => ((Entry0, Some e), rd)
  | None =>
      let '((data, err), rd) := Read rd in
      match err with
      | Some e => ((Entry0, Some e), rd)
      | None =>
          let '(value, err) := decode rd data in
          match err with
          | Some e => ((Entry0, Some e), rd)
          | None => ((mkEntry 0 "" (VArray value), None), rd)
          end
      end
  end.

(** [n] calls of [ReadEntry] in a row. *)
Fixpoint run (n : nat) (rd : t) : list (Entry * option error) :=
  match n with
  | O => []
  | S n' => let '(x, rd) := ReadEntry rd in x :: run n' rd
  end.


End Decode.

End CSVReader.

(* ================================================================== *)
(** ** The decoder on unchunked input

    The same decoding steps as [JSONReader], stated on the bytes that
    remain to be read, without buffer or chunks.  A step answers [None]
    where the text is cut or misspelt inside a token in a way that makes
    the buffered reader depend on where its buffer ends: a literal that
    is not spelt out, a string that is never closed.  (It also answers
    [None] when its fuel runs out.) *)

Module JSONText.
Local Open Scope char_scope.
Import JSONReader.

Fixpoint skipWs (l : bytes) : bytes :=
  match l with
  | c :: l' => if isWhitespace c then skipWs l' else l
  | [] => []
  end.

Definition tokenChar (ch : ascii) (rem : bytes) : bool * bytes :=
  match skipWs rem with
  | c :: l => if (c =? ch) then (true, l) else (false, c :: l)
  | [] => (false, [])
  end.

Definition peekChar (rem : bytes) : ascii * bytes :=
  match skipWs rem with
  | c :: l => (c, c :: l)
  | [] => ("000", [])
  end.

Definition literal (tok : bytes) (rem : bytes) : option bytes :=
  let l := skipWs rem in
  if bool_decide (take (length tok) l = tok) then Some (drop (length tok) l) else None.

(** Length of a string token after its opening quote, closing quote
    included; a backslash hides the byte after it. *)
Fixpoint scanString (l : bytes) : option nat :=
  match l with
  | [] => None
  | c :: l1 =>
      if (c =? backslash) then
        match l1 with
        | [] => None
        | _ :: l2 => (fun n => S (S n)) <$> scanString l2
        end
      else if (c =? dquote) then Some 1%nat
      else S <$> scanString l1
  end.

Definition string_ (rem : bytes) : option ((string * option error) * bytes) :=
  match skipWs rem with
  | c :: l =>
      if (c =? dquote) then
        n ← scanString l;
        Some (strconv.Unquote (string_of (c :: take n l)), drop n l)
      else Some ((EmptyString, Some (Errorf "Expected: string")), c :: l)
  | [] => Some ((EmptyString, Some (Errorf "Expected: string")), [])
  end.

Definition isFloatMark (c : ascii) : bool :=
  (c =? ".") || (c =? "e") || (c =? "E") || (c =? "+").

Definition isNumberByte (c : ascii) : bool :=
  strconv.isDigit c || isFloatMark c || (c =? "-").

(** The maximal run of number bytes and what follows it. *)
Definition numberRun (l : bytes) : bytes * bytes := strconv.span isNumberByte l.

(** The bytes the specification names as the marks of a floating-point
    number: the point and the two exponent letters. *)
Definition isPointOrExp (c : ascii) : bool :=
  (c =? ".") || (c =? "e") || (c =? "E").

Definition isFloatValue (v : Value) : bool :=
  match v with VFloat _ => true | _ => false end.

Definition isIntValue (v : Value) : bool :=
  match v with VInt _ => true | _ => false end.

(** The first byte on which [readValue] calls [readNumber]. *)
Definition startsNumber (l : bytes) : bool :=
  match l with
  | c :: _ => strconv.isDigit c || (c =? "-")
  | [] => false
  end.

Definition number (rem : bytes) : (Value * option error) * bytes :=
  let '(run, rest) := numberRun (skipWs rem) in
  match run with
  | [] => ((VInt 0, Some (Errorf "Expected: number")), rest)
  | _ =>
      if existsb isFloatMark run then
        let res := strconv.ParseFloat (string_of run) in ((VFloat res.1, res.2), rest)
      else
        let res := strconv.Atoi (string_of run) in ((VInt res.1, res.2), rest)
  end.

Section Composite.
Variable rv : bytes -> option ((Value * option error) * bytes).

Definition keyValuePair (rem : bytes) : option (((string * Value) * option error) * bytes) :=
  '((key, err), rem) ← string_ rem;
  match err with
  | Some e => Some (((EmptyString, VNull), Some e), rem)
  | None =>
      let '(ok, rem) := tokenChar ":" rem in
      if negb ok then
        Some (((EmptyString, VNull), Some (Errorf "Expected: ':' to separate key and value")), rem)
      else
        '((val, err), rem) ← rv rem;
        match err with
        | Some e => Some (((EmptyString, VNull), Some e), rem)
        | None => Some (((key, val), None), rem)
        end
  end.

Fixpoint objectLoop (fuel : nat) (obj : gmap string Value) (rem : bytes)
  : option ((Value * option error) * bytes) :=
  match fuel with
  | O => None
  | S fuel' =>
      let '(ok, rem) := tokenChar "}" rem in
      if ok then Some ((VObject obj, None), rem)
      else
        let '(ok, rem) := tokenChar "," rem in
        if negb ok then
          Some ((VNull, Some (Errorf "Expected: ',' to separate elements")), rem)
        else
          '(((key, val), err), rem) ← keyValuePair rem;
          match err with
          | Some e => Some ((VObject obj, Some e), rem)
          | None => objectLoop fuel' (<[key := val]> obj) rem
          end
  end.

Definition object_ (fuel : nat) (rem : bytes) : option ((Value * option error) * bytes) :=
  let '(ok, rem) := tokenChar "{" rem in
  if negb ok then Some ((VNull, Some (Errorf "Expected: opening '{' for object")), rem)
  else
    let '(ok, rem) := tokenChar "}" rem in
    if ok then Some ((VObject ∅, None), rem)
    else
      '(((key, val), err), rem) ← keyValuePair rem;
      match err with
      | Some e => Some ((VNull, Some e), rem)
      | None => objectLoop fuel (<[key := val]> ∅) rem
      end.

Fixpoint arrayLoop (fuel : nat) (array : list Value) (rem : bytes)
  : option ((Value * option error) * bytes) :=
  match fuel with
  | O => None
  | S fuel' =>
      let '(ok, rem) := tokenChar "]" rem in
      if ok then Some ((VArray array, None), rem)
      else
        let '(ok, rem) := tokenChar "," rem in
        if negb ok then
          Some ((VNilSlice, Some (Errorf "Expected: ',' to separate elements")), skipWs rem)
        else
          '((val, err), rem) ← rv rem;
          match err with
          | Some e => Some ((VArray array, Some e), rem)
          | None => arrayLoop fuel' (array ++ [val]) rem
          end
  end.

Definition array_ (fuel : nat) (rem : bytes) : option ((Value * option error) * bytes) :=
  let '(ok, rem) := tokenChar "[" rem in
  if negb ok then Some ((VNilSlice, Some (Errorf "Expected: opening '[' for array")), rem)
  else
    let '(ok, rem) := tokenChar "]" rem in
    if ok then Some ((VArray [], None), rem)
    else
      '((val, err), rem) ← rv rem;
      match err with
      | Some _ => Some ((VArray [], None), rem)
      | None => arrayLoop fuel [val] rem
      end.

End Composite.

Fixpoint value (fuel : nat) (rem : bytes) : option ((Value * option error) * bytes) :=
  match fuel with
  | O => None
  | S fuel' =>
      let '(b, rem) := peekChar rem in
      match b with
      | "n" => rem ← literal (bytes_of "null") rem; Some ((VNull, None), rem)
      | "t" => rem ← literal (bytes_of "true") rem; Some ((VBool true, None), rem)
      | "f" => rem ← literal (bytes_of "false") rem; Some ((VBool false, None), rem)
      | "034" => '((s, err), rem) ← string_ rem; Some ((VString s, err), rem)
      | "-" | "0" | "1" | "2" | "3" | "4" | "5" | "6" | "7" | "8" | "9" =>
          Some (number rem)
      | "{" => object_ (value fuel') fuel' rem
      | "[" => array_ (value fuel') fuel' rem
      | _ => Some ((VNull, None), rem)
      end
  end.

(** The state of a decoding session. *)
Record state := mkState {
  rest : bytes;
  opened : bool;
  count : nat;
}.

Definition entry (tl : TopLevelType) (s : state) : option ((Entry * option error) * state) :=
  let fuel := S (S (length (rest s))) in
  let '(isOpen, rem) :=
    if opened s then (true, rest s)
    else tokenChar (if isObject tl then "{" else "[") (rest s) in
  if negb isOpen then
    Some ((Entry0, Some (Errorf (if isObject tl
                                 then "Expected: opening object '{'"
                                 else "Expected: opening array '['"))),
          mkState rem (opened s) (count s))
  else
    let '(closed, rem) := tokenChar (if isObject tl then "}" else "]") rem in
    if closed then Some ((Entry0, Some io_EOF), mkState rem (opened s) (count s))
    else
      let '(sep, rem) := if opened s then tokenChar "," rem else (true, rem) in
      if negb sep then
        Some ((Entry0, Some (Errorf "Expected: separator ','")), mkState rem (opened s) (count s))
      else if isObject tl then
        '(((key, val), err), rem) ← keyValuePair (value fuel) rem;
        match err with
        | Some e => Some ((mkEntry 0 key val, Some e), mkState rem true (count s))
        | None => Some ((mkEntry 0 key val, None), mkState rem true (S (count s)))
        end
      else
        '((val, err), rem) ← value fuel rem;
        match err with
        | Some e => Some ((mkEntry (Z.of_nat (count s)) "" val, Some e), mkState rem true (count s))
        | None => Some ((mkEntry (Z.of_nat (count s)) "" val, None), mkState rem true (S (count s)))
        end.

Fixpoint run (tl : TopLevelType) (n : nat) (s : state) : option (list (Entry * option error)) :=
  match n with
  | O => Some []
  | S n' =>
      '(x, s) ← entry tl s;
      xs ← run tl n' s;
      Some (x :: xs)
  end.

Definition start (text : bytes) : state := mkState text false 0.

End JSONText.

(* ================================================================== *)
(** ** Relating the buffered reader to the text it has left *)

Module chunking.
Import JSONReader.

(** The fields of a reader that no token-level step changes. *)
Definition session (r : t) : nat * bool * TopLevelType * nat :=
  (entriesRead r, initialized r, tlt r, bufio.size (reader r)).

(** Between two steps: [rem] is what the reader has left to deliver. *)
Definition holds (r : t) (rem : bytes) : Prop :=
  bufio.unread (reader r) = rem /\ (16 <= bufio.size (reader r))%nat.

(** Inside a step that scans the local slice [buff]: [buff] followed by
    what the source still holds is [rem]; the first [prevSize] bytes of
    [buff] have left the buffer already, the others are the buffer. *)
Definition window (buff : bytes) (r : t) (rem : bytes) : Prop :=
  rem = buff ++ bufio.pending (bufio.rd (reader r))
  /\ (0 <= prevSize r <= len buff)%Z
  /\ bufio.buf (reader r) = drop (Z.to_nat (prevSize r)) buff
  /\ (16 <= bufio.size (reader r))%nat.

(** The buffered step [f] does what the step [g] on text does, wherever
    [g] answers. *)
Definition follows {A} (f : t -> res (A * t)) (g : bytes -> option (A * bytes)) : Prop :=
  forall r rem x rem',
    holds r rem -> g rem = Some (x, rem') ->
    exists r', f r = Ret (x, r') /\ holds r' rem' /\ session r' = session r.

(** A reader and a decoding state on text that are at the same point of
    the same session. *)
Definition agree (tl : TopLevelType) (r : t) (s : JSONText.state) : Prop :=
  holds r (JSONText.rest s)
  /\ initialized r = JSONText.opened s
  /\ entriesRead r = JSONText.count s
  /\ tlt r = tl.

End chunking.

(* ================================================================== *)
(** ** Package vals *)

Module vals.

(** Modelled from the spec: [vals.ParseNumber], package [vals] is not
    among the files at hand; the specification describes the coercion of
    a number column as a floating-point parse. *)
Definition ParseNumber (s : string) : option strconv.float64 :=
  match strconv.ParseFloat s with
  | (f, None) => Some f
  | (_, Some _) => None
  end.

(** Modelled from the spec: [vals.ParseInteger], an integer parse. *)
Definition ParseInteger (s : string) : option Z :=
  match strconv.Atoi s with
  | (n, None) => Some n
  | (_, Some _) => None
  end.

(** Modelled from the spec: [vals.ParseBoolean], a boolean parse (the
    spellings [strconv.ParseBool] accepts). *)
Definition ParseBoolean (s : string) : option bool :=
  if bool_decide (s ∈ ["1"; "t"; "T"; "TRUE"; "true"; "True"]) then Some true
  else if bool_decide (s ∈ ["0"; "f"; "F"; "FALSE"; "false"; "False"]) then Some false
  else None.

End vals.

(* ================================================================== *)
(** ** The end-to-end scenario of the specification *)

Module scenario.

(** Two columns, (title "n", type "integer") and (title "s", type
    "string"), under the nested [items] of the schema. *)
Definition column (title ty : string) : Value :=
  VObject (<["title" := VString title]> (<["type" := VString ty]> ∅)).

Definition schema : gmap string Value :=
  <["type" := VString "array"]>
    (<["items" := VObject
         (<["type" := VString "array"]>
            (<["items" := VArray [column "n" "integer"; column "s" "string"]]> ∅))]> ∅).

(** Format csv, header row enabled. *)
Definition structure : Structure :=
  mkStructure "csv" (Some (<["headerRow" := VBool true]> ∅)) (Some schema).

(** The three lines "n,s", "1,foo", "2,bar", each ended by a line feed. *)
Definition text : bytes :=
  bytes_of "n,s" ++ [LF] ++ bytes_of "1,foo" ++ [LF] ++ bytes_of "2,bar" ++ [LF].

Definition reader : CSVReader.t :=
  CSVReader.NewCSVReader structure (csv.records text).

(** [n] calls of [ReadEntry] with the parsers of package [vals]; the
    columns of the scenario never reach [json.Unmarshal]. *)
Definition run (n : nat) : list (Entry * option error) :=
  CSVReader.run vals.ParseNumber vals.ParseInteger vals.ParseBoolean
    (fun _ => None) (fun _ => None) n reader.

End scenario.

(* ================================================================== *)
(** ** Values and entries that survive a round trip *)

Module roundtrip.

#[export] Instance error_eq_dec : EqDecision error.
Proof. solve_decision. Defined.

#[export] Instance float64_eq_dec : EqDecision strconv.float64.
Proof. solve_decision. Defined.

(** Strings of bytes below [utf8.RuneSelf]. *)
Definition asciiOnly (s : string) : Prop :=
  Forall (fun c => (code c < 128)%N) (bytes_of s).

(** Strings that are valid UTF-8: the ones [json.Marshal] writes
    without replacing a byte. *)
Definition validText (s : string) : Prop :=
  strconv.ValidString 0 (bytes_of s) = true.

(** The next [k] bytes of [l] exist and are at or above
    [utf8.RuneSelf]. *)
Fixpoint conts (k : nat) (l : bytes) : bool :=
  match k, l with
  | O, _ => true
  | S k', c :: l' => (128 <=? code c)%N && conts k' l'
  | S _, [] => false
  end.

(** A float that is printed with a point or an exponent and that
    [ParseFloat] maps back to itself (as it does for the shortest
    decimal of every finite float64). *)
Definition floatOk (f : strconv.float64) : bool :=
  match json.marshalFloat f with
  | Some bs =>
      JSONText.startsNumber bs
      && forallb JSONText.isNumberByte bs
      && existsb JSONText.isFloatMark bs
      && bool_decide (strconv.ParseFloat (string_of bs) = (f, None))
  | None => false
  end.

(** The values for which writing then reading is the identity. *)
Inductive Portable : Value -> Prop :=
| portable_null : Portable VNull
| portable_bool b : Portable (VBool b)
| portable_int z :
    (strconv.MinInt64 <= z <= strconv.MaxInt64)%Z -> Portable (VInt z)
| portable_float f : floatOk f = true -> Portable (VFloat f)
| portable_string s : validText s -> Portable (VString s)
| portable_array l :
    (forall v, v ∈ l -> Portable v) -> Portable (VArray l)
| portable_object (m : gmap string Value) :
    (forall k v, m !! k = Some v -> validText k) ->
    (forall k v, m !! k = Some v -> Portable v) ->
    Portable (VObject m).

(** The first byte of an encoded value. *)
Definition valueStart (c : ascii) : bool :=
  match c with
  | "n" | "t" | "f" | "034" | "-" | "[" | "{"
  | "0" | "1" | "2" | "3" | "4" | "5" | "6" | "7" | "8" | "9" => true
  | _ => false
  end%char.

(** What may follow a value: nothing, or a byte that cannot continue a
    number. *)
Definition delimited (rest : bytes) : Prop :=
  match rest with
  | c :: _ => JSONText.isNumberByte c = false
  | [] => True
  end.

(** The entry as a reader reports it: the position in an array, the
    key in an object. *)
Definition canon (tl : TopLevelType) (i : nat) (e : Entry) : Entry :=
  match tl with
  | tlt_array => mkEntry (Z.of_nat i) "" (EValue e)
  | tlt_object => mkEntry 0 (Key e) (EValue e)
  end.

(** The bytes of one entry in a document, and the document. *)
Definition encodeEntry (tl : TopLevelType) (e : Entry) : option bytes :=
  match tl with
  | tlt_array => json.Marshal (EValue e)
  | tlt_object =>
      (fun b => json.marshalString (Key e) ++ ":"%char :: b) <$> json.Marshal (EValue e)
  end.

Definition openByte (tl : TopLevelType) : ascii :=
  if isObject tl then "{"%char else "["%char.
Definition closeByte (tl : TopLevelType) : ascii :=
  if isObject tl then "}"%char else "]"%char.

Definition docText (tl : TopLevelType) (es : list Entry) : option bytes :=
  (fun parts => openByte tl :: json.join [","%char] parts ++ [closeByte tl])
    <$> json.allSome (map (encodeEntry tl) es).

(** Entries a writer accepts and a reader gives back. *)
Definition entryOk (tl : TopLevelType) (e : Entry) : Prop :=
  Portable (EValue e) /\ (tl = tlt_object -> validText (Key e)).

Definition keysOk (tl : TopLevelType) (es : list Entry) : Prop :=
  tl = tlt_object -> Forall (fun e => Key e <> "") es /\ NoDup (map Key es).

(** A writer session on an empty [bytes.Buffer]: the results of the
    calls of [WriteEntry], the result of [Close], and the bytes in the
    buffer afterwards. *)
Definition written (tl : TopLevelType) (es : list Entry)
  : (list (option error) * option error) * bytes :=
  let s := JSONWriter.writeAll es (JSONWriter.NewJSONWriter tl (bufferSink [])) in
  let c := JSONWriter.Close s.1 in
  ((s.2, c.2), out (JSONWriter.wr c.1)).

(** The float 1.0. *)
Definition one : strconv.float64 := strconv.FDec false 1 0.

(** A text that is no UTF-8, the byte 0xFF, and the encoding of U+FFFD
    that takes its place. *)
Definition badText : string := String "255"%char EmptyString.
Definition replaced : string := string_of strconv.replacement.

(** The letter e with an acute accent and the line separator U+2028,
    in UTF-8. *)
Definition accents : string :=
  String "195"%char (String "169"%char
    (String "226"%char (String "128"%char (String "168"%char EmptyString)))).

(** Entries of a keyed document: a sequence with an integer, null, a
    text that is escaped, a text that is not ASCII and a boolean, and a
    mapping with the float 2.5. *)
Definition sample : list Entry :=
  [ mkEntry 0 "a" (VArray [VInt (-12); VNull; VString "x<y"; VString accents; VBool true]);
    mkEntry 0 "b" (VObject {[ "k"%string := VFloat (strconv.FDec false 25 (-1)) ]}) ].


(** Two objects a keyed reader is given: a key that occurs twice, and
    an empty key. *)
Definition repeatedKey : bytes :=
  bytes_of "{" ++ [dquote] ++ bytes_of "a" ++ [dquote] ++ bytes_of ":1,"
    ++ [dquote] ++ bytes_of "a" ++ [dquote] ++ bytes_of ":2}".

End roundtrip.

(* ================================================================== *)
(** ** Texts that are cut inside a token *)

Module cut.

(** An array whose first element is an array that starts with the
    misspelt literal "nu": the bytes "[[", 4092 spaces, "nu,1]".  The
    letters "nu" are the bytes 4094 and 4095. *)
Definition literalText : bytes :=
  bytes_of "[[" ++ replicate 4092 " "%char ++ bytes_of "nu,1]".

(** The same text read with a buffer of 8192 bytes from a stream that
    delivers everything in one read, and from a stream whose first read
    delivers 4096 bytes. *)
Definition oneRead : JSONReader.t :=
  JSONReader.NewJSONReaderSize tlt_array (bufio.mkSource literalText []) 8192.
Definition twoReads : JSONReader.t :=
  JSONReader.NewJSONReaderSize tlt_array (bufio.mkSource literalText [4095%nat]) 8192.

(** A string that is never closed and whose last bytes are a backslash
    and a quote: "[", a quote, 13 letters, a backslash, a quote. *)
Definition escapeText : bytes :=
  bytes_of "[" ++ [dquote] ++ replicate 13 "a"%char ++ [backslash; dquote].

(** A well-formed array: white space, a literal, a nested array with
    an integer, a float and null, and a string with an escaped quote. *)
Definition sampleText : bytes :=
  bytes_of "[ true ,[1, 2.5e3, null] , " ++ [dquote] ++ bytes_of "a" ++ [backslash; dquote]
    ++ bytes_of "b" ++ [dquote] ++ bytes_of " ]".

End cut.

(* ================================================================== *)
(** * Properties *)

(* ------------------------------------------------------------------ *)
(** ** JSONWriter *)

Section WriterFacts.
Import JSONWriter.

Lemma Write_buffer p b : Write p (bufferSink b) = (bufferSink (b ++ p), None).
Proof. reflexivity. Qed.

(** A write only appends, and a write that reports no error appends
    all of [p]. *)
Lemma Write_appends p s s' err :
  Write p s = (s', err) ->
  exists d, out s' = out s ++ d /\ d `prefix_of` p /\ (err = None -> d = p).
Proof.
  unfold Write. destruct (room s) as [k|].
  - destruct (length p <=? k)%nat eqn:E; intros [= <- <-]; simpl.
    + exists p. split; [done|]. split; [done|done].
    + exists (take k p). split; [done|]. split; [apply prefix_take|done].
  - intros [= <- <-]. exists p. simpl. split; [done|]. split; [done|done].
Qed.

Lemma valBytes_violation ent w :
  tlt w = tlt_object ->
  Key ent = "" \/ keysWritten w !! Key ent = Some true ->
  exists e, valBytes ent w = (w, ([], Some e)) /\ KeyViolation e.
Proof.
  intros Htl Hk. unfold valBytes. rewrite Htl. simpl.
  destruct (String.eqb_spec (Key ent) "") as [He|He].
  - exists keyEmpty. split; [done|]. by left.
  - destruct Hk as [Hk|Hk]; [done|].
    rewrite bool_decide_eq_true_2 by done.
    exists (keyRepeated (Key ent)). split; [done|]. right. by eexists.
Qed.

Lemma valBytes_fields ent w w' x :
  valBytes ent w = (w', x) ->
  rowsWritten w' = rowsWritten w /\ tlt w' = tlt w /\ wr w' = wr w.
Proof.
  unfold valBytes.
  destruct (isArray (tlt w)); [by intros [= <- <-]|].
  destruct (String.eqb _ _); [by intros [= <- <-]|].
  destruct (bool_decide _); [by intros [= <- <-]|].
  destruct (Marshal (EValue ent)) as [val [e|]]; by intros [= <- <-].
Qed.

(** In object mode the key of an encoded entry is recorded, and
    recorded keys stay recorded. *)
Lemma valBytes_keys ent w w' data err :
  tlt w = tlt_object ->
  valBytes ent w = (w', (data, err)) ->
  (forall k, keysWritten w !! k = Some true -> keysWritten w' !! k = Some true)
  /\ (err = None -> keysWritten w' !! Key ent = Some true).
Proof.
  intros Htl. unfold valBytes. rewrite Htl. simpl.
  destruct (String.eqb _ _); [by intros [= <- <- <-]|].
  destruct (bool_decide _) eqn:Hd; [by intros [= <- <- <-]|].
  assert (forall k, keysWritten w !! k = Some true ->
                    <[Key ent:=true]> (keysWritten w) !! k = Some true) as Hmono.
  { intros k Hk. destruct (decide (Key ent = k)) as [->|Hne].
    - by rewrite lookup_insert_eq.
    - by rewrite lookup_insert_ne. }
  destruct (Marshal (EValue ent)) as [val [e|]]; intros [= <- <- <-]; simpl.
  - split; [done|done].
  - split; [done|]. intros _. by rewrite lookup_insert_eq.
Qed.

Lemma WriteEntry_fields ent w w' err :
  WriteEntry ent w = (w', err) ->
  rowsWritten w' = S (rowsWritten w) /\ tlt w' = tlt w.
Proof.
  unfold WriteEntry.
  destruct (rowsWritten w =? 0)%nat eqn:E0.
  - destruct (Write _ (wr w)) as [s [oe|]] eqn:Ew.
    + by intros [= <- <-].
    + destruct (valBytes ent (setWr w s)) as [w1 [data [e|]]] eqn:Ev;
        apply valBytes_fields in Ev as (Hr & Ht & _); simpl in *.
      * intros [= <- <-]. simpl. by rewrite Hr, Ht.
      * destruct (Write _ (wr w1)) as [s2 e2]. intros [= <- <-]. simpl.
        by rewrite Hr, Ht.
  - destruct (valBytes ent w) as [w1 [data [e|]]] eqn:Ev;
      apply valBytes_fields in Ev as (Hr & Ht & _).
    + intros [= <- <-]. simpl. by rewrite Hr, Ht.
    + destruct (Write _ (wr w1)) as [s2 e2]. intros [= <- <-]. simpl.
      by rewrite Hr, Ht.
Qed.

Lemma WriteEntry_keys ent w w' err :
  tlt w = tlt_object ->
  WriteEntry ent w = (w', err) ->
  (forall k, keysWritten w !! k = Some true -> keysWritten w' !! k = Some true)
  /\ (err = None -> keysWritten w' !! Key ent = Some true).
Proof.
  intros Htl. unfold WriteEntry.
  assert (forall s w1 data e,
    valBytes ent (setWr w s) = (w1, (data, e)) ->
    (forall k, keysWritten w !! k = Some true -> keysWritten w1 !! k = Some true)
    /\ (e = None -> keysWritten w1 !! Key ent = Some true)) as Hv.
  { intros s w1 data e Ev. by apply valBytes_keys in Ev. }
  destruct (rowsWritten w =? 0)%nat.
  - destruct (Write _ (wr w)) as [s [oe|]].
    + by intros [= <- <-].
    + destruct (valBytes ent (setWr w s)) as [w1 [data [e|]]] eqn:Ev;
        apply Hv in Ev as [Hm Hk].
      * by intros [= <- <-].
      * destruct (Write _ (wr w1)) as [s2 e2]. intros [= <- <-]. simpl. auto.
  - destruct (valBytes ent w) as [w1 [data [e|]]] eqn:Ev;
      apply valBytes_keys in Ev as [Hm Hk]; try done.
    + by intros [= <- <-].
    + destruct (Write _ (wr w1)) as [s2 e2]. intros [= <- <-]. simpl. auto.
Qed.

(** After a session, the key of every entry whose write succeeded is
    recorded. *)
Lemma writeAll_keys es : forall w w' rs,
  tlt w = tlt_object ->
  writeAll es w = (w', rs) ->
  tlt w' = tlt_object
  /\ rowsWritten w' = (rowsWritten w + length es)%nat
  /\ (forall k, keysWritten w !! k = Some true -> keysWritten w' !! k = Some true)
  /\ (forall i e, es !! i = Some e -> rs !! i = Some None ->
                  keysWritten w' !! Key e = Some true).
Proof.
  induction es as [|e0 es IH]; intros w w' rs Htl; simpl.
  - intros [= <- <-]. split; [done|]. split; [lia|]. split; [done|].
    intros i e Hi. by rewrite lookup_nil in Hi.
  - destruct (WriteEntry e0 w) as [w1 r] eqn:E1.
    destruct (writeAll es w1) as [w2 rs'] eqn:E2.
    intros [= <- <-].
    pose proof (WriteEntry_fields _ _ _ _ E1) as [Hr1 Ht1].
    pose proof (WriteEntry_keys _ _ _ _ Htl E1) as [Hm1 Hk1].
    destruct (IH w1 w2 rs') as (Ht2 & Hr2 & Hm2 & Hk2); [congruence|done|].
    split; [done|]. split; [lia|]. split; [auto|].
    intros [|i] e Hi Hs; simpl in *.
    + injection Hi as ->. injection Hs as ->. auto.
    + eauto.
Qed.

End WriterFacts.

(** C9.  Closing a JSON writer on which [WriteEntry] was never called
    writes exactly "[]" in array mode and exactly "{}" in object mode:
    the destination holds what it held before followed by these two
    bytes, and [Close] reports no error. *)
Theorem close_fresh_writer_emits_empty_container (tl : TopLevelType) (b : bytes) :
  let w := JSONWriter.NewJSONWriter tl (bufferSink b) in
  JSONWriter.Close w
  = (JSONWriter.setWr w
       (bufferSink (b ++ match tl with
                         | tlt_array => bytes_of "[]"
                         | tlt_object => bytes_of "{}"
                         end)),
     None).
Proof. destruct tl; reflexivity. Qed.

(** C10.  The counter of written rows is incremented by a failed
    [WriteEntry] too.  So, in object mode, after a failed [WriteEntry]
    (even the very first one of the session): a [WriteEntry] that
    succeeds has appended a comma followed by the encoding of its entry,
    and a [Close] that succeeds has appended the closing brace alone,
    not the empty-container literal.  On a destination that accepts
    every write (a [bytes.Buffer]) these calls do succeed: an entry
    with a new, non-empty key and a value that can be encoded is written
    as a comma, the key, a colon and the value, and [Close] writes the
    closing brace. *)
Theorem failed_write_counts_as_row (ent : Entry) (w w1 : JSONWriter.t) (e : error) :
  JSONWriter.tlt w = tlt_object ->
  JSONWriter.WriteEntry ent w = (w1, Some e) ->
  JSONWriter.rowsWritten w1 = S (JSONWriter.rowsWritten w)
  /\ (forall ent2 w2,
        JSONWriter.WriteEntry ent2 w1 = (w2, None) ->
        exists data,
          (JSONWriter.valBytes ent2 w1).2 = (data, None)
          /\ out (JSONWriter.wr w2) = out (JSONWriter.wr w1) ++ ","%char :: data)
  /\ (forall w3,
        JSONWriter.Close w1 = (w3, None) ->
        out (JSONWriter.wr w3) = out (JSONWriter.wr w1) ++ ["}"%char])
  /\ (room (JSONWriter.wr w1) = None ->
      (forall ent2 b,
         Key ent2 <> EmptyString ->
         JSONWriter.keysWritten w1 !! Key ent2 <> Some true ->
         json.Marshal (EValue ent2) = Some b ->
         exists w2,
           JSONWriter.WriteEntry ent2 w1 = (w2, None)
           /\ out (JSONWriter.wr w2)
              = out (JSONWriter.wr w1)
                ++ ","%char :: json.marshalString (Key ent2) ++ ":"%char :: b)
      /\ exists w3,
          JSONWriter.Close w1 = (w3, None)
          /\ out (JSONWriter.wr w3) = out (JSONWriter.wr w1) ++ ["}"%char]).
Proof.
  intros Htl Hw.
  destruct (WriteEntry_fields _ _ _ _ Hw) as [Hr Ht].
  split; [done|]. split; [|split].
  - intros ent2 w2. unfold JSONWriter.WriteEntry. rewrite Hr. simpl.
    destruct (JSONWriter.valBytes ent2 w1) as [w1' [data [e2|]]] eqn:Ev; [done|].
    pose proof (valBytes_fields _ _ _ _ Ev) as (Hr' & _ & Hwr').
    rewrite Hr', Hr. simpl.
    destruct (Write _ (JSONWriter.wr w1')) as [s2 e2] eqn:Ews.
    intros [= <- ->]. exists data. split; [done|]. simpl.
    apply Write_appends in Ews as (d & Hout & _ & Hd).
    rewrite Hout, Hd, Hwr' by done. done.
  - intros w3. unfold JSONWriter.Close. rewrite Hr, Ht, Htl. simpl.
    destruct (Write _ (JSONWriter.wr w1)) as [s [e3|]] eqn:Ews; [done|].
    intros [= <-]. simpl.
    apply Write_appends in Ews as (d & Hout & _ & Hd). by rewrite Hout, Hd.
  - intros Hroom. rewrite Htl in Ht. clear Hw.
    destruct w1 as [n1 tl1 [o1 r1] ks1]. cbn in Hr, Ht, Hroom. subst n1 tl1 r1.
    split.
    + intros ent2 b Hne Hnew Hb. apply String.eqb_neq in Hne.
      unfold JSONWriter.WriteEntry, JSONWriter.valBytes, JSONWriter.Marshal, Write.
      cbn. rewrite Hne. cbn in Hnew. rewrite bool_decide_eq_false_2 by done.
      rewrite Hb. cbn. eexists. split; [reflexivity|]. cbn.
      unfold json.marshalString. cbn. by rewrite <- !app_assoc.
    + unfold JSONWriter.Close, Write. cbn. eexists. split; reflexivity.
Qed.

Lemma failed_write_counts_as_row_witness :
  JSONWriter.rowsWritten
    (JSONWriter.WriteEntry (mkEntry 0 "" (VInt 1))
       (JSONWriter.NewJSONWriter tlt_object (bufferSink []))).1 = 1%nat
  /\ (exists w2,
        JSONWriter.WriteEntry (mkEntry 0 "a" (VInt 2))
          (JSONWriter.WriteEntry (mkEntry 0 "" (VInt 1))
             (JSONWriter.NewJSONWriter tlt_object (bufferSink []))).1 = (w2, None)
        /\ out (JSONWriter.wr w2)
           = ["{"%char] ++ ","%char :: json.marshalString "a" ++ ":"%char :: bytes_of "2")
  /\ (exists w3,
        JSONWriter.Close
          (JSONWriter.WriteEntry (mkEntry 0 "" (VInt 1))
             (JSONWriter.NewJSONWriter tlt_object (bufferSink []))).1 = (w3, None)
        /\ out (JSONWriter.wr w3) = ["{"%char] ++ ["}"%char]).
Proof.
  destruct (failed_write_counts_as_row (mkEntry 0 "" (VInt 1))
              (JSONWriter.NewJSONWriter tlt_object (bufferSink []))
              (JSONWriter.WriteEntry (mkEntry 0 "" (VInt 1))
                 (JSONWriter.NewJSONWriter tlt_object (bufferSink []))).1
              JSONWriter.keyEmpty eq_refl eq_refl) as (Hrows & _ & _ & Hgood).
  destruct (Hgood eq_refl) as [Hwrite Hclose].
  split; [exact Hrows|]. split.
  - exact (Hwrite (mkEntry 0 "a" (VInt 2)) (bytes_of "2")
             ltac:(discriminate) ltac:(discriminate) eq_refl).
  - exact Hclose.
Defined.

(** C4, as stated, fails on the first call of a session: the opening
    brace is written before the key is looked at, and when the
    destination refuses it the call returns the error of that write,
    not the key violation. *)
Lemma key_violation_counterexample :
  (JSONWriter.WriteEntry (mkEntry 0 "" (VInt 1))
     (JSONWriter.NewJSONWriter tlt_object (mkSink [] (Some 0%nat)))).2
  = Some (Errorf "error writing initial `{`: short write")
  /\ ~ JSONWriter.KeyViolation (Errorf "error writing initial `{`: short write").
Proof.
  split; [vm_compute; reflexivity|].
  intros [H|[k H]]; [discriminate H|]. unfold JSONWriter.keyRepeated in H.
  cbn in H. discriminate H.
Qed.

(** C4, amended.  In object mode, a [WriteEntry] whose entry has an
    empty key, or the key of an entry written successfully earlier in
    the session, returns an error, and none of the bytes of its key or
    value reach the destination.  After the first call of the session
    the error is the key violation and the destination is left as it
    was.  The first call of a session writes the opening brace before
    it looks at the key: when the destination accepts the brace, the
    brace is all that is appended and the error is the key violation;
    when the destination refuses it, nothing is appended and the error
    is the one of the opening write. *)
Theorem key_violation_rejected (s : Sink) (es : list Entry) (ent : Entry)
    (w : JSONWriter.t) (rs : list (option error)) :
  JSONWriter.writeAll es (JSONWriter.NewJSONWriter tlt_object s) = (w, rs) ->
  Key ent = ""
  \/ (exists i e, es !! i = Some e /\ rs !! i = Some None /\ Key e = Key ent) ->
  exists w' err,
    JSONWriter.WriteEntry ent w = (w', Some err)
    /\ match es with
       | _ :: _ => JSONWriter.KeyViolation err /\ JSONWriter.wr w' = JSONWriter.wr w
       | [] =>
           match (Write ["{"%char] s).2 with
           | None =>
               JSONWriter.KeyViolation err
               /\ out (JSONWriter.wr w') = out s ++ ["{"%char]
           | Some oe =>
               err = Errorf ("error writing initial `{`: " ++ Error oe)
               /\ out (JSONWriter.wr w') = out s
           end
       end.
Proof.
  intros Ew Hk.
  pose proof Ew as Ew'.
  apply writeAll_keys in Ew as (Htl & Hrows & _ & Hkeys); [|done].
  simpl in Hrows.
  assert (Key ent = "" \/ JSONWriter.keysWritten w !! Key ent = Some true) as Hk'.
  { destruct Hk as [?|(i & e & Hi & Hr & <-)]; [by left|right; eauto]. }
  unfold JSONWriter.WriteEntry. rewrite Hrows, Htl. simpl.
  destruct es as [|e0 es]; simpl.
  - cbn in Ew'. injection Ew' as <- <-. cbn [JSONWriter.wr JSONWriter.NewJSONWriter].
    destruct (Write ["{"%char] s) as [s1 oe] eqn:Eo.
    pose proof (Write_appends _ _ _ _ Eo) as (d & Hout & Hpre & Hd).
    cbn [snd]. destruct oe as [oe|].
    + eexists _, _. split; [done|]. split; [done|]. cbn.
      revert Eo. unfold Write.
      destruct (room s) as [k|]; [|done].
      destruct (_ <=? _)%nat eqn:El; [done|]. intros [= <- _].
      apply Nat.leb_gt in El. cbn in El. assert (k = 0)%nat as -> by lia.
      cbn. by rewrite app_nil_r.
    + destruct (valBytes_violation ent
                  (JSONWriter.setWr (JSONWriter.NewJSONWriter tlt_object s) s1))
        as (e & -> & Hv); [done|done|].
      eexists _, _. split; [done|]. split; [done|]. cbn. by rewrite Hout, Hd.
  - destruct (valBytes_violation ent w) as (e & -> & Hv); [done|done|].
    eexists _, _. split; [done|]. split; [done|]. done.
Qed.

Lemma key_violation_rejected_witness :
  exists w' err,
    JSONWriter.WriteEntry (mkEntry 0 "a" (VInt 2))
      (JSONWriter.writeAll [mkEntry 0 "a" (VInt 1)]
         (JSONWriter.NewJSONWriter tlt_object (bufferSink []))).1
    = (w', Some err)
    /\ JSONWriter.KeyViolation err
    /\ JSONWriter.wr w'
       = JSONWriter.wr (JSONWriter.writeAll [mkEntry 0 "a" (VInt 1)]
                          (JSONWriter.NewJSONWriter tlt_object (bufferSink []))).1.
Proof.
  apply (key_violation_rejected (bufferSink []) [mkEntry 0 "a" (VInt 1)]
           (mkEntry 0 "a" (VInt 2)) _ [None]); [reflexivity|].
  right. exists 0%nat, (mkEntry 0 "a" (VInt 1)). split; [reflexivity|].
  split; reflexivity.
Defined.

(* ------------------------------------------------------------------ *)
(** ** CSVReader *)

Section CSVFacts.
Import CSVReader.

Variable ParseNumber : string -> option strconv.float64.
Variable ParseInteger : string -> option Z.
Variable ParseBoolean : string -> option bool.
Variable UnmarshalObject : string -> option (gmap string Value).
Variable UnmarshalArray : string -> option (list Value).

Local Abbreviation decodeField :=
  (decodeField ParseNumber ParseInteger ParseBoolean UnmarshalObject UnmarshalArray).
Local Abbreviation decode :=
  (decode ParseNumber ParseInteger ParseBoolean UnmarshalObject UnmarshalArray).
Local Abbreviation ReadEntry :=
  (ReadEntry ParseNumber ParseInteger ParseBoolean UnmarshalObject UnmarshalArray).
Local Abbreviation coercionFails :=
  (coercionFails ParseNumber ParseInteger ParseBoolean UnmarshalObject UnmarshalArray).

Lemma decodeField_fails ty str :
  coercionFails ty str -> decodeField ty str = VString str.
Proof.
  unfold CSVReader.coercionFails, CSVReader.decodeField.
  intros [[-> ->]|[[-> ->]|[[-> ->]|[[-> ->]|[-> ->]]]]]; reflexivity.
Qed.

Lemma decodeField_string str : decodeField "string" str = VString str.
Proof. reflexivity. Qed.

Lemma decode_no_error rd data : (decode rd data).2 = None.
Proof. reflexivity. Qed.

Lemma decode_length rd data : length (decode rd data).1 = length data.
Proof. unfold CSVReader.decode. simpl. by rewrite length_imap. Qed.

Lemma decode_keeps_text rd data i str ty :
  data !! i = Some str ->
  types rd !! i = Some ty ->
  coercionFails ty str ->
  (decode rd data).1 !! i = Some (VString str).
Proof.
  intros Hd Ht Hf. unfold CSVReader.decode. simpl.
  rewrite list_lookup_imap, Hd. simpl. f_equal.
  destruct (length (types rd) <? length data)%nat eqn:E.
  - assert (i < length data)%nat as Hi by (by eapply lookup_lt_Some).
    rewrite (list_lookup_total_correct _ _ "string").
    + apply decodeField_string.
    + by apply lookup_replicate_2.
  - rewrite (list_lookup_total_correct _ _ ty Ht). by apply decodeField_fails.
Qed.

Lemma ReadEntry_index rd : Index (ReadEntry rd).1.1 = 0%Z /\ Key (ReadEntry rd).1.1 = "".
Proof.
  unfold CSVReader.ReadEntry.
  destruct (negb (readHeader rd)).
  - destruct (HasHeaderRow (st rd)).
    + destruct (Read rd) as [[h [e|]] rd1]; [done|].
      destruct (Read _) as [[data [e|]] rd2]; done.
    + destruct (Read _) as [[data [e|]] rd2]; done.
  - destruct (Read rd) as [[data [e|]] rd2]; done.
Qed.

End CSVFacts.

(** C8.  Whatever the parsers of package [vals] and [json.Unmarshal]
    answer: when [ReadEntry] is handed a record (after the header row, if
    one is configured and not read yet), it returns an entry and no
    error, the entry holds one value per field, and every field whose
    declared column type is number, integer, boolean, object or array
    and whose text fails to coerce to that type is the text itself. *)
Theorem csv_failed_coercion_keeps_text
    (ParseNumber : string -> option strconv.float64)
    (ParseInteger : string -> option Z)
    (ParseBoolean : string -> option bool)
    (UnmarshalObject : string -> option (gmap string Value))
    (UnmarshalArray : string -> option (list Value))
    (rd : CSVReader.t) (data : list string) (q : list csv.result) :
  (CSVReader.readHeader rd || negb (CSVReader.HasHeaderRow (CSVReader.st rd)) = true
   /\ CSVReader.r rd = csv.Record_ data :: q)
  \/ (CSVReader.readHeader rd = false
      /\ CSVReader.HasHeaderRow (CSVReader.st rd) = true
      /\ exists h, CSVReader.r rd = csv.Record_ h :: csv.Record_ data :: q) ->
  exists vs,
    CSVReader.ReadEntry ParseNumber ParseInteger ParseBoolean UnmarshalObject
      UnmarshalArray rd
    = ((mkEntry 0 "" (VArray vs), None),
       CSVReader.mk (CSVReader.st rd) true q (CSVReader.types rd))
    /\ length vs = length data
    /\ forall i str ty,
         data !! i = Some str ->
         CSVReader.types rd !! i = Some ty ->
         CSVReader.coercionFails ParseNumber ParseInteger ParseBoolean
           UnmarshalObject UnmarshalArray ty str ->
         vs !! i = Some (VString str).
Proof.
  intros H.
  exists (CSVReader.decode ParseNumber ParseInteger ParseBoolean UnmarshalObject
            UnmarshalArray rd data).1.
  split; [|split].
  - unfold CSVReader.ReadEntry, CSVReader.Read.
    destruct H as [[Hh Hr]|(Hh & Hs & h & Hr)].
    + destruct (CSVReader.readHeader rd) eqn:E1; simpl in *.
      * rewrite Hr. simpl. by rewrite E1.
      * apply negb_true_iff in Hh. rewrite Hh. simpl. rewrite Hr. done.
    + rewrite Hh, Hs. simpl. rewrite Hr. simpl. done.
  - apply decode_length.
  - intros i str ty. apply decode_keeps_text.
Qed.

Lemma csv_failed_coercion_keeps_text_witness :
  let rd := CSVReader.mk (mkStructure "csv" None None) true
              [csv.Record_ ["notanumber"; "true"; "x"]]
              ["number"; "boolean"; "string"] in
  exists vs,
    CSVReader.ReadEntry vals.ParseNumber vals.ParseInteger vals.ParseBoolean
      (fun _ => None) (fun _ => None) rd
    = ((mkEntry 0 "" (VArray vs), None),
       CSVReader.mk (CSVReader.st rd) true [] (CSVReader.types rd))
    /\ length vs = 3%nat
    /\ forall i str ty,
         ["notanumber"; "true"; "x"] !! i = Some str ->
         CSVReader.types rd !! i = Some ty ->
         CSVReader.coercionFails vals.ParseNumber vals.ParseInteger
           vals.ParseBoolean (fun _ => None) (fun _ => None) ty str ->
         vs !! i = Some (VString str).
Proof.
  apply (csv_failed_coercion_keeps_text vals.ParseNumber vals.ParseInteger
           vals.ParseBoolean (fun _ => None) (fun _ => None)
           (CSVReader.mk (mkStructure "csv" None None) true
              [csv.Record_ ["notanumber"; "true"; "x"]]
              ["number"; "boolean"; "string"])
           ["notanumber"; "true"; "x"] []).
  left. split; reflexivity.
Defined.

(** The example of the specification: a number column holding the text
    "notanumber" keeps that text; the boolean column is coerced. *)
Example csv_notanumber :
  (CSVReader.ReadEntry vals.ParseNumber vals.ParseInteger vals.ParseBoolean
     (fun _ => None) (fun _ => None)
     (CSVReader.mk (mkStructure "csv" None None) true
        [csv.Record_ ["notanumber"; "true"; "x"]]
        ["number"; "boolean"; "string"])).1
  = (mkEntry 0 "" (VArray [VString "notanumber"; VBool true; VString "x"]), None).
Proof. vm_compute. reflexivity. Qed.

(** The scenario of the specification, as the code runs it: both
    entries carry index 0. *)
Example scenario_entries :
  scenario.run 3
  = [(mkEntry 0 "" (VArray [VInt 1; VString "foo"]), None);
     (mkEntry 0 "" (VArray [VInt 2; VString "bar"]), None);
     (Entry0, Some io_EOF)].
Proof. vm_compute. reflexivity. Qed.

(** C3, as stated, fails: in the scenario of the specification the
    second successful [ReadEntry] (k = 1) returns an entry whose index
    is not 1. *)
Lemma csv_index_counterexample :
  exists e, scenario.run 2 !! 1%nat = Some (e, None) /\ Index e <> 1%Z.
Proof.
  exists (mkEntry 0 "" (VArray [VInt 2; VString "bar"])).
  split; [vm_compute; reflexivity|]. simpl. lia.
Qed.

(** C3, amended.  Every entry returned by the CSV reader has index 0 and
    an empty key, whatever the call number: [ReadEntry] never sets these
    fields.  (The order of the records is the order of the calls.) *)
Theorem csv_entry_index_is_zero
    (ParseNumber : string -> option strconv.float64)
    (ParseInteger : string -> option Z)
    (ParseBoolean : string -> option bool)
    (UnmarshalObject : string -> option (gmap string Value))
    (UnmarshalArray : string -> option (list Value))
    (n : nat) (rd : CSVReader.t) (k : nat) (e : Entry) (err : option error) :
  CSVReader.run ParseNumber ParseInteger ParseBoolean UnmarshalObject UnmarshalArray n rd
    !! k = Some (e, err) ->
  Index e = 0%Z /\ Key e = "".
Proof.
  revert rd k. induction n as [|n IH]; intros rd k; simpl.
  - by rewrite lookup_nil.
  - pose proof (ReadEntry_index ParseNumber ParseInteger ParseBoolean
                  UnmarshalObject UnmarshalArray rd) as Hi.
    destruct (CSVReader.ReadEntry _ _ _ _ _ rd) as [[e0 err0] rd']. simpl in Hi.
    destruct k as [|k]; simpl.
    + by intros [= <- <-].
    + apply IH.
Qed.

Lemma csv_entry_index_is_zero_witness :
  Index (mkEntry 0 "" (VArray [VInt 2; VString "bar"])) = 0%Z
  /\ Key (mkEntry 0 "" (VArray [VInt 2; VString "bar"])) = "".
Proof.
  apply (csv_entry_index_is_zero vals.ParseNumber vals.ParseInteger vals.ParseBoolean
           (fun _ => None) (fun _ => None) 2 scenario.reader 1
           (mkEntry 0 "" (VArray [VInt 2; VString "bar"])) None).
  vm_compute. reflexivity.
Defined.

(* ------------------------------------------------------------------ *)
(** ** bufio *)

Section BufioFacts.
Import bufio.

Lemma srcRead_spec avail s chunk s' :
  srcRead avail s = (chunk, s') ->
  chunk ++ pending s' = pending s
  /\ (0 < avail -> pending s <> [] -> chunk <> [])%nat
  /\ (length chunk <= avail)%nat.
Proof.
  unfold srcRead. intros [= <- <-]. simpl.
  split; [apply take_drop|]. split.
  - intros Ha Hp. destruct (pending s) as [|c l]; [done|].
    destruct (sched s) as [|n ?]; [destruct avail; [lia|done]|].
    destruct avail; [lia|]. done.
  - rewrite length_take. destruct (sched s); lia.
Qed.

Lemma fill_spec b :
  (length (buf b) < size b)%nat ->
  size (fill b) = size b
  /\ unread (fill b) = unread b
  /\ (exists ext, buf (fill b) = buf b ++ ext
        /\ (pending (rd b) <> [] -> ext <> []))
  /\ (length (buf (fill b)) <= size b)%nat.
Proof.
  intros Hlt. unfold fill, unread.
  destruct (srcRead _ _) as [chunk rd'] eqn:E.
  apply srcRead_spec in E as (Hp & Hne & Hle). simpl.
  split; [done|]. split; [by rewrite <- Hp, <- app_assoc|].
  split.
  - exists chunk. split; [done|]. apply Hne. lia.
  - rewrite length_app. lia.
Qed.

Lemma fillUntil_spec fuel n b :
  size (fillUntil fuel n b) = size b
  /\ unread (fillUntil fuel n b) = unread b
  /\ (exists ext, buf (fillUntil fuel n b) = buf b ++ ext)
  /\ ((length (pending (rd b)) < fuel)%nat ->
      (n <= length (buf (fillUntil fuel n b)))%nat
      \/ (size b <= length (buf (fillUntil fuel n b)))%nat
      \/ pending (rd (fillUntil fuel n b)) = []).
Proof.
  revert b. induction fuel as [|fuel IH]; intros b; simpl.
  - split; [done|]. split; [done|]. split; [by exists []; rewrite app_nil_r|]. lia.
  - unfold Buffered, exhausted.
    destruct (length (buf b) <? n)%nat eqn:E1; simpl.
    2:{ apply Nat.ltb_ge in E1. split; [done|]. split; [done|].
        split; [by exists []; rewrite app_nil_r|]. auto. }
    destruct (length (buf b) <? size b)%nat eqn:E2; simpl.
    2:{ apply Nat.ltb_ge in E2. split; [done|]. split; [done|].
        split; [by exists []; rewrite app_nil_r|]. auto. }
    destruct (pending (rd b)) as [|c l] eqn:E3; simpl.
    { split; [done|]. split; [done|]. split; [by exists []; rewrite app_nil_r|]. auto. }
    apply Nat.ltb_lt in E2.
    destruct (fill_spec b E2) as (Hs & Hu & (ext & Hb & Hne) & _).
    destruct (IH (fill b)) as (Hs' & Hu' & (ext' & Hb') & Hdone).
    split; [congruence|]. split; [congruence|].
    split; [exists (ext ++ ext'); by rewrite Hb', Hb, app_assoc|].
    intros Hfuel. rewrite <- Hs. apply Hdone.
    assert (ext <> []) as Hext by (apply Hne; by rewrite E3).
    assert (length (unread (fill b)) = length (unread b)) as Hlen by (by rewrite Hu).
    unfold unread in Hlen. rewrite !length_app, Hb, length_app, E3 in Hlen.
    simpl in *. destruct ext; [done|]. simpl in *. lia.
Qed.

(** [Peek] keeps the unread bytes and returns a prefix of them. *)
Lemma Peek_spec n b pk err b' :
  Peek n b = ((pk, err), b') ->
  size b' = size b
  /\ unread b' = unread b
  /\ (exists ext, buf b' = buf b ++ ext)
  /\ ((n <= length (buf b'))%nat \/ (size b <= length (buf b'))%nat \/ pending (rd b') = []).
Proof.
  unfold Peek.
  destruct (fillUntil_spec (S (length (pending (rd b)))) n b) as (Hs & Hu & He & Hd).
  set (b1 := fillUntil _ n b) in *.
  assert (b' = b1 -> size b' = size b /\ unread b' = unread b
                     /\ (exists ext, buf b' = buf b ++ ext)
                     /\ ((n <= length (buf b'))%nat \/ (size b <= length (buf b'))%nat
                         \/ pending (rd b') = [])) as Hgoal.
  { intros ->. split; [done|]. split; [done|]. split; [done|]. apply Hd. lia. }
  destruct (size b1 <? n)%nat; [intros [= _ _ <-]; by apply Hgoal|].
  destruct (Buffered b1 <? n)%nat; intros [= _ _ <-]; by apply Hgoal.
Qed.

(** Skipping no more than what is buffered drops it from the buffer. *)
Lemma Discard_buffered (n : nat) b :
  (n <= length (buf b))%nat -> Discard (Z.of_nat n) b = advance n b.
Proof.
  intros Hn. unfold Discard.
  destruct (Z.of_nat n <? 0)%Z eqn:E1; [apply Z.ltb_lt in E1; lia|].
  destruct (Z.of_nat n =? 0)%Z eqn:E2.
  - apply Z.eqb_eq in E2. assert (n = 0)%nat as -> by lia.
    unfold advance. simpl. by destruct b.
  - apply Z.eqb_neq in E2. rewrite Nat2Z.id.
    destruct n as [|n]; [lia|]. simpl. unfold Buffered.
    destruct (buf b) as [|c l] eqn:Eb; [simpl in Hn; lia|]. simpl.
    rewrite Eb. simpl in *.
    replace (Nat.min (length l) n) with n by lia.
    rewrite Nat.sub_diag. done.
Qed.

Lemma ReadByte_spec b :
  (0 < size b)%nat ->
  match unread b with
  | c :: l => exists b', ReadByte b = ((c, None), b') /\ unread b' = l /\ size b' = size b
  | [] => exists c b', ReadByte b = ((c, Some io_EOF), b') /\ unread b' = [] /\ size b' = size b
  end.
Proof.
  intros Hs. unfold ReadByte, Buffered.
  destruct (buf b) as [|c l] eqn:Eb.
  - assert (length (buf b) < size b)%nat as Hlt by (rewrite Eb; simpl; lia).
    destruct (fill_spec b Hlt) as (Hs' & Hu & (ext & Hb & Hne) & _).
    cbn [length Nat.eqb]. generalize dependent (fill b). intros fb Hs' Hu Hb.
    unfold unread in *. rewrite Eb in *. cbn [app] in *.
    destruct (pending (rd b)) as [|c l] eqn:Ep.
    + destruct (buf fb) as [|c' l'] eqn:Ef.
      * eexists _, _. split; [done|]. by rewrite Ef.
      * done.
    + destruct (buf fb) as [|c' l'] eqn:Ef.
      * subst ext. exfalso. by apply Hne.
      * cbn [app] in Hu. injection Hu as -> Hu.
        eexists. split; [done|]. split; [|done]. cbn. by rewrite Ef.
  - cbn [length Nat.eqb]. unfold unread. rewrite Eb. cbn [app].
    eexists. split; [done|]. split; [|done]. cbn. by rewrite Eb.
Qed.

End BufioFacts.

(* ------------------------------------------------------------------ *)
(** ** replacecr *)

Section ReplacecrFacts.
Import bufio replacecr.

Lemma Peek1_lonely b pk err b' :
  (0 < size b)%nat ->
  Peek 1 b = ((pk, err), b') ->
  unread b' = unread b /\ size b' = size b
  /\ lonely pk err = match unread b with
                     | c :: _ => negb (c =? LF)%char
                     | [] => true
                     end.
Proof.
  intros Hs. unfold Peek.
  destruct (fillUntil_spec (S (length (pending (rd b)))) 1 b) as (Hs' & Hu & _ & Hd).
  generalize dependent (fillUntil (S (length (pending (rd b)))) 1 b).
  intros b1 Hs' Hu Hd. specialize (Hd ltac:(lia)).
  destruct (size b1 <? 1)%nat eqn:E1; [apply Nat.ltb_lt in E1; lia|].
  unfold Buffered. rewrite <- Hu. unfold unread in *.
  destruct (buf b1) as [|c l] eqn:Eb; cbn [length Nat.ltb Nat.leb].
  - intros [= <- <- <-]. split; [by rewrite Eb|]. split; [done|].
    destruct Hd as [Hd|[Hd|Hd]]; [simpl in Hd; lia|simpl in Hd; lia|].
    rewrite Hd. done.
  - intros [= <- <- <-]. split; [by rewrite Eb|]. split; [done|]. done.
Qed.

(** With room for two bytes per source byte, the loop delivers the
    normalized bytes and stops at the end of the source. *)
Lemma readLoop_normalizes l : forall fuel plen p b,
  unread b = l ->
  (0 < size b)%nat ->
  (length p + 2 * length l < plen)%nat ->
  (length l < fuel)%nat ->
  exists b', readLoop fuel plen p b = Ret ((p ++ normalize l, Some io_EOF), b')
             /\ unread b' = [].
Proof.
  induction l as [|c l IH]; intros fuel plen p b Hu Hs Hp Hf;
    (destruct fuel as [|fuel]; [simpl in Hf; lia|]); cbn [readLoop].
  - replace (length p =? plen)%nat with false by (symmetry; apply Nat.eqb_neq; simpl in Hp; lia).
    pose proof (ReadByte_spec b Hs) as Hr. rewrite Hu in Hr.
    destruct Hr as (c & b' & -> & Hu' & _).
    exists b'. by rewrite app_nil_r.
  - simpl in Hp, Hf.
    replace (length p =? plen)%nat with false by (symmetry; apply Nat.eqb_neq; lia).
    pose proof (ReadByte_spec b Hs) as Hr. rewrite Hu in Hr.
    destruct Hr as (b1 & -> & Hu1 & Hs1).
    replace (length p <? plen)%nat with true by (symmetry; apply Nat.ltb_lt; lia).
    rewrite andb_true_r.
    assert (forall q, length q = 1%nat \/ length q = 2%nat ->
              forall bb, unread bb = l -> size bb = size b ->
              exists b', readLoop fuel plen (p ++ q) bb
                         = Ret (((p ++ q) ++ normalize l, Some io_EOF), b')
                         /\ unread b' = []) as Hnext.
    { intros q Hq bb Hbb Hsz. apply IH; [done|lia| |lia].
      rewrite length_app. lia. }
    destruct (c =? CR)%char eqn:Ec.
    + apply Ascii.eqb_eq in Ec. subst c.
      destruct (Peek 1 b1) as [[pk perr] b2] eqn:Ep.
      apply Peek1_lonely in Ep as (Hu2 & Hs2 & ->); [|lia].
      rewrite Hu1. cbn [normalize]. rewrite Ascii.eqb_refl.
      destruct l as [|c' l'].
      * replace (S (length p) <? plen)%nat with true by (symmetry; apply Nat.ltb_lt; lia).
        destruct (Hnext [CR; LF] (or_intror eq_refl) b2) as (b' & -> & Hb');
          [congruence|congruence|].
        exists b'. split; [|done]. by rewrite <- app_assoc.
      * destruct (c' =? LF)%char eqn:El; cbn [negb].
        -- destruct (Hnext [CR] (or_introl eq_refl) b2) as (b' & -> & Hb');
             [congruence|congruence|].
           exists b'. split; [|done]. by rewrite <- app_assoc.
        -- replace (S (length p) <? plen)%nat with true by (symmetry; apply Nat.ltb_lt; lia).
           destruct (Hnext [CR; LF] (or_intror eq_refl) b2) as (b' & -> & Hb');
             [congruence|congruence|].
           exists b'. split; [|done]. by rewrite <- app_assoc.
    + destruct (Hnext [c] (or_introl eq_refl) b1) as (b' & -> & Hb'); [done|done|].
      exists b'. split; [|done]. rewrite <- app_assoc. cbn [app normalize]. by rewrite Ec.
Qed.

(** X23. When the destination has room for twice the source and one more
    byte, a single [Read] delivers the source with a line feed added
    after every carriage return that is not followed by one, however the
    source chunks its bytes. *)
Lemma Read_normalizes_with_room (input : bytes) (sch : list nat) (plen : nat) :
  (2 * length input < plen)%nat ->
  exists b', Read plen (Reader (mkSource input sch))
             = Ret ((normalize input, Some io_EOF), b')
             /\ unread b' = [].
Proof.
  intros Hp. unfold Read.
  replace (plen =? 0)%nat with false by (symmetry; apply Nat.eqb_neq; lia).
  apply (readLoop_normalizes input (S plen) plen []); simpl; try done; try lia.
Qed.

End ReplacecrFacts.

(** C7.  The claim demands the normalized output for every size of the
    destination; the code panics when a lonely carriage return lands in
    the last free cell of the destination, because the guard
    [n < len(p)] is always true where the comment asks for room for one
    more byte.  Source "a", CR, "b" read into a destination of two
    bytes: the normalized text is "a", CR, LF, "b", and [Read] panics
    when it stores the line feed at index 2. *)
Theorem crlf_read_panics_on_full_destination :
  replacecr.Read 2 (replacecr.Reader (bufio.mkSource ["a"%char; CR; "b"%char] []))
  = Panic "index out of range"
  /\ replacecr.normalize ["a"%char; CR; "b"%char] = ["a"%char; CR; LF; "b"%char].
Proof. split; vm_compute; reflexivity. Qed.

(* ------------------------------------------------------------------ *)
(** ** JSONReader: the buffer protocol *)

Section BufferProtocol.
Import bufio JSONReader chunking.

#[local] Arguments bufio.Peek : simpl never.
#[local] Arguments bufio.Discard : simpl never.
#[local] Arguments Z.of_nat : simpl never.
#[local] Arguments Z.sub : simpl never.
#[local] Arguments Z.add : simpl never.

Lemma Peek_buffered b :
  exists err, bufio.Peek (Buffered b) b = ((buf b, err), b).
Proof.
  unfold bufio.Peek, Buffered. cbn [fillUntil]. unfold Buffered.
  rewrite Nat.ltb_irrefl. cbn [andb].
  destruct (size b <? length (buf b))%nat; [by eexists|].
  rewrite Nat.ltb_irrefl, firstn_all. by eexists.
Qed.

Lemma extendBuffer_spec buff r rem buff' more r' :
  window buff r rem ->
  extendBuffer buff r = ((buff', more), r') ->
  session r' = session r
  /\ prevSize r' = len buff
  /\ window buff' r' rem
  /\ (more = false -> buff' = buff /\ rem = buff)
  /\ (more = true ->
      exists ext, ext <> [] /\ buff' = buff ++ ext
                  /\ ((16 <= length ext)%nat \/ rem = buff')).
Proof.
  intros (Hrem & Hps & Hbuf & Hsz). unfold extendBuffer, JSONReader.Discard, JSONReader.Peek.
  destruct r as [er ini tl b ps]. cbn [reader prevSize setPrevSize setReader
    entriesRead initialized tlt] in *.
  assert (Z.to_nat ps <= length buff)%nat as Hps' by (unfold len in Hps; lia).
  rewrite Discard_buffered by (unfold Buffered; lia).
  assert (advance (Buffered b) b = bufio.mk [] (size b) (rd b)) as ->.
  { unfold advance, Buffered. by rewrite drop_all. }
  destruct (bufio.Peek blockSize _) as [[pk1 e1] b1] eqn:Ep1.
  apply Peek_spec in Ep1 as (Hs1 & Hu1 & (ext & Hb1) & Hd1).
  unfold unread in Hu1. cbn [buf rd size app] in *. subst ext.
  assert (ps + Z.of_nat (Buffered b) = len buff)%Z as Hnew.
  { unfold Buffered, len in *. rewrite Hbuf, length_drop. lia. }
  cbn [reader setReader entriesRead initialized tlt prevSize].
  destruct (0 <? Buffered b1)%nat eqn:E0.
  - apply Nat.ltb_lt in E0.
    destruct (Peek_buffered b1) as [e2 ->]. intros [= <- <- <-].
    cbn [reader prevSize entriesRead initialized tlt]. unfold session. cbn.
    split; [by rewrite Hs1|]. split; [done|]. split.
    + unfold window. cbn. split; [by rewrite <- app_assoc, Hu1|].
      split; [unfold len in *; rewrite length_app; lia|].
      split; [|lia]. rewrite Hnew. unfold len. rewrite Nat2Z.id. by rewrite drop_app_length.
    + split; [done|]. intros _. exists (buf b1).
      split; [unfold Buffered in E0; destruct (buf b1); [simpl in E0; lia|done]|].
      split; [done|].
      destruct Hd1 as [Hd1|[Hd1|Hd1]].
      * left. unfold blockSize in Hd1. lia.
      * left. lia.
      * right. by rewrite Hrem, <- Hu1, Hd1, app_nil_r.
  - apply Nat.ltb_ge in E0. unfold Buffered in E0.
    assert (buf b1 = []) as Hnil by (destruct (buf b1); [done|simpl in E0; lia]).
    assert (pending (rd b) = []) as Hpend.
    { destruct Hd1 as [Hd1|[Hd1|Hd1]].
      - unfold blockSize in Hd1. rewrite Hnil in Hd1. simpl in Hd1. lia.
      - rewrite Hnil in Hd1. simpl in Hd1. lia.
      - by rewrite <- Hu1, Hnil, Hd1. }
    intros [= <- <- <-]. unfold session. cbn.
    split; [by rewrite Hs1|]. split; [done|]. split.
    + unfold window. cbn. rewrite Hnil, Hpend in Hu1. cbn in Hu1.
      split; [by rewrite Hu1, Hrem, Hpend|]. split; [unfold len in *; lia|].
      split; [|lia]. rewrite Hnew, Hnil. unfold len. by rewrite Nat2Z.id, drop_all.
    + split; [|done]. intros _. split; [done|]. by rewrite Hrem, Hpend, app_nil_r.
Qed.

(** The common first step of the three scanning loops: extend the
    slice when the index has reached its end. *)
Lemma ensure_spec buff i r rem :
  window buff r rem ->
  (Z.to_nat (prevSize r) <= i)%nat ->
  exists buff1 more r1,
    (if (length buff <=? i)%nat then extendBuffer buff r else ((buff, true), r))
    = ((buff1, more), r1)
    /\ session r1 = session r
    /\ window buff1 r1 rem
    /\ (Z.to_nat (prevSize r1) <= i)%nat
    /\ (length buff <= length buff1)%nat
    /\ (more = false -> (length rem <= i)%nat /\ buff1 = buff)
    /\ (more = true ->
        (length buff < length buff1 \/ i < length buff)%nat
        /\ ((length buff + 16 <= length buff1)%nat \/ buff1 = rem \/ (i < length buff)%nat)).
Proof.
  intros Hw Hi. destruct (length buff <=? i)%nat eqn:E.
  - apply Nat.leb_le in E.
    destruct (extendBuffer buff r) as [[buff1 more] r1] eqn:Ex.
    destruct (extendBuffer_spec _ _ _ _ _ _ Hw Ex) as (Hs & Hp & Hw1 & Hf & Ht).
    exists buff1, more, r1. split; [done|]. split; [done|]. split; [done|].
    split; [rewrite Hp; unfold len; lia|].
    destruct more.
    + destruct (Ht eq_refl) as (ext & Hne & -> & Hor).
      rewrite length_app. destruct ext as [|c ext]; [done|]. cbn [length].
      split; [lia|]. split; [done|]. intros _. split; [lia|].
      destruct Hor as [Hor|Hor]; [left; cbn [length] in Hor; lia|right; by left].
    + destruct (Hf eq_refl) as [-> ->]. split; [lia|]. split; [done|done].
  - apply Nat.leb_gt in E. exists buff, true, r.
    split; [done|]. split; [done|]. split; [done|]. split; [done|]. split; [lia|].
    split; [done|]. intros _. split; [lia|]. right. by right.
Qed.

Lemma window_lookup buff r rem i :
  window buff r rem -> (i < length buff)%nat -> buff !! i = rem !! i.
Proof. intros (-> & _) Hi. by rewrite lookup_app_l. Qed.

Lemma window_length buff r rem :
  window buff r rem -> (length buff <= length rem)%nat.
Proof. intros (-> & _). rewrite length_app. lia. Qed.

Lemma window_take buff r rem i :
  window buff r rem -> (i <= length buff)%nat -> take i buff = take i rem.
Proof. intros (-> & _) Hi. by rewrite take_app_le. Qed.

Lemma skipWs_ws c l : isWhitespace c = true -> JSONText.skipWs (c :: l) = JSONText.skipWs l.
Proof. intros H. cbn. by rewrite H. Qed.

Lemma skipWs_stop c l : isWhitespace c = false -> JSONText.skipWs (c :: l) = c :: l.
Proof. intros H. cbn. by rewrite H. Qed.

Lemma skipLoop_spec fuel : forall buff skip r rem,
  window buff r rem ->
  (Z.to_nat (prevSize r) <= skip <= length buff)%nat ->
  (length rem - skip < fuel)%nat ->
  exists buff' skip' r',
    skipLoop fuel buff skip r = Ret ((buff', skip'), r')
    /\ session r' = session r
    /\ window buff' r' rem
    /\ (Z.to_nat (prevSize r') <= skip' <= length buff')%nat
    /\ drop skip' rem = JSONText.skipWs (drop skip rem)
    /\ (drop skip' buff' = [] -> drop skip' rem = []).
Proof.
  induction fuel as [|fuel IH]; intros buff skip r rem Hw Hskip Hfuel; [lia|].
  cbn [skipLoop].
  destruct (ensure_spec buff skip r rem Hw) as
    (buff1 & more & r1 & -> & Hs1 & Hw1 & Hp1 & Hlen & Hf & Ht); [lia|].
  destruct more; cbn [negb].
  - destruct (Ht eq_refl) as [Hlt Hor].
    assert (skip < length buff1)%nat as Hin by lia.
    rewrite (window_lookup _ _ _ _ Hw1 Hin).
    pose proof (window_length _ _ _ Hw1) as Hl1.
    destruct (lookup_lt_is_Some_2 rem skip) as [c Hc]; [lia|].
    rewrite Hc. rewrite (drop_S _ _ _ Hc).
    destruct (isWhitespace c) eqn:Ews.
    + destruct (IH buff1 (S skip) r1 rem Hw1) as
        (buff' & skip' & r' & -> & Hs' & Hw' & Hp' & Hd' & He'); [lia|lia|].
      exists buff', skip', r'. split; [done|]. split; [congruence|]. split; [done|].
      split; [done|]. split; [by rewrite skipWs_ws|done].
    + exists buff1, skip, r1. split; [done|]. split; [done|]. split; [done|].
      split; [lia|]. split; [by rewrite skipWs_stop, (drop_S _ _ _ Hc)|].
      intros Hnil. apply (f_equal length) in Hnil. rewrite length_drop in Hnil.
      simpl in Hnil. lia.
  - destruct (Hf eq_refl) as [Hle ->].
    exists buff, skip, r1. split; [done|]. split; [done|]. split; [done|].
    split; [lia|]. rewrite (drop_ge rem) by done. done.
Qed.

(** [currentBuffer] skips exactly the leading white space and returns
    the buffer, which is empty only at the end of the input. *)
Lemma currentBuffer_spec r rem :
  holds r rem ->
  exists buff r',
    currentBuffer r = Ret (buff, r')
    /\ session r' = session r
    /\ prevSize r' = 0%Z
    /\ buf (reader r') = buff
    /\ holds r' (JSONText.skipWs rem)
    /\ (buff = [] -> JSONText.skipWs rem = []).
Proof.
  intros [Hu Hsz]. unfold currentBuffer, JSONReader.Peek.
  destruct (Peek_buffered (reader r)) as [e ->].
  assert (setReader r (reader r) = r) as -> by (by destruct r).
  set (r0 := setPrevSize r 0).
  assert (window (buf (reader r)) r0 rem) as Hw.
  { unfold window, r0. cbn. split; [done|]. split; [unfold len; lia|]. done. }
  destruct (skipLoop_spec (S (S (remaining r0))) (buf (reader r)) 0 r0 rem Hw)
    as (buff' & skip' & r' & -> & Hs' & Hw' & Hp' & Hd' & He').
  { cbn. lia. }
  { unfold remaining, r0. cbn. rewrite <- Hu. unfold unread. rewrite length_app. lia. }
  cbn [mbind res_bind]. rewrite drop_0 in Hd'.
  destruct Hw' as (Hrem' & Hps' & Hbuf' & Hsz').
  destruct (0 <? skip')%nat eqn:E0.
  - apply Nat.ltb_lt in E0. unfold JSONReader.Discard.
    replace (Z.of_nat skip' - prevSize r')%Z
      with (Z.of_nat (skip' - Z.to_nat (prevSize r'))) by lia.
    rewrite Discard_buffered by (rewrite Hbuf', length_drop; lia).
    eexists _, _. split; [done|]. cbn.
    split; [exact Hs'|]. split; [done|].
    assert (drop (skip' - Z.to_nat (prevSize r')) (buf (reader r')) = drop skip' buff') as Hdd.
    { rewrite Hbuf', drop_drop. f_equal. lia. }
    split; [done|]. split.
    + split; [|done]. unfold unread. cbn. rewrite Hdd, <- Hd', Hrem'.
      by rewrite drop_app_le by lia.
    + intros Hnil. rewrite <- Hd'. apply He'. done.
  - apply Nat.ltb_ge in E0. assert (skip' = 0)%nat as -> by lia.
    assert (prevSize r' = 0)%Z as Hz by lia.
    rewrite drop_0 in *. rewrite Hz in Hbuf'. cbn in Hbuf'. rewrite drop_0 in Hbuf'.
    exists buff', r'. split; [done|]. split; [exact Hs'|]. split; [done|].
    split; [done|]. split.
    + split; [|done]. unfold unread. by rewrite Hbuf', <- Hd', Hrem'.
    + intros Hnil. rewrite <- Hd'. by apply He'.
Qed.

Lemma holds_advance r c l :
  holds r (c :: l) -> buf (reader r) <> [] ->
  holds (JSONReader.Discard 1 r) l /\ session (JSONReader.Discard 1 r) = session r.
Proof.
  intros [Hu Hsz] Hne. unfold JSONReader.Discard.
  destruct (buf (reader r)) as [|c' l'] eqn:Eb; [done|].
  rewrite (Discard_buffered 1) by (rewrite Eb; simpl; lia).
  unfold holds, session, unread, advance in *. cbn. rewrite Eb in *. cbn in *.
  rewrite drop_0. split; [|done]. split; [|done]. by injection Hu.
Qed.

Lemma readTokenChar_spec ch r rem :
  holds r rem ->
  exists r', readTokenChar ch r = Ret ((JSONText.tokenChar ch rem).1, r')
             /\ holds r' (JSONText.tokenChar ch rem).2
             /\ session r' = session r.
Proof.
  intros H. unfold readTokenChar, JSONText.tokenChar.
  destruct (currentBuffer_spec r rem H) as (buff & r1 & -> & Hs & Hp & Hb & Hh & He).
  cbn [mbind res_bind].
  destruct buff as [|c buff].
  - rewrite (He eq_refl) in *. by exists r1.
  - destruct Hh as [Hu Hsz]. unfold unread in Hu. rewrite Hb in Hu. cbn [app] in Hu.
    rewrite <- Hu. destruct (c =? ch)%char.
    + destruct (holds_advance r1 c (buff ++ pending (rd (reader r1)))) as [Ha Hs'].
      { split; [|done]. unfold unread. by rewrite Hb. }
      { by rewrite Hb. }
      eexists. split; [done|]. split; [done|]. congruence.
    + exists r1. split; [done|]. split; [|done]. split; [|done]. unfold unread. by rewrite Hb.
Qed.

Lemma peekNextChar_spec r rem :
  holds r rem ->
  exists r', peekNextChar r = Ret ((JSONText.peekChar rem).1, r')
             /\ holds r' (JSONText.peekChar rem).2
             /\ session r' = session r.
Proof.
  intros H. unfold peekNextChar, JSONText.peekChar.
  destruct (currentBuffer_spec r rem H) as (buff & r1 & -> & Hs & Hp & Hb & Hh & He).
  cbn [mbind res_bind].
  destruct buff as [|c buff].
  - rewrite (He eq_refl) in *. by exists r1.
  - pose proof Hh as [Hu Hsz]. unfold unread in Hu. rewrite Hb in Hu. cbn [app] in Hu.
    rewrite <- Hu. exists r1. split; [done|]. split; [|done]. cbn. by rewrite Hu.
Qed.

(** A literal that is spelt out in the text is consumed whole, however
    the text is cut into buffers. *)
Lemma readLiteralToken_spec tok r rem rem' :
  holds r rem ->
  (length tok <= 16)%nat ->
  JSONText.literal tok rem = Some rem' ->
  exists r', readLiteralToken tok r = Ret (true, r')
             /\ holds r' rem'
             /\ session r' = session r.
Proof.
  intros H Htok. unfold JSONText.literal, readLiteralToken.
  destruct (currentBuffer_spec r rem H) as (buff & r1 & -> & Hs & Hp & Hb & Hh & He).
  cbn [mbind res_bind]. set (l := JSONText.skipWs rem) in *.
  case_bool_decide as Htake; [|done]. intros [= <-].
  assert (length tok <= length l)%nat as Hlen.
  { rewrite <- Htake at 1. rewrite length_take. lia. }
  destruct Hh as [Hu Hsz].
  assert (window buff r1 l) as Hw.
  { unfold window. rewrite Hp. cbn. split; [by rewrite <- Hu, <- Hb|].
    split; [unfold len; lia|]. by rewrite drop_0. }
  assert (exists buff1 r2,
    (if (length buff <? length tok)%nat then extendBuffer buff r1 else ((buff, true), r1))
    = ((buff1, true), r2)
    /\ session r2 = session r1 /\ window buff1 r2 l
    /\ (length tok <= length buff1)%nat
    /\ (Z.to_nat (prevSize r2) < length tok \/ prevSize r2 = 0%Z)%nat) as
    (buff1 & r2 & -> & Hs2 & Hw2 & Hlen2 & Hp2).
  { destruct (length buff <? length tok)%nat eqn:E.
    - apply Nat.ltb_lt in E.
      destruct (extendBuffer buff r1) as [[buff1 more] r2] eqn:Ex.
      destruct (extendBuffer_spec _ _ _ _ _ _ Hw Ex) as (Hs2 & Hp2 & Hw2 & Hf & Ht).
      destruct more.
      + destruct (Ht eq_refl) as (ext & Hne & -> & Hor).
        exists (buff ++ ext), r2. split; [done|]. split; [done|]. split; [done|].
        split; [|left; rewrite Hp2; unfold len; lia].
        destruct Hor as [Hor| <-]; [rewrite length_app; lia|done].
      + destruct (Hf eq_refl) as [_ Heq]. rewrite Heq in Hlen. lia.
    - apply Nat.ltb_ge in E. exists buff, r1. split; [done|]. split; [done|].
      split; [done|]. split; [done|]. by right. }
  cbn [negb].
  replace (length tok <=? length buff1)%nat with true by (symmetry; by apply Nat.leb_le).
  unfold bytesEqual. rewrite (window_take _ _ _ _ Hw2 Hlen2), Htake.
  rewrite bool_decide_eq_true_2 by done. cbn [andb].
  destruct Hw2 as (Hrem2 & Hps2 & Hbuf2 & Hsz2).
  unfold JSONReader.Discard, len.
  replace (Z.of_nat (length tok) - prevSize r2)%Z
    with (Z.of_nat (length tok - Z.to_nat (prevSize r2))) by lia.
  rewrite Discard_buffered by (rewrite Hbuf2, length_drop; lia).
  eexists. split; [done|]. unfold holds, session, unread, advance. cbn.
  split; [|unfold session in *; cbn in *; congruence].
  split; [|done]. rewrite Hbuf2, drop_drop, Hrem2.
  replace (Z.to_nat (prevSize r2) + (length tok - Z.to_nat (prevSize r2)))%nat
    with (length tok) by lia.
  by rewrite drop_app_le.
Qed.

Lemma span_app p l a b : strconv.span p l = (a, b) -> a ++ b = l.
Proof.
  revert a b. induction l as [|c l IH]; intros a b; cbn.
  - by intros [= <- <-].
  - destruct (p c); [|by intros [= <- <-]].
    destruct (strconv.span p l) as [a' b']. intros [= <- <-]. cbn. f_equal. by apply IH.
Qed.

Lemma isDigit_not_mark c : strconv.isDigit c = true -> JSONText.isFloatMark c = false.
Proof.
  destruct c as [[] [] [] [] [] [] [] []]; vm_compute; congruence.
Qed.

Lemma extract_spec buff r rem n :
  window buff r rem ->
  (Z.to_nat (prevSize r) <= n <= length buff)%nat ->
  (extractFromBuffer buff n r).1 = string_of (take n rem)
  /\ holds (extractFromBuffer buff n r).2 (drop n rem)
  /\ session (extractFromBuffer buff n r).2 = session r.
Proof.
  intros Hw Hn. unfold extractFromBuffer. cbn [fst snd].
  rewrite (window_take _ _ _ _ Hw) by lia. split; [done|].
  destruct Hw as (Hrem & Hps & Hbuf & Hsz). unfold JSONReader.Discard.
  replace (Z.of_nat n - prevSize r)%Z with (Z.of_nat (n - Z.to_nat (prevSize r))) by lia.
  rewrite Discard_buffered by (rewrite Hbuf, length_drop; lia).
  unfold holds, session, unread, advance. cbn. split; [|done]. split; [|done].
  rewrite Hbuf, drop_drop, Hrem.
  replace (Z.to_nat (prevSize r) + (n - Z.to_nat (prevSize r)))%nat with n by lia.
  by rewrite drop_app_le by lia.
Qed.

Lemma numberLoop_spec fuel : forall buff isFloat i r rem,
  window buff r rem ->
  (Z.to_nat (prevSize r) <= i <= length buff)%nat ->
  (length rem - i < fuel)%nat ->
  exists buff' r',
    numberLoop fuel buff isFloat i r
    = Ret (((buff', isFloat || existsb JSONText.isFloatMark (JSONText.numberRun (drop i rem)).1),
            (i + length (JSONText.numberRun (drop i rem)).1)%nat), r')
    /\ session r' = session r
    /\ window buff' r' rem
    /\ (Z.to_nat (prevSize r') <= i + length (JSONText.numberRun (drop i rem)).1
         <= length buff')%nat.
Proof.
  induction fuel as [|fuel IH]; intros buff isFloat i r rem Hw Hi Hfuel; [lia|].
  cbn [numberLoop].
  destruct (ensure_spec buff i r rem Hw) as
    (buff1 & more & r1 & -> & Hs1 & Hw1 & Hp1 & Hlen & Hf & Ht); [lia|].
  destruct more; cbn [negb].
  - destruct (Ht eq_refl) as [Hlt Hor].
    assert (i < length buff1)%nat as Hin by lia.
    rewrite (window_lookup _ _ _ _ Hw1 Hin).
    pose proof (window_length _ _ _ Hw1) as Hl1.
    destruct (lookup_lt_is_Some_2 rem i) as [c Hc]; [lia|].
    rewrite Hc, (drop_S _ _ _ Hc).
    unfold JSONText.numberRun. cbn [strconv.span].
    pose proof (eq_refl : JSONText.isNumberByte c
                = strconv.isDigit c || JSONText.isFloatMark c || (c =? "-")%char) as Hnb.
    change ((c =? ".")%char || (c =? "e")%char || (c =? "E")%char || (c =? "+")%char)
      with (JSONText.isFloatMark c).
    assert (forall fl, JSONText.isFloatMark c = fl ->
      exists buff' r',
        numberLoop fuel buff1 (isFloat || fl) (S i) r1
        = Ret (((buff', isFloat || existsb JSONText.isFloatMark
                   (let '(a, b) := strconv.span JSONText.isNumberByte (drop (S i) rem)
                    in (c :: a, b)).1),
                (i + length (let '(a, b) := strconv.span JSONText.isNumberByte (drop (S i) rem)
                             in (c :: a, b)).1)%nat), r')
        /\ session r' = session r
        /\ window buff' r' rem
        /\ (Z.to_nat (prevSize r') <=
             i + length (let '(a, b) := strconv.span JSONText.isNumberByte (drop (S i) rem)
                         in (c :: a, b)).1 <= length buff')%nat) as Hstep.
    { intros fl Hfl.
      destruct (IH buff1 (isFloat || fl) (S i) r1 rem Hw1) as
        (buff' & r' & -> & Hs' & Hw' & Hp'); [lia|lia|].
      unfold JSONText.numberRun in *.
      destruct (strconv.span JSONText.isNumberByte (drop (S i) rem)) as [a b].
      cbn [fst snd existsb length] in *. rewrite Hfl.
      exists buff', r'. rewrite orb_assoc.
      replace (i + S (length a))%nat with (S i + length a)%nat by lia.
      split; [done|]. split; [congruence|]. split; [done|lia]. }
    destruct (strconv.isDigit c) eqn:Ed.
    + rewrite Hnb. cbn [orb]. cbv iota.
      replace (numberLoop fuel buff1 isFloat (S i) r1)
        with (numberLoop fuel buff1 (isFloat || false) (S i) r1)
        by (by rewrite orb_false_r).
      apply (Hstep false). by apply isDigit_not_mark.
    + destruct (JSONText.isFloatMark c) eqn:Em.
      * rewrite Hnb. cbn [orb]. cbv iota.
        replace (numberLoop fuel buff1 true (S i) r1)
          with (numberLoop fuel buff1 (isFloat || true) (S i) r1)
          by (by rewrite orb_true_r).
        by apply (Hstep true).
      * destruct (c =? "-")%char eqn:Eminus; rewrite Hnb; cbn [orb]; cbv iota.
        -- replace (numberLoop fuel buff1 isFloat (S i) r1)
             with (numberLoop fuel buff1 (isFloat || false) (S i) r1)
             by (by rewrite orb_false_r).
           by apply (Hstep false).
        -- cbn [fst existsb length]. rewrite orb_false_r, Nat.add_0_r.
           exists buff1, r1. split; [done|]. split; [done|]. split; [done|lia].
  - destruct (Hf eq_refl) as [Hle ->].
    rewrite (drop_ge rem) by done. cbn. rewrite orb_false_r, Nat.add_0_r.
    exists buff, r1. split; [done|]. split; [done|]. split; [done|lia].
Qed.

(** [readNumber] consumes exactly the maximal run of number bytes. *)
Lemma readNumber_spec r rem :
  holds r rem ->
  exists r', readNumber r = Ret ((JSONText.number rem).1, r')
             /\ holds r' (JSONText.number rem).2
             /\ session r' = session r.
Proof.
  intros H. unfold readNumber, JSONText.number.
  destruct (currentBuffer_spec r rem H) as (buff & r1 & -> & Hs & Hp & Hb & Hh & He).
  cbn [mbind res_bind]. set (l := JSONText.skipWs rem) in *.
  destruct Hh as [Hu Hsz].
  assert (window buff r1 l) as Hw.
  { unfold window. rewrite Hp. cbn. split; [by rewrite <- Hu, <- Hb|].
    split; [unfold len; lia|]. by rewrite drop_0. }
  destruct (numberLoop_spec (S (S (remaining r1))) buff false 0 r1 l Hw) as
    (buff' & r2 & -> & Hs2 & Hw2 & Hp2).
  { rewrite Hp. cbn. lia. }
  { unfold remaining. rewrite <- Hu. unfold unread. rewrite length_app. lia. }
  cbn [mbind res_bind orb]. rewrite drop_0 in *. cbn [Nat.add] in *.
  destruct (JSONText.numberRun l) as [run rest] eqn:Erun.
  pose proof (span_app _ _ _ _ Erun) as Happ. cbn [fst snd] in *.
  destruct run as [|c run].
  - cbn [length Nat.ltb Nat.leb]. exists r2. split; [done|]. split; [|congruence].
    cbn in Happ. subst rest. destruct Hw2 as (Hrem2 & Hps2 & Hbuf2 & Hsz2).
    cbn in Hp2. assert (prevSize r2 = 0)%Z as Hz by lia.
    rewrite Hz in Hbuf2. cbn in Hbuf2. rewrite drop_0 in Hbuf2.
    split; [|done]. unfold unread. by rewrite Hbuf2.
  - cbn [length Nat.ltb Nat.leb].
    destruct (extract_spec buff' r2 l (S (length run)) Hw2) as (Ht & Hh3 & Hs3); [done|].
    destruct (extractFromBuffer buff' (S (length run)) r2) as [text r3].
    cbn [fst snd] in *. subst text.
    assert (take (S (length run)) l = c :: run) as ->.
    { rewrite <- Happ. by rewrite (take_app_length (c :: run)). }
    assert (drop (S (length run)) l = rest) as Hd.
    { rewrite <- Happ. by rewrite (drop_app_length (c :: run)). }
    rewrite Hd in Hh3.
    destruct (existsb JSONText.isFloatMark (c :: run)).
    + exists r3. split; [done|]. split; [done|congruence].
    + exists r3. split; [done|]. split; [done|congruence].
Qed.

Lemma scanString_le l k : JSONText.scanString l = Some k -> (k <= length l)%nat.
Proof.
  assert (forall n l k, (length l <= n)%nat -> JSONText.scanString l = Some k ->
                        (k <= length l)%nat) as H; [|by apply (H (length l))].
  clear. induction n as [|n IH]; intros l k Hn.
  - destruct l; [done|simpl in Hn; lia].
  - destruct l as [|c l]; cbn; [done|]. simpl in Hn.
    destruct (c =? backslash)%char.
    + destruct l as [|c2 l2]; [done|]. simpl in Hn.
      destruct (JSONText.scanString l2) as [k'|] eqn:E; [|done].
      intros [= <-]. apply IH in E; [cbn; lia|lia].
    + destruct (c =? dquote)%char; [intros [= <-]; lia|].
      destruct (JSONText.scanString l) as [k'|] eqn:E; [|done].
      intros [= <-]. apply IH in E; [cbn; lia|lia].
Qed.

Lemma stringLoop_spec fuel : forall buff i r rem k,
  window buff r rem ->
  (Z.to_nat (prevSize r) <= i <= length buff + 1)%nat ->
  JSONText.scanString (drop i rem) = Some k ->
  (k <= fuel)%nat ->
  exists r',
    stringLoop fuel buff i r = Ret (strconv.Unquote (string_of (take (i + k) rem)), r')
    /\ holds r' (drop (i + k) rem)
    /\ session r' = session r.
Proof.
  induction fuel as [|fuel IH]; intros buff i r rem k Hw Hi Hscan Hfuel.
  { assert (k = 0)%nat as -> by lia.
    destruct (drop i rem) as [|c l]; cbn in Hscan; [done|].
    destruct (c =? backslash)%char.
    - destruct l; [done|]. by destruct (JSONText.scanString l).
    - destruct (c =? dquote)%char; [done|]. by destruct (JSONText.scanString l). }
  cbn [stringLoop].
  destruct (ensure_spec buff i r rem Hw) as
    (buff1 & more & r1 & -> & Hs1 & Hw1 & Hp1 & Hlen & Hf & Ht); [lia|].
  assert (i < length rem)%nat as Hirem.
  { destruct (decide (i < length rem)%nat) as [|Hn]; [done|].
    rewrite drop_ge in Hscan by lia. done. }
  destruct more; cbn [negb]; [|destruct (Hf eq_refl); lia].
  destruct (Ht eq_refl) as [Hlt Hor].
  assert (i < length buff1)%nat as Hin.
  { destruct Hor as [Hor|[->|Hor]]; [lia|done|lia]. }
  rewrite (window_lookup _ _ _ _ Hw1 Hin).
  destruct (lookup_lt_is_Some_2 rem i) as [c Hc]; [lia|].
  rewrite Hc. rewrite (drop_S _ _ _ Hc) in Hscan. cbn [JSONText.scanString] in Hscan.
  destruct (c =? backslash)%char.
  - destruct (drop (S i) rem) as [|c2 l2] eqn:Ed; [done|].
    assert (drop (S (S i)) rem = l2) as Hd2.
    { replace (S (S i)) with (S i + 1)%nat by lia. by rewrite <- drop_drop, Ed. }
    destruct (JSONText.scanString l2) as [k'|] eqn:Ek; [|done].
    injection Hscan as <-. rewrite <- Hd2 in Ek.
    destruct (IH buff1 (S (S i)) r1 rem k' Hw1) as (r' & -> & Hh' & Hs'); [lia|done|lia|].
    exists r'. replace (i + S (S k'))%nat with (S (S i) + k')%nat by lia.
    split; [done|]. split; [done|congruence].
  - destruct (c =? dquote)%char.
    + injection Hscan as <-.
      destruct (extract_spec buff1 r1 rem (S i) Hw1) as (Htx & Hh3 & Hs3); [lia|].
      destruct (extractFromBuffer buff1 (S i) r1) as [text r3]. cbn [fst snd] in *.
      subst text. exists r3. replace (i + 1)%nat with (S i) by lia.
      split; [done|]. split; [done|congruence].
    + destruct (JSONText.scanString (drop (S i) rem)) as [k'|] eqn:Ek; [|done].
      injection Hscan as <-.
      destruct (IH buff1 (S i) r1 rem k' Hw1) as (r' & -> & Hh' & Hs'); [lia|done|lia|].
      exists r'. replace (i + S k')%nat with (S i + k')%nat by lia.
      split; [done|]. split; [done|congruence].
Qed.

(** [readString] consumes exactly the string token, when the text
    closes it. *)
Lemma readString_spec : follows readString JSONText.string_.
Proof.
  intros r rem x rem' H. unfold readString, JSONText.string_.
  destruct (currentBuffer_spec r rem H) as (buff & r1 & -> & Hs & Hp & Hb & Hh & He).
  cbn [mbind res_bind]. set (l := JSONText.skipWs rem) in *.
  destruct buff as [|c buff].
  - rewrite (He eq_refl). intros [= <- <-]. exists r1. split; [done|].
    split; [by rewrite <- (He eq_refl)|done].
  - pose proof Hh as [Hu Hsz]. unfold unread in Hu. rewrite Hb in Hu. cbn [app] in Hu.
    rewrite <- Hu. destruct (c =? dquote)%char.
    + destruct (JSONText.scanString _) as [n|] eqn:En; [|done]. cbn [mbind option_bind].
      intros [= <- <-].
      assert (window (c :: buff) r1 l) as Hw.
      { unfold window. rewrite Hp. cbn. split; [by rewrite <- Hu|].
        split; [unfold len; cbn [length]; lia|]. by rewrite Hb. }
      pose proof (scanString_le _ _ En) as Hle.
      destruct (stringLoop_spec (S (S (remaining r1))) (c :: buff) 1 r1 l n Hw)
        as (r' & -> & Hh' & Hs').
      { rewrite Hp. cbn. lia. }
      { by rewrite <- Hu. }
      { unfold remaining. rewrite Hb. cbn [length]. rewrite length_app in Hle. lia. }
      exists r'. rewrite <- Hu in *. cbn in *. split; [done|]. split; [done|congruence].
    + intros [= <- <-]. exists r1. split; [done|]. split; [by rewrite Hu|done].
Qed.

End BufferProtocol.

(* ------------------------------------------------------------------ *)
(** ** Numbers *)

Section NumberFacts.
Import bufio JSONReader chunking.

Lemma span_all p l a b : strconv.span p l = (a, b) -> forallb p a = true.
Proof.
  revert a b. induction l as [|c l IH]; intros a b; cbn.
  - by intros [= <- <-].
  - destruct (p c) eqn:Ep; [|by intros [= <- <-]].
    destruct (strconv.span p l) as [a' b']. intros [= <- <-]. cbn.
    rewrite Ep. by eapply IH.
Qed.

Lemma span_stop p l a b :
  strconv.span p l = (a, b) -> match b with c :: _ => p c = false | [] => True end.
Proof.
  revert a b. induction l as [|c l IH]; intros a b; cbn.
  - by intros [= <- <-].
  - destruct (p c) eqn:Ep; [|by intros [= <- <-]].
    destruct (strconv.span p l) as [a' b']. intros [= <- <-]. by eapply IH.
Qed.

Lemma digits_no_mark l :
  forallb strconv.isDigit l = true -> existsb JSONText.isFloatMark l = false.
Proof.
  induction l as [|c l IH]; cbn; [done|].
  intros [Hc Hl]%andb_true_iff. by rewrite (isDigit_not_mark c Hc), IH.
Qed.

Lemma mark_is_point_or_exp_or_plus c :
  JSONText.isFloatMark c = JSONText.isPointOrExp c || (c =? "+")%char.
Proof. reflexivity. Qed.

Lemma no_mark_no_point l :
  existsb JSONText.isFloatMark l = false -> existsb JSONText.isPointOrExp l = false.
Proof.
  induction l as [|c l IH]; cbn; [done|].
  rewrite mark_is_point_or_exp_or_plus.
  intros [[H1 H2]%orb_false_iff Hl]%orb_false_iff. by rewrite H1, IH.
Qed.

(** A text that [ParseFloat] accepts and that starts with a digit or a
    minus sign has a plus sign only inside an exponent: if it has a
    float mark at all, it has a point or an exponent letter. *)
Lemma ParseFloat_accepts_mark s :
  JSONText.startsNumber s = true ->
  (strconv.ParseFloat (string_of s)).2 = None ->
  existsb JSONText.isFloatMark s = true ->
  existsb JSONText.isPointOrExp s = true.
Proof.
  unfold strconv.ParseFloat. rewrite list_ascii_of_string_of_list_ascii.
  destruct s as [|c0 s]; [done|]. cbn [JSONText.startsNumber].
  intros Hstart.
  assert (exists sign l0, c0 :: s = sign ++ l0
            /\ existsb JSONText.isFloatMark sign = false
            /\ (let '(neg, l) := match c0 :: s with
                                 | "+"%char :: l => (false, l)
                                 | "-"%char :: l => (true, l)
                                 | _ => (false, c0 :: s)
                                 end in l) = l0) as (sign & l0 & Hs & Hsign & Hl0).
  { destruct (c0 =? "-")%char eqn:Em.
    - apply Ascii.eqb_eq in Em. subst c0. by exists ["-"%char], s.
    - rewrite orb_false_r in Hstart. exists [], (c0 :: s).
      split; [done|]. split; [done|].
      destruct c0 as [[] [] [] [] [] [] [] []]; try done. }
  revert Hl0.
  destruct (match c0 :: s with
            | "+"%char :: l => (false, l)
            | "-"%char :: l => (true, l)
            | _ => (false, c0 :: s)
            end) as [neg l0']. intros ->.
  destruct (strconv.span strconv.isDigit l0) as [ip l1] eqn:Eip.
  pose proof (span_app _ _ _ _ Eip) as Happ1.
  pose proof (span_all _ _ _ _ Eip) as Hall1.
  rewrite Hs, <- Happ1, !existsb_app, Hsign, (digits_no_mark _ Hall1). cbn [orb].
  destruct l1 as [|c1 l1']; [|destruct (c1 =? ".")%char eqn:Edot].
  - cbn. done.
  - intros _ _. cbn [existsb].
    assert (JSONText.isPointOrExp c1 = true) as ->
      by (unfold JSONText.isPointOrExp; by rewrite Edot).
    by rewrite !orb_true_r.
  - assert (match c1 :: l1' with
            | "."%char :: l => strconv.span strconv.isDigit l
            | _ => ([], c1 :: l1')
            end = ([], c1 :: l1')) as ->.
    { destruct c1 as [[] [] [] [] [] [] [] []]; try done. }
    rewrite app_nil_r. destruct ip as [|d ip]; [done|].
    cbn [strconv.readExponent existsb].
    destruct ((c1 =? "e")%char || (c1 =? "E")%char) eqn:Ee.
    + intros _ _.
      assert (JSONText.isPointOrExp c1 = true) as ->
        by (unfold JSONText.isPointOrExp; rewrite Edot; exact Ee).
      by rewrite !orb_true_r.
    + done.
Qed.

End NumberFacts.

(** C6, as stated, fails: the run "1+2" holds none of '.', 'e', 'E',
    yet [readNumber] takes the floating-point path on it and returns a
    floating-point value (with the error of [ParseFloat]), not an
    integer. *)
Lemma number_plus_counterexample :
  let text := bytes_of "1+2]" in
  JSONText.startsNumber text = true
  /\ JSONText.numberRun text = (bytes_of "1+2", bytes_of "]")
  /\ existsb JSONText.isPointOrExp (bytes_of "1+2") = false
  /\ match JSONReader.readNumber
             (JSONReader.NewJSONReaderSize tlt_array (bufio.mkSource text []) 4096) with
     | Ret ((v, err), r') =>
         JSONText.isFloatValue v = true /\ JSONText.isIntValue v = false
         /\ bufio.unread (JSONReader.reader r') = bytes_of "]"
     | _ => False
     end.
Proof.
  split; [reflexivity|]. split; [reflexivity|]. split; [reflexivity|].
  vm_compute. split; [reflexivity|]. split; reflexivity.
Qed.

(** C6, amended.  On a value whose first byte after white space is a
    digit or '-', whatever the chunking, [readNumber] consumes the
    maximal run of digits and of the bytes '.', 'e', 'E', '+', '-'; the
    value it returns is a floating-point value if and only if the run
    holds at least one of '.', 'e', 'E', '+', and an integer otherwise;
    and whenever it returns no error, the value is a floating-point
    value if and only if the run holds at least one of '.', 'e', 'E'. *)
Theorem number_classification (r : JSONReader.t) (rem : bytes) :
  chunking.holds r rem ->
  JSONText.startsNumber (JSONText.skipWs rem) = true ->
  exists run rest v err r',
    JSONReader.readNumber r = Ret ((v, err), r')
    /\ chunking.holds r' rest
    /\ run ++ rest = JSONText.skipWs rem
    /\ forallb JSONText.isNumberByte run = true
    /\ match rest with c :: _ => JSONText.isNumberByte c = false | [] => True end
    /\ JSONText.isFloatValue v = existsb JSONText.isFloatMark run
    /\ JSONText.isIntValue v = negb (existsb JSONText.isFloatMark run)
    /\ (err = None -> JSONText.isFloatValue v = existsb JSONText.isPointOrExp run).
Proof.
  intros H Hstart.
  destruct (readNumber_spec r rem H) as (r' & Hrun & Hh & _).
  unfold JSONText.number in *.
  destruct (JSONText.numberRun (JSONText.skipWs rem)) as [run rest] eqn:Erun.
  pose proof (span_app _ _ _ _ Erun) as Happ.
  pose proof (span_all _ _ _ _ Erun) as Hall.
  pose proof (span_stop _ _ _ _ Erun) as Hstop.
  assert (JSONText.startsNumber run = true) as Hstart'.
  { destruct (JSONText.skipWs rem) as [|c l]; [done|].
    unfold JSONText.numberRun in Erun. cbn in Erun, Hstart.
    assert (JSONText.isNumberByte c = true) as Hc.
    { unfold JSONText.isNumberByte.
      destruct (strconv.isDigit c); [done|]. cbn in *. rewrite Hstart.
      by rewrite orb_true_r. }
    rewrite Hc in Erun. destruct (strconv.span _ l). by injection Erun as <- <-. }
  destruct run as [|c run]; [done|].
  destruct (existsb JSONText.isFloatMark (c :: run)) eqn:Em.
  - cbn [fst snd] in *. eexists (c :: run), rest, _, _, r'.
    split; [exact Hrun|]. split; [done|]. split; [done|]. split; [done|].
    split; [done|]. rewrite Em. split; [done|]. split; [done|].
    intros Herr. cbn [JSONText.isFloatValue]. symmetry.
    by apply ParseFloat_accepts_mark.
  - cbn [fst snd] in *. eexists (c :: run), rest, _, _, r'.
    split; [exact Hrun|]. split; [done|]. split; [done|]. split; [done|].
    split; [done|]. rewrite Em. split; [done|]. split; [done|].
    intros _. cbn [JSONText.isFloatValue]. symmetry. by apply no_mark_no_point.
Qed.

Lemma number_classification_witness :
  exists run rest v err r',
    JSONReader.readNumber
      (JSONReader.NewJSONReaderSize tlt_array (bufio.mkSource (bytes_of " -12.5e+3,7]") [2; 0; 1]%nat) 16)
    = Ret ((v, err), r')
    /\ chunking.holds r' rest
    /\ run ++ rest = JSONText.skipWs (bytes_of " -12.5e+3,7]")
    /\ forallb JSONText.isNumberByte run = true
    /\ match rest with c :: _ => JSONText.isNumberByte c = false | [] => True end
    /\ JSONText.isFloatValue v = existsb JSONText.isFloatMark run
    /\ JSONText.isIntValue v = negb (existsb JSONText.isFloatMark run)
    /\ (err = None -> JSONText.isFloatValue v = existsb JSONText.isPointOrExp run).
Proof.
  apply (number_classification
           (JSONReader.NewJSONReaderSize tlt_array
              (bufio.mkSource (bytes_of " -12.5e+3,7]") [2; 0; 1]%nat) 16)
           (bytes_of " -12.5e+3,7]")).
  - split; [reflexivity|]. vm_compute. lia.
  - reflexivity.
Defined.

(* ------------------------------------------------------------------ *)
(** ** JSONReader: values and entries, whatever the chunking *)

Section Decoding.
Import bufio JSONReader chunking.

(** One step of the buffered reader against the same step on text. *)
Ltac step_token :=
  match goal with
  | H : holds ?r ?rem |- context [readTokenChar ?ch ?r] =>
      let r1 := fresh "r" in
      let E := fresh "E" in
      let Hh := fresh "Hh" in
      let Hs := fresh "Hs" in
      destruct (readTokenChar_spec ch r rem H) as (r1 & E & Hh & Hs);
      rewrite E; clear E; cbn [mbind res_bind];
      destruct (JSONText.tokenChar ch rem) as [? ?]; cbn [fst snd] in *
  end.

Ltac step_call Hrv :=
  match goal with
  | H : holds ?r ?rem |- context [mbind _ (?av ?rem)] =>
      let E := fresh "E" in
      let r1 := fresh "r" in
      let Ec := fresh "Ec" in
      let Hh := fresh "Hh" in
      let Hs := fresh "Hs" in
      destruct (av rem) as [[? ?]|] eqn:E; [|done];
      destruct (Hrv r rem _ _ H E) as (r1 & Ec & Hh & Hs);
      rewrite Ec; clear Ec; cbn [mbind res_bind option_bind]
  end.

Ltac finish :=
  intros [= <- <-]; eexists; split; [done|]; split; [done|congruence].

Lemma readKeyValuePair_follows rv av :
  follows rv av -> follows (readKeyValuePair rv) (JSONText.keyValuePair av).
Proof.
  intros Hrv r rem x rem' H. unfold readKeyValuePair, JSONText.keyValuePair.
  step_call readString_spec. destruct p as [key [e|]]; [finish|].
  step_token. destruct b; cbn [negb]; [|finish].
  step_call Hrv. destruct p as [val [e|]]; finish.
Qed.

Lemma objectLoop_follows rv av fuel :
  follows rv av ->
  forall obj, follows (objectLoop rv fuel obj) (JSONText.objectLoop av fuel obj).
Proof.
  intros Hrv. induction fuel as [|fuel IH]; intros obj r rem x rem' H; [done|].
  cbn [objectLoop JSONText.objectLoop].
  step_token. destruct b; [finish|].
  step_token. destruct b; cbn [negb]; [|finish].
  step_call (readKeyValuePair_follows rv av Hrv).
  destruct p as [[key val] [e|]]; [finish|].
  intros Hloop. destruct (IH _ _ _ _ _ Hh1 Hloop) as (r' & -> & Hh' & Hs').
  eexists. split; [done|]. split; [done|congruence].
Qed.

Lemma readObject_follows rv av fuel :
  follows rv av -> follows (readObject rv fuel) (JSONText.object_ av fuel).
Proof.
  intros Hrv r rem x rem' H. unfold readObject, JSONText.object_.
  step_token. destruct b; cbn [negb]; [|finish].
  step_token. destruct b; [finish|].
  step_call (readKeyValuePair_follows rv av Hrv).
  destruct p as [[key val] [e|]]; [finish|].
  intros Hloop.
  destruct (objectLoop_follows rv av fuel Hrv _ _ _ _ _ Hh1 Hloop) as (r' & -> & Hh' & Hs').
  eexists. split; [done|]. split; [done|congruence].
Qed.

Lemma arrayLoop_follows rv av fuel :
  follows rv av ->
  forall arr, follows (arrayLoop rv fuel arr) (JSONText.arrayLoop av fuel arr).
Proof.
  intros Hrv. induction fuel as [|fuel IH]; intros arr r rem x rem' H; [done|].
  cbn [arrayLoop JSONText.arrayLoop].
  step_token. destruct b; [finish|].
  step_token. destruct b; cbn [negb].
  - step_call Hrv. destruct p as [val [e|]]; [finish|].
    intros Hloop. destruct (IH _ _ _ _ _ Hh1 Hloop) as (r' & -> & Hh' & Hs').
    eexists. split; [done|]. split; [done|congruence].
  - destruct (currentBuffer_spec _ _ Hh0) as (buff & r' & -> & Hs' & _ & _ & Hh' & _).
    cbn [mbind res_bind]. finish.
Qed.

Lemma readArray_follows rv av fuel :
  follows rv av -> follows (readArray rv fuel) (JSONText.array_ av fuel).
Proof.
  intros Hrv r rem x rem' H. unfold readArray, JSONText.array_.
  step_token. destruct b; cbn [negb]; [|finish].
  step_token. destruct b; [finish|].
  step_call Hrv. destruct p as [val [e|]]; [finish|].
  intros Hloop. cbn [app].
  destruct (arrayLoop_follows rv av fuel Hrv _ _ _ _ _ Hh1 Hloop) as (r' & -> & Hh' & Hs').
  eexists. split; [done|]. split; [done|congruence].
Qed.

Lemma literal_follows tok (v : Value) (e : error) :
  (length tok <= 16)%nat ->
  follows (fun r => '(ok, r) ← readLiteralToken tok r;
                    if (ok : bool) then Ret ((v, None), r) else Ret ((VNull, Some e), r))
          (fun rem => rem ← JSONText.literal tok rem; Some ((v, None), rem)).
Proof.
  intros Htok r rem x rem' H.
  destruct (JSONText.literal tok rem) as [rem1|] eqn:E; [|done]. cbn [mbind option_bind].
  destruct (readLiteralToken_spec tok r rem rem1 H Htok E) as (r1 & -> & Hh1 & Hs1).
  cbn [mbind res_bind]. finish.
Qed.

(** The buffered [readValue] decodes what the decoder on text decodes,
    and leaves the same text unread. *)
Lemma readValue_follows fuel : follows (readValue fuel) (JSONText.value fuel).
Proof.
  induction fuel as [|fuel IH]; intros r rem x rem' H; [done|].
  cbn [readValue JSONText.value].
  destruct (peekNextChar_spec r rem H) as (r1 & -> & Hh1 & Hs1).
  cbn [mbind res_bind].
  destruct (JSONText.peekChar rem) as [b rem1]. cbn [fst snd] in *.
  assert (forall y, x = y -> True) as _ by done.
  pose proof (literal_follows (bytes_of "null") VNull (Errorf "Expected: null")
                ltac:(cbn; lia) r1 rem1 x rem' Hh1) as Hnull.
  pose proof (literal_follows (bytes_of "true") (VBool true) (Errorf "Expected: true")
                ltac:(cbn; lia) r1 rem1 x rem' Hh1) as Htrue.
  pose proof (literal_follows (bytes_of "false") (VBool false) (Errorf "Expected: false")
                ltac:(cbn; lia) r1 rem1 x rem' Hh1) as Hfalse.
  pose proof (readObject_follows _ _ fuel IH r1 rem1 x rem' Hh1) as Hobj.
  pose proof (readArray_follows _ _ fuel IH r1 rem1 x rem' Hh1) as Harr.
  assert (Some (JSONText.number rem1) = Some (x, rem') ->
          exists r', readNumber r1 = Ret (x, r') /\ holds r' rem' /\ session r' = session r)
    as Hnum.
  { destruct (readNumber_spec r1 rem1 Hh1) as (r2 & -> & Hh2 & Hs2).
    destruct (JSONText.number rem1). cbn [fst snd] in *.
    intros [= <- <-]. eexists. split; [done|]. split; [done|congruence]. }
  assert ((('(s, err, rem0) ← JSONText.string_ rem1; Some (VString s, err, rem0))
           = Some (x, rem')) ->
          exists r', ('(s, err, r0) ← readString r1; Ret (VString s, err, r0)) = Ret (x, r')
                     /\ holds r' rem' /\ session r' = session r) as Hstr.
  { destruct (JSONText.string_ rem1) as [[[s err] rem2]|] eqn:E; [|done].
    destruct (readString_spec r1 rem1 _ _ Hh1 E) as (r2 & -> & Hh2 & Hs2).
    cbn [mbind res_bind option_bind]. finish. }
  assert (Some (VNull, @None error, rem1) = Some (x, rem') ->
          exists r', Ret (VNull, @None error, r1) = Ret (x, r')
                     /\ holds r' rem' /\ session r' = session r) as Hdef.
  { finish. }
  assert (forall (P : Prop), (exists r', P /\ holds r' rem' /\ session r' = session r1) ->
                             (exists r', P /\ holds r' rem' /\ session r' = session r)) as _
    by (intros P (r' & ? & ? & ?); exists r'; split; [done|]; split; [done|congruence]).
  assert (forall f, (exists r', f = Ret (x, r') /\ holds r' rem' /\ session r' = session r1) ->
                    (exists r', f = Ret (x, r') /\ holds r' rem' /\ session r' = session r)) as Hlift.
  { intros f (r' & ? & ? & ?). exists r'. split; [done|]. split; [done|congruence]. }
  destruct b as [[] [] [] [] [] [] [] []];
    first [ exact Hdef | exact Hnum | exact Hstr
          | intros Hx; apply Hlift; first [ exact (Hnull Hx) | exact (Htrue Hx)
                                          | exact (Hfalse Hx) | exact (Hobj Hx)
                                          | exact (Harr Hx) ] ].
Qed.

Lemma Peek_holds n r rem :
  holds r rem ->
  holds (JSONReader.Peek n r).2 rem /\ session (JSONReader.Peek n r).2 = session r.
Proof.
  intros [Hu Hsz]. unfold JSONReader.Peek.
  destruct (bufio.Peek n (reader r)) as [[pk e] b1] eqn:Ep.
  apply Peek_spec in Ep as (Hs1 & Hu1 & _ & _).
  unfold holds, session. cbn. rewrite Hs1, Hu1. done.
Qed.

Lemma session_fields r r' :
  session r' = session r ->
  entriesRead r' = entriesRead r /\ initialized r' = initialized r /\ tlt r' = tlt r.
Proof. unfold session. intros [= -> -> -> _]. done. Qed.

Lemma holds_remaining r rem : holds r rem -> remaining r = length rem.
Proof. intros [<- _]. unfold remaining, unread. by rewrite length_app. Qed.

(** One call of [ReadEntry] against one decoding step on text. *)
Lemma ReadEntry_follows tl r s x s' :
  agree tl r s ->
  JSONText.entry tl s = Some (x, s') ->
  exists r', ReadEntry r = Ret (x, r') /\ agree tl r' s'.
Proof.
  intros (H & Hini & Hcnt & Htl). unfold ReadEntry, JSONText.entry.
  rewrite (holds_remaining _ _ H).
  destruct (Peek_holds blockSize r _ H) as [H0 Hs0].
  destruct (JSONReader.Peek blockSize r) as [pk r0]. cbn [snd] in *.
  destruct (session_fields _ _ Hs0) as (Hc0 & Hi0 & Ht0).
  rewrite Hi0, Hini, Ht0, Htl.
  destruct s as [rem opened cnt]. cbn [JSONText.rest JSONText.opened JSONText.count] in *.
  assert (forall r1 rem1 (y : Entry * option error),
            holds r1 rem1 -> session r1 = session r0 ->
            exists r', Ret (y, r1) = Ret (y, r')
                       /\ agree tl r' (JSONText.mkState rem1 opened cnt)) as Hstop.
  { intros r1 rem1 y Hh1 Hs1. exists r1. split; [done|].
    destruct (session_fields _ _ Hs1) as (Hc1 & Hi1 & Ht1).
    unfold agree. cbn. split; [done|]. split; [congruence|]. split; congruence. }
  assert (forall r1 rem1,
    holds r1 rem1 -> session r1 = session r0 ->
    (if isObject tl
     then '(key, val, err, rem2) ← JSONText.keyValuePair
                                      (JSONText.value (S (S (length rem)))) rem1;
          match err with
          | Some e => Some (mkEntry 0 key val, Some e, JSONText.mkState rem2 true cnt)
          | None => Some (mkEntry 0 key val, None, JSONText.mkState rem2 true (S cnt))
          end
     else '(val, err, rem2) ← JSONText.value (S (S (length rem))) rem1;
          match err with
          | Some e => Some (mkEntry (Z.of_nat cnt) "" val, Some e,
                            JSONText.mkState rem2 true cnt)
          | None => Some (mkEntry (Z.of_nat cnt) "" val, None,
                          JSONText.mkState rem2 true (S cnt))
          end) = Some (x, s') ->
    exists r',
      (if isObject (tlt (setInitialized r1))
       then '(key, val, err, r2) ← readKeyValuePair (readValue (S (S (length rem))))
                                      (setInitialized r1);
            match err with
            | Some e => Ret (mkEntry (Index Entry0) key val, Some e, r2)
            | None => Ret (mkEntry (Index Entry0) key val, None, countEntry r2)
            end
       else '(val, err, r2) ← readValue (S (S (length rem))) (setInitialized r1);
            match err with
            | Some e => Ret (mkEntry (Z.of_nat (entriesRead r2)) (Key Entry0) val, Some e, r2)
            | None => Ret (mkEntry (Z.of_nat (entriesRead r2)) (Key Entry0) val, None,
                           countEntry r2)
            end) = Ret (x, r')
      /\ agree tl r' s') as Hbody.
  { intros r1 rem1 Hh1 Hs1.
    destruct (session_fields _ _ Hs1) as (Hc1 & Hi1 & Ht1).
    assert (holds (setInitialized r1) rem1) as Hh1' by (by destruct r1).
    assert (tlt (setInitialized r1) = tl) as -> by (cbn; congruence).
    assert (entriesRead (setInitialized r1) = cnt) as Hcnt1 by (cbn; congruence).
    assert (forall r2 rem2,
              holds r2 rem2 -> session r2 = session (setInitialized r1) ->
              agree tl r2 (JSONText.mkState rem2 true cnt)
              /\ agree tl (countEntry r2) (JSONText.mkState rem2 true (S cnt))
              /\ entriesRead r2 = cnt) as Hagree.
    { intros r2 rem2 Hh2 Hs2.
      destruct (session_fields _ _ Hs2) as (Hc2 & Hi2 & Ht2). cbn in Hc2, Hi2, Ht2.
      unfold agree. cbn. destruct r2; cbn in *. subst.
      split; [split; [done|]; split; [done|]; split; congruence|].
      split; [|congruence]. split; [done|]. split; [done|]. split; congruence. }
    destruct (isObject tl).
    - destruct (JSONText.keyValuePair _ rem1) as [[[[key val] err] rem2]|] eqn:E; [|done].
      destruct (readKeyValuePair_follows _ _ (readValue_follows _) _ _ _ _ Hh1' E)
        as (r2 & -> & Hh2 & Hs2).
      cbn [mbind res_bind option_bind].
      destruct (Hagree r2 rem2 Hh2 Hs2) as (Ha & Hb & _).
      destruct err; intros [= <- <-]; eexists; (split; [done|]); done.
    - destruct (JSONText.value _ rem1) as [[[val err] rem2]|] eqn:E; [|done].
      destruct (readValue_follows _ _ _ _ _ Hh1' E) as (r2 & -> & Hh2 & Hs2).
      cbn [mbind res_bind option_bind].
      destruct (Hagree r2 rem2 Hh2 Hs2) as (Ha & Hb & ->).
      destruct err; intros [= <- <-]; eexists; (split; [done|]); done. }
  assert (tlt r0 = tl) as Htl0 by congruence.
  assert (forall r1, session r1 = session r0 ->
            tlt r1 = tl /\ initialized r1 = opened) as Hfld.
  { intros r1 Hs1. destruct (session_fields _ _ Hs1) as (_ & Hi1 & Ht1).
    split; congruence. }
  destruct opened.
  - cbn [mbind res_bind negb]. rewrite Htl0.
    destruct (readTokenChar_spec (if isObject tl then "}" else "]")%char r0 rem H0)
      as (r1 & -> & Hh1 & Hs1). cbn [mbind res_bind].
    destruct (Hfld r1 Hs1) as [Ht1 Hi1]. rewrite Hi1.
    destruct (JSONText.tokenChar _ rem) as [closed rem1]. cbn [fst snd] in *.
    destruct closed.
    { intros [= <- <-]. by apply Hstop. }
    destruct (readTokenChar_spec ","%char r1 rem1 Hh1) as (r2 & -> & Hh2 & Hs2).
    cbn [mbind res_bind].
    destruct (JSONText.tokenChar _ rem1) as [sep rem2]. cbn [fst snd] in *.
    destruct sep; cbn [negb].
    + apply Hbody; [done|congruence].
    + intros [= <- <-]. apply Hstop; [done|congruence].
  - rewrite ?Htl0.
    destruct (readTokenChar_spec (if isObject tl then "{" else "[")%char r0 rem H0)
      as (r1 & -> & Hh1 & Hs1). cbn [mbind res_bind].
    destruct (Hfld r1 Hs1) as [Ht1 Hi1]. rewrite Ht1.
    destruct (JSONText.tokenChar _ rem) as [isOpen rem1]. cbn [fst snd] in *.
    destruct isOpen; cbn [negb].
    2:{ intros [= <- <-]. by apply Hstop. }
    destruct (readTokenChar_spec (if isObject tl then "}" else "]")%char r1 rem1 Hh1)
      as (r2 & -> & Hh2 & Hs2). cbn [mbind res_bind].
    destruct (Hfld r2 ltac:(congruence)) as [Ht2 Hi2]. rewrite Hi2.
    destruct (JSONText.tokenChar _ rem1) as [closed rem2]. cbn [fst snd] in *.
    destruct closed.
    { intros [= <- <-]. apply Hstop; [done|congruence]. }
    cbn [mbind res_bind negb]. apply Hbody; [done|congruence].
Qed.

(** A run of [ReadEntry] calls against the same run on text. *)
Lemma run_follows tl n : forall r s xs,
  agree tl r s ->
  JSONText.run tl n s = Some xs ->
  JSONReader.run n r = Ret xs.
Proof.
  induction n as [|n IH]; intros r s xs Ha; cbn [JSONText.run JSONReader.run].
  - by intros [= <-].
  - destruct (JSONText.entry tl s) as [[x s1]|] eqn:E; [|done].
    destruct (ReadEntry_follows _ _ _ _ _ Ha E) as (r1 & -> & Ha1).
    cbn [mbind res_bind option_bind].
    destruct (JSONText.run tl n s1) as [xs1|] eqn:Er; [|done].
    rewrite (IH _ _ _ Ha1 Er). cbn [mbind res_bind option_bind]. by intros [= <-].
Qed.

Lemma agree_start tl text sch size :
  agree tl (NewJSONReaderSize tl (mkSource text sch) size) (JSONText.start text).
Proof.
  unfold agree, holds, unread. cbn. split; [|done]. split; [done|].
  unfold minReadBufferSize. lia.
Qed.

End Decoding.

(** C1, as stated, fails.  The same bytes, the same buffer size, two
    ways of chunking the reads: when everything arrives in one read the
    misspelt literal "nu" is compared inside the buffer and nothing is
    consumed, so the second and third calls fail on the separator; when
    the first read ends right after "nu", [extendBuffer] has moved "nu"
    out of the buffer before the comparison fails, the inner array
    swallows the error, and the second call returns the entry 1. *)
Lemma chunking_counterexample :
  JSONReader.run 3 cut.oneRead
  = Ret [(mkEntry 0 "" (VArray []), None);
         (Entry0, Some (Errorf "Expected: separator ','"));
         (Entry0, Some (Errorf "Expected: separator ','"))]
  /\ JSONReader.run 3 cut.twoReads
     = Ret [(mkEntry 0 "" (VArray []), None);
            (mkEntry 1 "" (VInt 1), None);
            (Entry0, Some io_EOF)]
  /\ JSONReader.run 3 cut.oneRead <> JSONReader.run 3 cut.twoReads.
Proof.
  assert (JSONReader.run 3 cut.oneRead
          = Ret [(mkEntry 0 "" (VArray []), None);
                 (Entry0, Some (Errorf "Expected: separator ','"));
                 (Entry0, Some (Errorf "Expected: separator ','"))]) as H1
    by (vm_compute; reflexivity).
  assert (JSONReader.run 3 cut.twoReads
          = Ret [(mkEntry 0 "" (VArray []), None);
                 (mkEntry 1 "" (VInt 1), None);
                 (Entry0, Some io_EOF)]) as H2
    by (vm_compute; reflexivity).
  split; [done|]. split; [done|]. rewrite H1, H2. discriminate.
Qed.

(** A string that is never closed: with a buffer that ends on the
    backslash and a single byte left in the stream, the index runs past
    the extended slice and the reader panics; with everything in the
    buffer it returns an error. *)
Example unclosed_string_at_buffer_end :
  JSONReader.run 1 (JSONReader.NewJSONReaderSize tlt_array (bufio.mkSource cut.escapeText []) 16)
  = Panic "index out of range"
  /\ JSONReader.run 1 (JSONReader.NewJSONReaderSize tlt_array
                         (bufio.mkSource cut.escapeText []) 4096)
     = Ret [(mkEntry 0 "" (VString ""),
             Some (Errorf ("Expected: closing '" ++ String dquote "' for string")%string))].
Proof. split; vm_compute; reflexivity. Qed.

(** C1, amended.  Take any text in which every value that starts with
    n, t or f spells out null, true or false, and every string is
    closed (the decoder on text answers).  Then, for every buffer size
    and every way the stream chunks its reads, the calls of [ReadEntry]
    return exactly the results of the decoder on text, errors and end of
    stream included: every committed token and every run of white space
    takes out of the stream its own bytes and no others. *)
Theorem chunking_invariance (tl : TopLevelType) (text : bytes) (n : nat)
    (xs : list (Entry * option error)) :
  JSONText.run tl n (JSONText.start text) = Some xs ->
  forall (sch : list nat) (size : nat),
    JSONReader.run n (JSONReader.NewJSONReaderSize tl (bufio.mkSource text sch) size)
    = Ret xs.
Proof.
  intros Hrun sch size.
  exact (run_follows tl n _ _ xs (agree_start tl text sch size) Hrun).
Qed.

Lemma chunking_invariance_witness :
  JSONReader.run 4
    (JSONReader.NewJSONReaderSize tlt_array
       (bufio.mkSource cut.sampleText [2; 0; 5; 1; 0; 0; 3]%nat) 16)
  = Ret [(mkEntry 0 "" (VBool true), None);
         (mkEntry 1 "" (VArray [VInt 1; VFloat (strconv.FDec false 25 2); VNull]), None);
         (mkEntry 2 "" (VString (String "a" (String dquote (String "b" "")))), None);
         (Entry0, Some io_EOF)].
Proof.
  apply (chunking_invariance tlt_array cut.sampleText 4).
  vm_compute. reflexivity.
Defined.

(* ------------------------------------------------------------------ *)
(** ** strconv and encoding/json: what is written is read back *)

Section Codec.
Import strconv json JSONText roundtrip.

Ltac eval_digit :=
  repeat match goal with
         | |- context [isDigit (Ascii ?a ?b ?c ?d ?e ?f ?g ?h)] =>
             let v := eval vm_compute in (isDigit (Ascii a b c d e f g h)) in
             change (isDigit (Ascii a b c d e f g h)) with v
         | |- context [digitVal (Ascii ?a ?b ?c ?d ?e ?f ?g ?h)] =>
             let v := eval vm_compute in (digitVal (Ascii a b c d e f g h)) in
             change (digitVal (Ascii a b c d e f g h)) with v
         end; cbv iota.

Lemma digitChars_digits d : forallb isDigit (digitChars d) = true.
Proof.
  induction d; cbn [digitChars NilEmpty.string_of_uint bytes_of forallb]; [done|..];
    eval_digit; exact IHd.
Qed.

Lemma digitsValue_acc d : forall acc : positive,
  digitsValue (Z.pos acc) (digitChars d) = Some (Z.pos (Pos.of_uint_acc d acc)).
Proof.
  induction d; intros acc;
    cbn [digitChars NilEmpty.string_of_uint bytes_of digitsValue Pos.of_uint_acc];
    [done|..]; eval_digit;
    match goal with
    | |- digitsValue ?z _ = Some (Z.pos (Pos.of_uint_acc _ ?p)) =>
        replace z with (Z.pos p) by lia
    end; apply IHd.
Qed.

Lemma digitsValue_zero d :
  digitsValue 0 (digitChars d) = Some (Z.of_N (Pos.of_uint d)).
Proof.
  induction d;
    cbn [digitChars NilEmpty.string_of_uint bytes_of digitsValue Pos.of_uint Z.of_N];
    [done|..]; eval_digit; [exact IHd|..];
    match goal with
    | |- digitsValue ?z _ = Some (Z.pos (Pos.of_uint_acc _ ?p)) =>
        replace z with (Z.pos p) by lia
    end; apply digitsValue_acc.
Qed.

Lemma to_uint_chars p :
  exists c l, digitChars (Pos.to_uint p) = c :: l /\ isDigit c = true.
Proof.
  pose proof (digitChars_digits (Pos.to_uint p)) as Hd.
  pose proof (Unsigned.of_to p) as Hof.
  destruct (digitChars (Pos.to_uint p)) as [|c l] eqn:E.
  - exfalso. unfold digitChars in E. destruct (Pos.to_uint p); try done.
  - exists c, l. split; [done|]. cbn in Hd. by apply andb_true_iff in Hd as [? _].
Qed.

Lemma Itoa_pos p : bytes_of (Itoa (Z.pos p)) = digitChars (Pos.to_uint p).
Proof.
  unfold Itoa, digitChars. cbn. unfold NilZero.string_of_uint.
  destruct (Pos.to_uint p) eqn:E; try done.
  pose proof (Unsigned.of_to p) as Hof. rewrite E in Hof. done.
Qed.

Lemma Itoa_neg p : bytes_of (Itoa (Z.neg p)) = "-"%char :: digitChars (Pos.to_uint p).
Proof.
  unfold Itoa, digitChars. cbn. unfold NilZero.string_of_uint.
  destruct (Pos.to_uint p) eqn:E; try done.
  pose proof (Unsigned.of_to p) as Hof. rewrite E in Hof. done.
Qed.

(** The bytes of a printed integer: an optional minus sign and digits. *)
Lemma Itoa_bytes z :
  startsNumber (bytes_of (Itoa z)) = true
  /\ forallb isNumberByte (bytes_of (Itoa z)) = true
  /\ existsb isFloatMark (bytes_of (Itoa z)) = false.
Proof.
  assert (forall l, forallb isDigit l = true -> forallb isNumberByte l = true) as Hnb.
  { induction l as [|c l IH]; cbn [forallb]; [done|]. intros [Hc Hl]%andb_true_iff.
    rewrite IH by done. unfold isNumberByte. by rewrite Hc. }
  destruct z as [|p|p].
  - done.
  - rewrite Itoa_pos. pose proof (digitChars_digits (Pos.to_uint p)) as Hd.
    destruct (to_uint_chars p) as (c & l & E & Hc). rewrite E in *.
    split; [cbn; by rewrite Hc|]. split; [by apply Hnb|by apply digits_no_mark].
  - rewrite Itoa_neg. pose proof (digitChars_digits (Pos.to_uint p)) as Hd.
    split; [done|]. split; [cbn; by apply Hnb|cbn; by apply digits_no_mark].
Qed.

(** [Atoi] inverts [Itoa] on the range of [int]. *)
Lemma Atoi_Itoa z :
  (MinInt64 <= z <= MaxInt64)%Z -> Atoi (Itoa z) = (z, None).
Proof.
  intros Hz. unfold Atoi. destruct z as [|p|p].
  - done.
  - rewrite Itoa_pos. destruct (to_uint_chars p) as (c & l & E & Hc).
    pose proof (digitsValue_zero (Pos.to_uint p)) as Hv.
    rewrite Unsigned.of_to in Hv. rewrite E in *.
    assert (match c :: l with
            | "-"%char :: ds => (true, ds)
            | "+"%char :: ds => (false, ds)
            | _ => (false, c :: l)
            end = (false, c :: l)) as ->.
    { destruct c as [[] [] [] [] [] [] [] []]; try done. }
    rewrite Hv. cbn [negb andb].
    replace (MaxInt64 <? Z.of_N (N.pos p))%Z with false by (symmetry; apply Z.ltb_ge; lia).
    done.
  - rewrite Itoa_neg.
    pose proof (digitsValue_zero (Pos.to_uint p)) as Hv.
    rewrite Unsigned.of_to in Hv.
    destruct (to_uint_chars p) as (c & l & E & Hc). rewrite E in *.
    rewrite Hv. cbn [negb andb].
    replace (- MinInt64 <? Z.of_N (N.pos p))%Z with false
      by (symmetry; apply Z.ltb_ge; unfold MinInt64 in *; lia).
    done.
Qed.

Ltac eval_escape :=
  match goal with
  | |- context [escapeByte ?b] =>
      let e := eval vm_compute in (escapeByte b) in
      change (escapeByte b) with e
  end.

Lemma scan_escapeByte b l :
  scanString (escapeByte b ++ l)
  = (fun n => length (escapeByte b) + n)%nat <$> scanString l.
Proof.
  destruct b as [[] [] [] [] [] [] [] []]; eval_escape; cbn;
    destruct (scanString l); reflexivity.
Qed.

Ltac eval_below :=
  repeat match goal with
         | |- context [(code ?c <? 128)%N] =>
             let e := eval vm_compute in (code c <? 128)%N in
             change (code c <? 128)%N with e
         end.

Lemma below_code b : (code b <? 128)%N = true -> exists b0 b1 b2 b3 b4 b5 b6,
  b = Ascii b0 b1 b2 b3 b4 b5 b6 false.
Proof.
  destruct b as [b0 b1 b2 b3 b4 b5 b6 []]; [|by eexists _, _, _, _, _, _, _].
  destruct b0, b1, b2, b3, b4, b5, b6; vm_compute; discriminate.
Qed.

Lemma unquote_escapeByte b l :
  (code b <? 128)%N = true ->
  unquoteBody 0 (escapeByte b ++ l) = cons b <$> unquoteBody 0 l.
Proof.
  intros (b0 & b1 & b2 & b3 & b4 & b5 & b6 & ->)%below_code.
  destruct b0, b1, b2, b3, b4, b5, b6; eval_escape;
    cbn [app unquoteBody Ascii.eqb Bool.eqb dquote LF backslash]; eval_below;
    cbv iota; try reflexivity.
  all: match goal with
       | |- context [unicodeEscape ?x] =>
           let e := eval vm_compute in (unicodeEscape x) in
           change (unicodeEscape x) with e
       end.
  all: reflexivity.
Qed.

(** A byte at or above [utf8.RuneSelf] is none of the bytes that the
    scanners give a meaning. *)
Lemma above_plain c :
  (code c <? 128)%N = false ->
  (c =? dquote)%char = false /\ (c =? LF)%char = false /\ (c =? backslash)%char = false.
Proof.
  intros H. repeat split; apply Ascii.eqb_neq; intros ->; vm_compute in H; discriminate.
Qed.

Lemma inRange_above lo hi c :
  inRange lo hi c = true -> (128 <= lo)%N -> (128 <=? code c)%N = true.
Proof.
  unfold inRange. intros [H _]%andb_true_iff Hlo.
  apply N.leb_le in H. apply N.leb_le. lia.
Qed.

Lemma second_above c1 c2 : second c1 c2 = true -> (128 <=? code c2)%N = true.
Proof.
  unfold second, isCont.
  repeat (destruct (_ =? _)%N); intros H; by apply (inRange_above _ _ _ H).
Qed.

Lemma isCont_above c : isCont c = true -> (128 <=? code c)%N = true.
Proof. intros H. by apply (inRange_above _ _ _ H). Qed.

(** What [runeLen] looks at: a leading byte above [utf8.RuneSelf] and
    as many bytes above it as the encoding has more. *)
Lemma runeLen_conts c l n :
  runeLen (c :: l) = S n -> conts n l = true.
Proof.
  unfold runeLen. destruct l as [|c2 l2]; [done|].
  destruct (inRange 194 223 c).
  { destruct (isCont c2) eqn:E2; [|done]. intros [= <-]. cbn.
    by rewrite (isCont_above _ E2). }
  destruct (inRange 224 239 c).
  { destruct l2 as [|c3 l3]; [done|].
    destruct (second c c2) eqn:E2; [|done]. destruct (isCont c3) eqn:E3; [|done].
    intros [= <-]. cbn. by rewrite (second_above _ _ E2), (isCont_above _ E3). }
  destruct (inRange 240 244 c); [|done].
  destruct l2 as [|c3 [|c4 l4]]; try done.
  destruct (second c c2) eqn:E2; [|done]. destruct (isCont c3) eqn:E3; [|done].
  destruct (isCont c4) eqn:E4; [|done].
  intros [= <-]. cbn.
  by rewrite (second_above _ _ E2), (isCont_above _ E3), (isCont_above _ E4).
Qed.

(** [runeLen] depends on the bytes of the encoding only. *)
Lemma runeLen_prefix c l l' n :
  runeLen (c :: l) = S n -> take n l' = take n l -> runeLen (c :: l') = S n.
Proof.
  unfold runeLen. destruct l as [|c2 l2]; [done|].
  destruct (inRange 194 223 c).
  { destruct (isCont c2) eqn:E2; [|done]. intros [= <-].
    destruct l' as [|d2 l2']; [done|]. intros [= ->]. by rewrite E2. }
  destruct (inRange 224 239 c).
  { destruct l2 as [|c3 l3]; [done|].
    destruct (second c c2) eqn:E2; [|done]. destruct (isCont c3) eqn:E3; [|done].
    intros [= <-]. destruct l' as [|d2 [|d3 l3']]; try done.
    intros [= -> ->]. by rewrite E2, E3. }
  destruct (inRange 240 244 c); [|done].
  destruct l2 as [|c3 [|c4 l4]]; try done.
  destruct (second c c2) eqn:E2; [|done]. destruct (isCont c3) eqn:E3; [|done].
  destruct (isCont c4) eqn:E4; [|done].
  intros [= <-]. destruct l' as [|d2 [|d3 [|d4 l4']]]; try done.
  intros [= -> -> ->]. by rewrite E2, E3, E4.
Qed.

Lemma conts_cons k c l :
  conts (S k) (c :: l) = true -> (code c <? 128)%N = false /\ conts k l = true.
Proof.
  cbn. intros [H ?]%andb_true_iff. split; [|done].
  apply N.leb_le in H. apply N.ltb_ge. lia.
Qed.

(** In copy mode the bytes of the encoding are written as they are. *)
Lemma escapeRunes_take k l :
  conts k l = true -> take k (escapeRunes k true l) = take k l.
Proof.
  revert l. induction k as [|k IH]; intros l; [by rewrite !take_0|].
  destruct l as [|c l]; [done|]. intros [_ Hc]%conts_cons.
  cbn [escapeRunes app take]. by rewrite IH.
Qed.

Lemma escapeRunes_length k l :
  conts k l = true -> (k <= length (escapeRunes k true l))%nat.
Proof.
  revert l. induction k as [|k IH]; intros l Hk; [lia|].
  destruct l as [|c l]; [done|]. apply conts_cons in Hk as [_ Hk].
  cbn [escapeRunes app length]. specialize (IH l Hk). lia.
Qed.

Lemma scan_above c l :
  (code c <? 128)%N = false -> scanString (c :: l) = S <$> scanString l.
Proof.
  intros (Hq & _ & Hb)%above_plain. cbn [scanString]. by rewrite Hb, Hq.
Qed.

Lemma scan_escaped l : forall k keep rest,
  conts k l = true ->
  scanString (escapeRunes k keep l ++ dquote :: rest)
  = Some (S (length (escapeRunes k keep l))).
Proof.
  induction l as [|b l IH]; intros k keep rest Hk.
  - by destruct k.
  - destruct k as [|k].
    + cbn [escapeRunes]. destruct (code b <? 128)%N eqn:Eb.
      * rewrite <- app_assoc, scan_escapeByte, IH by done.
        cbn. by rewrite length_app, Nat.add_succ_r.
      * destruct (runeLen (b :: l)) as [|n] eqn:En.
        -- cbn [app scanString Ascii.eqb Bool.eqb backslash dquote].
           rewrite IH by done. cbn. do 2 f_equal.
        -- pose proof (runeLen_conts _ _ _ En) as Hn.
           destruct (lineSep (b :: l)) as [h|] eqn:Eh.
           ++ assert (h = "8" \/ h = "9")%char as Hh.
              { revert Eh. unfold lineSep. destruct l as [|? [|? ?]]; try done.
                repeat (destruct (_ =? _)%N; cbn); intros [= <-]; auto. }
              destruct Hh as [-> | ->];
                cbn [app scanString Ascii.eqb Bool.eqb backslash dquote];
                rewrite IH by done; cbn; do 2 f_equal.
           ++ cbn [app]. rewrite scan_above, IH by done. done.
    + apply conts_cons in Hk as [Hb Hk]. cbn [escapeRunes]. destruct keep; cbn [app].
      * rewrite scan_above, IH by done. done.
      * by rewrite IH.
Qed.

Lemma code_eq c n : (code c =? n)%N = true -> c = ascii_of_N n.
Proof.
  intros H%N.eqb_eq. unfold code in H. by rewrite <- H, ascii_N_embedding.
Qed.

Lemma unquote_escaped l : forall (k : nat) (keep : bool),
  conts k l = true ->
  ValidString k l = true ->
  unquoteBody (if keep then k else 0%nat) (escapeRunes k keep l ++ [dquote])
  = Some (if keep then l else drop k l).
Proof.
  induction l as [|b l IH]; intros k keep Hk Hv.
  - destruct k; [|done]. by destruct keep.
  - destruct k as [|k].
    + assert (unquoteBody 0 (escapeRunes 0 keep (b :: l) ++ [dquote]) = Some (b :: l));
        [|by destruct keep].
      cbn [escapeRunes]. cbn [ValidString] in Hv.
      destruct (code b <? 128)%N eqn:Eb.
      * rewrite <- app_assoc, unquote_escapeByte by done.
        by rewrite (IH 0%nat true).
      * destruct (runeLen (b :: l)) as [|n] eqn:En; [done|].
        pose proof (runeLen_conts _ _ _ En) as Hn.
        destruct (above_plain b Eb) as (Hq & Hlf & Hbs).
        destruct (lineSep (b :: l)) as [h|] eqn:Eh.
        -- revert Eh En. unfold lineSep. destruct l as [|c2 [|c3 l3]]; try done.
           destruct (code b =? 226)%N eqn:E1; [|done].
           destruct (code c2 =? 128)%N eqn:E2; [|done]. cbn [andb].
           apply code_eq in E1, E2. subst b c2.
           intros Eh En.
           assert (n = 2%nat) as ->.
           { revert En. unfold runeLen.
             change (inRange 194 223 (ascii_of_N 226)) with false.
             change (inRange 224 239 (ascii_of_N 226)) with true.
             cbv iota. destruct (_ && _); by intros [= <-]. }
           specialize (IH 2%nat false Hn Hv). cbn [drop] in IH.
           destruct (code c3 =? 168)%N eqn:E3.
           ++ injection Eh as <-. apply code_eq in E3. subst c3.
              cbn [app unquoteBody Ascii.eqb Bool.eqb dquote LF backslash].
              change (unicodeEscape ["2"; "0"; "2"; "8"]%char)
                with (Some [ascii_of_N 226; ascii_of_N 128; ascii_of_N 168]).
              cbv iota. by rewrite IH.
           ++ destruct (code c3 =? 169)%N eqn:E4; [|done].
              injection Eh as <-. apply code_eq in E4. subst c3.
              cbn [app unquoteBody Ascii.eqb Bool.eqb dquote LF backslash].
              change (unicodeEscape ["2"; "0"; "2"; "9"]%char)
                with (Some [ascii_of_N 226; ascii_of_N 128; ascii_of_N 169]).
              cbv iota. by rewrite IH.
        -- cbn [app unquoteBody]. rewrite Hq, Hlf, Hbs, Eb.
           rewrite (runeLen_prefix b l (escapeRunes n true l ++ [dquote]) n En).
           ++ by rewrite (IH n true).
           ++ rewrite take_app_le by (by apply escapeRunes_length).
              by apply escapeRunes_take.
    + apply conts_cons in Hk as [Hb Hk]. cbn [ValidString] in Hv.
      cbn [escapeRunes]. destruct keep; cbn [app].
      * cbn [unquoteBody]. by rewrite (IH k true).
      * cbn [drop]. by rewrite (IH k false).
Qed.

Lemma asciiOnly_valid s : asciiOnly s -> validText s.
Proof.
  unfold asciiOnly, validText. induction 1 as [|c l Hc _ IH]; [done|].
  cbn [ValidString]. by replace (code c <? 128)%N with true
    by (symmetry; by apply N.ltb_lt).
Qed.

(** A string of valid UTF-8 written by [Marshal] is read back whole. *)
Lemma string_roundtrip s rest :
  validText s ->
  string_ (marshalString s ++ rest) = Some ((s, None), rest).
Proof.
  intros Hv. unfold string_, marshalString, escapeString. cbn [app skipWs].
  change (JSONReader.isWhitespace dquote) with false. cbv iota.
  rewrite Ascii.eqb_refl, <- app_assoc. cbn [app].
  rewrite scan_escaped by done. cbn [mbind option_bind].
  set (esc := escapeRunes 0 true (bytes_of s)).
  assert (take (S (length esc)) (esc ++ dquote :: rest) = esc ++ [dquote]) as ->.
  { replace (dquote :: rest) with ([dquote] ++ rest) by done.
    rewrite app_assoc, take_app_length'; [done|]. rewrite length_app. cbn. lia. }
  assert (drop (S (length esc)) (esc ++ dquote :: rest) = rest) as ->.
  { replace (dquote :: rest) with ([dquote] ++ rest) by done.
    rewrite app_assoc, drop_app_length'; [done|]. rewrite length_app. cbn. lia. }
  unfold Unquote. rewrite list_ascii_of_string_of_list_ascii, Ascii.eqb_refl.
  unfold esc. rewrite (unquote_escaped (bytes_of s) 0 true) by done.
  by rewrite string_of_list_ascii_of_string.
Qed.

End Codec.

(* ------------------------------------------------------------------ *)
(** ** Reading back what [Marshal] wrote *)

Section ValueRoundTrip.
Import strconv json JSONText roundtrip.

Lemma valueStart_not_ws c : valueStart c = true -> JSONReader.isWhitespace c = false.
Proof. destruct c as [[] [] [] [] [] [] [] []]; done. Qed.

Lemma startsNumber_valueStart c l : startsNumber (c :: l) = true -> valueStart c = true.
Proof. cbn. destruct c as [[] [] [] [] [] [] [] []]; done. Qed.

Lemma tokenChar_hit ch l :
  JSONReader.isWhitespace ch = false -> tokenChar ch (ch :: l) = (true, l).
Proof. intros H. unfold tokenChar. cbn [skipWs]. by rewrite H, Ascii.eqb_refl. Qed.

Lemma tokenChar_miss ch c l :
  JSONReader.isWhitespace c = false -> (c =? ch)%char = false ->
  tokenChar ch (c :: l) = (false, c :: l).
Proof. intros H Hne. unfold tokenChar. cbn [skipWs]. by rewrite H, Hne. Qed.

Lemma peekChar_start c l :
  JSONReader.isWhitespace c = false -> peekChar (c :: l) = (c, c :: l).
Proof. intros H. unfold peekChar. cbn [skipWs]. by rewrite H. Qed.

Lemma span_exact p a b :
  forallb p a = true ->
  match b with c :: _ => p c = false | [] => True end ->
  span p (a ++ b) = (a, b).
Proof.
  induction a as [|c a IH]; cbn [app forallb span].
  - intros _ Hb. destruct b as [|c b]; [done|]. cbn. by rewrite Hb.
  - intros [Hc Ha]%andb_true_iff Hb. by rewrite Hc, IH.
Qed.

(** A number written without white space and followed by a delimiter
    is scanned whole. *)
Lemma number_exact bs rest :
  startsNumber bs = true ->
  forallb isNumberByte bs = true ->
  delimited rest ->
  number (bs ++ rest)
  = ((if existsb isFloatMark bs
      then VFloat (ParseFloat (string_of bs)).1
      else VInt (Atoi (string_of bs)).1,
      if existsb isFloatMark bs
      then (ParseFloat (string_of bs)).2
      else (Atoi (string_of bs)).2), rest).
Proof.
  intros Hs Hall Hd. unfold number, numberRun.
  destruct bs as [|c bs]; [done|].
  assert (skipWs ((c :: bs) ++ rest) = (c :: bs) ++ rest) as ->.
  { cbn [app skipWs]. by rewrite (valueStart_not_ws c (startsNumber_valueStart _ _ Hs)). }
  rewrite (span_exact _ _ _ Hall Hd). by destruct (existsb isFloatMark (c :: bs)).
Qed.

Lemma value_number fuel c l :
  startsNumber (c :: l) = true ->
  value (S fuel) (c :: l) = Some (number (c :: l)).
Proof.
  intros Hs. cbn [value].
  rewrite (peekChar_start c l (valueStart_not_ws c (startsNumber_valueStart _ _ Hs))).
  cbn in Hs. destruct c as [[] [] [] [] [] [] [] []]; done.
Qed.

Lemma allSome_Forall2 {A} (l : list (option A)) (xs : list A) :
  allSome l = Some xs <-> Forall2 (fun o x => o = Some x) l xs.
Proof.
  revert xs. induction l as [|[a|] l IH]; intros xs; cbn.
  - split; [intros [= <-]; constructor|by inversion 1].
  - destruct (allSome l) as [ys|]; cbn.
    + split.
      * intros [= <-]. constructor; [done|]. by apply IH.
      * inversion 1 as [|? ? ? ? Ha Hf]; subst. injection Ha as <-.
        apply IH in Hf. by injection Hf as ->.
    + split; [done|]. inversion 1 as [|? ? ? ? Ha Hf]; subst. by apply IH in Hf.
  - split; [done|]. by inversion 1.
Qed.

(** Commas before every part but the first. *)
Lemma join_cons p ps :
  join [","%char] (p :: ps) = p ++ concat (map (cons ","%char) ps).
Proof.
  revert p. induction ps as [|q ps IH]; intros p.
  - cbn. by rewrite app_nil_r.
  - change (join [","%char] (p :: q :: ps))
      with (p ++ [","%char] ++ join [","%char] (q :: ps)).
    by rewrite IH.
Qed.

Lemma commas_length (ps : list bytes) :
  (length ps <= length (concat (map (cons ","%char) ps)))%nat.
Proof.
  induction ps as [|p ps IH]; cbn; [done|]. rewrite length_app. lia.
Qed.

Lemma commas_part (ps : list bytes) p :
  p ∈ ps -> (length p < length (concat (map (cons ","%char) ps)))%nat.
Proof.
  induction ps as [|q ps IH]; [by intros ?%elem_of_nil|].
  intros [->|Hin]%elem_of_cons; cbn; rewrite length_app; [lia|].
  specialize (IH Hin). lia.
Qed.

Lemma join_part (ps : list bytes) p :
  p ∈ ps -> (length p <= length (join [","%char] ps))%nat.
Proof.
  destruct ps as [|q ps]; [by intros ?%elem_of_nil|].
  rewrite join_cons, length_app.
  intros [->|Hin]%elem_of_cons; [lia|]. pose proof (commas_part _ _ Hin). lia.
Qed.

Lemma join_count (ps : list bytes) :
  (length ps <= S (length (join [","%char] ps)))%nat.
Proof.
  destruct ps as [|q ps]; [cbn; lia|].
  rewrite join_cons, length_app. pose proof (commas_length ps). cbn. lia.
Qed.

Lemma delimited_commas (ps : list bytes) (c : ascii) rest :
  isNumberByte c = false ->
  delimited (concat (map (cons ","%char) ps) ++ c :: rest).
Proof. intros Hc. destruct ps; cbn; done. Qed.

Lemma Marshal_array l bs :
  Marshal (VArray l) = Some bs ->
  exists parts, Forall2 (fun v p => Marshal v = Some p) l parts
                /\ bs = "["%char :: join [","%char] parts ++ ["]"%char].
Proof.
  cbn [Marshal]. destruct (allSome (map Marshal l)) as [parts|] eqn:E; [|done].
  intros [= <-]. exists parts. split; [|done].
  apply allSome_Forall2 in E. by apply Forall2_fmap_l in E.
Qed.

Lemma Marshal_object (m : gmap string Value) bs :
  Marshal (VObject m) = Some bs ->
  exists (pairs : list (string * Value)) (kvs : list (string * bytes)),
    pairs ≡ₚ map_to_list m
    /\ Forall2 (fun kv kb => kb.1 = kv.1 /\ Marshal kv.2 = Some kb.2) pairs kvs
    /\ bs = "{"%char :: join [","%char] (map member kvs) ++ ["}"%char].
Proof.
  cbn [Marshal].
  destruct (allSome (map liftMember (merge_sort keyLe (map_to_list (Marshal <$> m)))))
    as [kvs|] eqn:E; [|done].
  intros [= <-].
  assert (merge_sort keyLe (map_to_list (Marshal <$> m))
          ≡ₚ map (prod_map id Marshal) (map_to_list m)) as Hperm.
  { rewrite merge_sort_Permutation. by rewrite map_to_list_fmap. }
  apply Permutation_map_inv in Hperm as (pairs & Heq & Hp).
  exists pairs, kvs. split; [by symmetry|]. split; [|done].
  rewrite Heq in E. apply allSome_Forall2 in E.
  rewrite map_map in E. apply Forall2_fmap_l in E.
  eapply Forall2_impl; [exact E|]. intros [k v] [k' b]. unfold liftMember. cbn.
  destruct (Marshal v); cbn; [|done]. by intros [= -> ->].
Qed.

Lemma allSome_is_Some {A} (l : list (option A)) :
  Forall is_Some l -> is_Some (allSome l).
Proof.
  induction 1 as [|o l [a ->] _ [xs IH]]; cbn; [by eexists|]. rewrite IH. by eexists.
Qed.

(** Every portable value has an encoding, and it starts with a byte
    that tells its kind. *)
Lemma Marshal_start v :
  Portable v -> exists c bs, Marshal v = Some (c :: bs) /\ valueStart c = true.
Proof.
  induction 1 as [|b|z Hz|f Hf|s Hs|l Hl IH|m Hk Hm IH].
  - by eexists _, _.
  - destruct b; by eexists _, _.
  - cbn [Marshal]. destruct (Itoa_bytes z) as (Hs & _ & _).
    destruct (bytes_of (Itoa z)) as [|c bs] eqn:E; [done|].
    exists c, bs. split; [done|]. by eapply startsNumber_valueStart.
  - cbn [Marshal]. unfold floatOk in Hf.
    destruct (marshalFloat f) as [[|c bs]|]; [done| |done].
    apply andb_true_iff in Hf as [[[Hs _]%andb_true_iff _]%andb_true_iff _].
    exists c, bs. split; [done|]. by eapply startsNumber_valueStart.
  - by eexists _, _.
  - cbn [Marshal].
    destruct (allSome_is_Some (map Marshal l)) as [parts ->].
    { apply Forall_fmap, Forall_forall. intros v Hv.
      destruct (IH v Hv) as (c & bs & Hc & _). cbn. rewrite Hc. by eexists. }
    by eexists _, _.
  - cbn [Marshal].
    destruct (allSome_is_Some
                (map liftMember (merge_sort keyLe (map_to_list (Marshal <$> m)))))
      as [kvs ->]; [|by eexists _, _].
    apply Forall_fmap, Forall_forall. intros [k ob] Hin.
    rewrite merge_sort_Permutation in Hin.
    apply elem_of_map_to_list in Hin. rewrite lookup_fmap in Hin.
    destruct (m !! k) as [v|] eqn:Ev; [|done]. cbn in Hin. injection Hin as <-.
    destruct (IH k v Ev) as (c & bs & Hc & _). unfold liftMember. cbn. rewrite Hc.
    by eexists.
Qed.

Lemma arrayLoop_roundtrip f rest l ps : forall acc fuel,
  Forall2 (fun v p => forall rest', delimited rest' ->
                        value f (p ++ rest') = Some ((v, None), rest')) l ps ->
  (length l < fuel)%nat ->
  arrayLoop (value f) fuel acc (concat (map (cons ","%char) ps) ++ "]"%char :: rest)
  = Some ((VArray (acc ++ l), None), rest).
Proof.
  intros acc fuel H. revert acc fuel.
  induction H as [|v p l ps Hv _ IH]; intros acc fuel Hfuel;
    (destruct fuel as [|fuel]; [simpl in Hfuel; lia|]); cbn [arrayLoop map concat app].
  - rewrite tokenChar_hit by done. by rewrite app_nil_r.
  - rewrite tokenChar_miss by done. rewrite tokenChar_hit by done. cbn [negb].
    rewrite <- app_assoc, Hv by (by apply delimited_commas).
    cbn [mbind option_bind]. rewrite IH by (simpl in Hfuel; lia).
    by rewrite <- app_assoc.
Qed.

Lemma keyValuePair_roundtrip f k b v rest :
  validText k ->
  value f (b ++ rest) = Some ((v, None), rest) ->
  keyValuePair (value f) (member (k, b) ++ rest) = Some (((k, v), None), rest).
Proof.
  intros Hk Hv. unfold keyValuePair, member. cbn [fst snd].
  rewrite <- app_assoc, string_roundtrip by done. cbn [mbind option_bind app].
  rewrite tokenChar_hit by done. cbn [negb]. by rewrite Hv.
Qed.

Lemma objectLoop_roundtrip f rest (pairs : list (string * Value)) kvs : forall acc fuel,
  Forall2 (fun kv kb => kb.1 = kv.1 /\ validText kv.1
                        /\ forall rest', delimited rest' ->
                              value f (kb.2 ++ rest') = Some ((kv.2, None), rest'))
          pairs kvs ->
  (length pairs < fuel)%nat ->
  objectLoop (value f) fuel acc
    (concat (map (cons ","%char) (map member kvs)) ++ "}"%char :: rest)
  = Some ((VObject (foldl (fun a kv => <[kv.1 := kv.2]> a) acc pairs), None), rest).
Proof.
  intros acc fuel H. revert acc fuel.
  induction H as [|[k v] [k' b] pairs kvs (Hk & Hkv & Hv) _ IH]; intros acc fuel Hfuel;
    (destruct fuel as [|fuel]; [simpl in Hfuel; lia|]); cbn [objectLoop map concat app].
  - by rewrite tokenChar_hit by done.
  - cbn [fst snd] in *. subst k'.
    rewrite tokenChar_miss by done. rewrite tokenChar_hit by done. cbn [negb].
    rewrite <- app_assoc.
    rewrite (keyValuePair_roundtrip f k b v) by (done || by apply Hv, delimited_commas).
    cbn [mbind option_bind]. by rewrite IH by (simpl in Hfuel; lia).
Qed.

Lemma foldl_insert_list (pairs : list (string * Value)) : forall acc : gmap string Value,
  foldl (fun a kv => <[kv.1 := kv.2]> a) acc pairs = list_to_map (reverse pairs) ∪ acc.
Proof.
  induction pairs as [|[k v] pairs IH]; intros acc; cbn [foldl].
  - cbn. by rewrite (left_id_L ∅ (∪)).
  - rewrite IH, reverse_cons, list_to_map_app. cbn [list_to_map fst snd].
    rewrite <- (assoc_L (∪)). f_equal.
    by rewrite insert_union_singleton_l, <- insert_empty.
Qed.

Lemma foldl_insert_map (pairs : list (string * Value)) (m : gmap string Value) :
  pairs ≡ₚ map_to_list m ->
  foldl (fun a kv => <[kv.1 := kv.2]> a) ∅ pairs = m.
Proof.
  intros Hp. rewrite foldl_insert_list, (right_id_L ∅ (∪)).
  rewrite <- (list_to_map_to_list m). apply list_to_map_proper.
  - rewrite fmap_reverse, reverse_Permutation, Hp. apply NoDup_fst_map_to_list.
  - by rewrite reverse_Permutation.
Qed.

Lemma literal_exact c tok rest :
  JSONReader.isWhitespace c = false ->
  literal (c :: tok) ((c :: tok) ++ rest) = Some rest.
Proof.
  intros Hc. unfold literal. cbn [app skipWs]. rewrite Hc.
  change (c :: tok ++ rest) with ((c :: tok) ++ rest).
  rewrite take_app_length, drop_app_length. by rewrite bool_decide_eq_true_2.
Qed.

Lemma Forall2_elem_impl {A B} (P Q : A -> B -> Prop) l k :
  Forall2 P l k ->
  (forall x y, x ∈ l -> y ∈ k -> P x y -> Q x y) ->
  Forall2 Q l k.
Proof.
  induction 1 as [|x y l k Hxy _ IH]; intros Himp; constructor.
  - apply Himp; [left|left|done].
  - apply IH. intros x' y' Hx Hy. apply Himp; by right.
Qed.

(** Decoding the encoding of a portable value gives the value back and
    consumes exactly the encoding. *)
Lemma value_roundtrip v :
  Portable v ->
  forall bs, Marshal v = Some bs ->
  forall fuel rest, (length bs < fuel)%nat -> delimited rest ->
  value fuel (bs ++ rest) = Some ((v, None), rest).
Proof.
  induction 1 as [|b|z Hz|f Hf|s Hs|l Hl IH|m Hk Hm IH];
    intros bs Hbs fuel rest Hfuel Hd;
    (destruct fuel as [|fuel]; [lia|]).
  - injection Hbs as <-. cbn [value list_ascii_of_string app].
    rewrite peekChar_start by done. cbv iota beta.
    change ("n" :: "u" :: "l" :: "l" :: rest)%char with (bytes_of "null" ++ rest).
    by rewrite (literal_exact "n"%char).
  - destruct b; injection Hbs as <-; cbn [value list_ascii_of_string app];
      rewrite peekChar_start by done; cbv iota beta.
    + change ("t" :: "r" :: "u" :: "e" :: rest)%char with (bytes_of "true" ++ rest).
      by rewrite (literal_exact "t"%char).
    + change ("f" :: "a" :: "l" :: "s" :: "e" :: rest)%char
        with (bytes_of "false" ++ rest).
      by rewrite (literal_exact "f"%char).
  - injection Hbs as <-. destruct (Itoa_bytes z) as (Hst & Hall & Hno).
    destruct (bytes_of (Itoa z)) as [|c bs] eqn:E; [done|].
    change ((c :: bs) ++ rest) with (c :: (bs ++ rest)).
    rewrite value_number by done.
    change (c :: (bs ++ rest)) with ((c :: bs) ++ rest).
    rewrite number_exact by done. rewrite Hno, <- E.
    by rewrite string_of_list_ascii_of_string, Atoi_Itoa.
  - cbn [Marshal] in Hbs. unfold floatOk in Hf. rewrite Hbs in Hf.
    apply andb_true_iff in Hf as [[[Hst Hall]%andb_true_iff Hmark]%andb_true_iff Hp].
    apply bool_decide_eq_true_1 in Hp.
    destruct bs as [|c bs]; [done|].
    change ((c :: bs) ++ rest) with (c :: (bs ++ rest)).
    rewrite value_number by done.
    change (c :: (bs ++ rest)) with ((c :: bs) ++ rest).
    rewrite number_exact by done. by rewrite Hmark, Hp.
  - injection Hbs as <-. unfold marshalString at 1. cbn [value app].
    rewrite peekChar_start by done. cbv iota beta.
    change (dquote :: (escapeString (bytes_of s) ++ [dquote]) ++ rest)
      with (marshalString s ++ rest).
    by rewrite string_roundtrip.
  - apply Marshal_array in Hbs as (parts & Hparts & ->).
    assert (Forall2 (fun v p => forall rest', delimited rest' ->
                       value fuel (p ++ rest') = Some ((v, None), rest')) l parts)
      as Hall.
    { eapply Forall2_elem_impl; [exact Hparts|]. intros v p Hv Hp Hm rest' Hd'.
      apply IH; [done|done| |done].
      pose proof (join_part _ _ Hp). cbn [length] in Hfuel.
      rewrite length_app in Hfuel. cbn [length] in Hfuel. lia. }
    assert (length l <= fuel)%nat as Hlen.
    { pose proof (join_count parts). rewrite <- (Forall2_length _ _ _ Hparts) in H.
      cbn [length] in Hfuel. rewrite length_app in Hfuel. cbn [length] in Hfuel. lia. }
    cbn [value app]. rewrite peekChar_start by done. cbv iota beta.
    unfold array_. rewrite tokenChar_hit by done. cbn [negb].
    destruct Hall as [|v p l parts Hv Hall].
    + cbn [join app]. by rewrite tokenChar_hit.
    + destruct (Marshal_start v) as (c & bs & Hc & Hstart); [apply Hl; left|].
      inversion Hparts as [|? ? ? ? Hvp _]; subst. rewrite Hc in Hvp.
      injection Hvp as <-.
      rewrite join_cons, <- !app_assoc. cbn [app].
      rewrite tokenChar_miss;
        [|by apply valueStart_not_ws|by destruct c as [[] [] [] [] [] [] [] []]].
      change (c :: bs ++ ?t) with ((c :: bs) ++ t).
      rewrite Hv by (by apply delimited_commas). cbn [mbind option_bind].
      rewrite (arrayLoop_roundtrip fuel rest l parts [v] fuel Hall)
        by (cbn [length] in Hlen; lia).
      done.
  - apply Marshal_object in Hbs as (pairs & kvs & Hperm & Hkvs & ->).
    assert (Forall2 (fun kv kb => kb.1 = kv.1 /\ validText kv.1
                       /\ forall rest', delimited rest' ->
                             value fuel (kb.2 ++ rest') = Some ((kv.2, None), rest'))
                    pairs kvs) as Hall.
    { eapply Forall2_elem_impl; [exact Hkvs|].
      intros [k v] [k' b] Hkv Hkb [Hk' Hm'] . cbn [fst snd] in *. split; [done|].
      assert (m !! k = Some v) as Hkm
        by (apply elem_of_map_to_list; by rewrite <- Hperm).
      split; [by apply (Hk k v)|].
      intros rest' Hd'. eapply (IH k); [|done| |done].
      - apply elem_of_map_to_list. by rewrite <- Hperm.
      - assert (member (k', b) ∈ map member kvs) as Hin
          by (by apply (list_elem_of_fmap_2 member)).
        pose proof (join_part _ _ Hin) as Hle. unfold member in Hle at 1.
        rewrite length_app in Hle. cbn [fst snd length] in Hle.
        cbn [length] in Hfuel. rewrite length_app in Hfuel. cbn [length] in Hfuel.
        lia. }
    assert (length pairs <= fuel)%nat as Hlen.
    { pose proof (join_count (map member kvs)) as Hc.
      rewrite length_map, <- (Forall2_length _ _ _ Hkvs) in Hc.
      cbn [length] in Hfuel. rewrite length_app in Hfuel. cbn [length] in Hfuel. lia. }
    cbn [value app]. rewrite peekChar_start by done. cbv iota beta.
    unfold object_. rewrite tokenChar_hit by done. cbn [negb].
    rewrite <- (foldl_insert_map pairs m Hperm).
    clear Hperm Hkvs. destruct Hall as [|[k v] [k' b] pairs kvs (Hk' & Hkv & Hv) Hall].
    + cbn [map join app foldl]. by rewrite tokenChar_hit.
    + cbn [fst snd] in *. subst k'. cbn [map]. rewrite join_cons, <- !app_assoc.
      change (["}"%char] ++ rest) with ("}"%char :: rest).
      set (t := concat _ ++ _).
      assert (tokenChar "}" (member (k, b) ++ t) = (false, member (k, b) ++ t)) as ->.
      { unfold member, marshalString. cbn [fst snd app]. by rewrite tokenChar_miss. }
      rewrite (keyValuePair_roundtrip fuel k b v) by (done || by apply Hv, delimited_commas).
      cbn [mbind option_bind]. subst t.
      by rewrite (objectLoop_roundtrip fuel rest pairs kvs _ fuel Hall)
        by (cbn [length] in Hlen; lia).
Qed.

End ValueRoundTrip.

(* ================================================================== *)
(** ** Documents: what a writer produces and what a reader finds in it *)

Section Documents.
Import strconv json JSONText roundtrip.

Lemma part_start tl e p :
  Portable (EValue e) -> encodeEntry tl e = Some p ->
  exists c l, p = c :: l /\ JSONReader.isWhitespace c = false
              /\ (c =? closeByte tl)%char = false.
Proof.
  intros Hp He. destruct tl; cbn [encodeEntry] in He.
  - destruct (Marshal_start _ Hp) as (c & l & Hc & Hs). rewrite Hc in He.
    injection He as <-. exists c, l. split; [done|].
    split; [by apply valueStart_not_ws|]. by destruct c as [[] [] [] [] [] [] [] []].
  - destruct (Marshal (EValue e)) as [b|]; [|done]. injection He as <-.
    by eexists _, _.
Qed.

Lemma docText_parts tl es text :
  docText tl es = Some text ->
  exists parts, Forall2 (fun e p => encodeEntry tl e = Some p) es parts
                /\ text = openByte tl :: join [","%char] parts ++ [closeByte tl].
Proof.
  unfold docText. destruct (allSome (map (encodeEntry tl) es)) as [parts|] eqn:E; [|done].
  intros [= <-]. exists parts. split; [|done].
  apply allSome_Forall2 in E. by apply Forall2_fmap_l in E.
Qed.

Lemma docText_ok tl es :
  Forall (entryOk tl) es -> is_Some (docText tl es).
Proof.
  intros Hes. unfold docText.
  destruct (allSome_is_Some (map (encodeEntry tl) es)) as [parts ->]; [|by eexists].
  apply Forall_fmap. eapply Forall_impl; [exact Hes|]. intros e [Hp _]. cbn.
  destruct (Marshal_start _ Hp) as (c & l & Hc & _).
  destruct tl; cbn [encodeEntry]; rewrite Hc; by eexists.
Qed.

(** One item of a document, after the separator. *)
Lemma item_roundtrip tl e p tail fuel :
  entryOk tl e -> encodeEntry tl e = Some p ->
  (length p < fuel)%nat -> delimited tail ->
  (if isObject tl
   then keyValuePair (value fuel) (p ++ tail)
        = Some (((Key e, EValue e), None), tail)
   else value fuel (p ++ tail) = Some ((EValue e, None), tail)).
Proof.
  intros [Hp Hkey] He Hfuel Hd. destruct tl; cbn [encodeEntry isObject] in *.
  - by apply value_roundtrip.
  - destruct (Marshal (EValue e)) as [b|] eqn:Eb; [|done]. cbn in He.
    injection He as <-.
    apply (keyValuePair_roundtrip fuel (Key e) b (EValue e) tail); [by apply Hkey|].
    apply value_roundtrip; [done|done| |done].
    cbn [length] in Hfuel. rewrite length_app in Hfuel. cbn [length] in Hfuel. lia.
Qed.

Lemma closeByte_not_ws tl : JSONReader.isWhitespace (closeByte tl) = false.
Proof. by destruct tl. Qed.

Lemma openByte_not_ws tl : JSONReader.isWhitespace (openByte tl) = false.
Proof. by destruct tl. Qed.

Lemma delimited_items tl (ps : list bytes) :
  delimited (concat (map (cons ","%char) ps) ++ [closeByte tl]).
Proof. destruct ps; [by destruct tl|done]. Qed.

Lemma run_S tl n s :
  run tl (S n) s = ('(x, s) ← entry tl s; xs ← run tl n s; Some (x :: xs)).
Proof. done. Qed.

Lemma entry_close tl i :
  entry tl (mkState [closeByte tl] true i)
  = Some ((Entry0, Some io_EOF), mkState [] true i).
Proof.
  unfold entry. cbn [opened rest count negb].
  change (if isObject tl then "}"%char else "]"%char) with (closeByte tl).
  by rewrite tokenChar_hit by apply closeByte_not_ws.
Qed.

Lemma entry_empty tl :
  entry tl (mkState [openByte tl; closeByte tl] false 0)
  = Some ((Entry0, Some io_EOF), mkState [] false 0).
Proof.
  unfold entry. cbn [opened rest count].
  change (if isObject tl then "}"%char else "]"%char) with (closeByte tl).
  change (if isObject tl then "{"%char else "["%char) with (openByte tl).
  rewrite tokenChar_hit by apply openByte_not_ws. cbn [negb].
  by rewrite tokenChar_hit by apply closeByte_not_ws.
Qed.

Lemma entry_result tl e i (isOpen : bool) p tail fuel :
  entryOk tl e -> encodeEntry tl e = Some p ->
  (length p < fuel)%nat -> delimited tail ->
  (if isObject tl
   then '(((key, val), err), rem) ← keyValuePair (value fuel) (p ++ tail);
        match err with
        | Some e => Some ((mkEntry 0 key val, Some e), mkState rem true i)
        | None => Some ((mkEntry 0 key val, None), mkState rem true (S i))
        end
   else '((val, err), rem) ← value fuel (p ++ tail);
        match err with
        | Some e => Some ((mkEntry (Z.of_nat i) "" val, Some e), mkState rem true i)
        | None => Some ((mkEntry (Z.of_nat i) "" val, None), mkState rem true (S i))
        end)
  = Some ((canon tl i e, None), mkState tail true (S i)).
Proof.
  intros Hp He Hfuel Hd.
  pose proof (item_roundtrip tl e p tail fuel Hp He Hfuel Hd) as Hitem.
  destruct tl; cbn [isObject] in *; by rewrite Hitem.
Qed.

(** An entry after the first: the separator, then the item. *)
Lemma entry_item tl e p tail i :
  entryOk tl e -> encodeEntry tl e = Some p -> delimited tail ->
  entry tl (mkState (","%char :: p ++ tail) true i)
  = Some ((canon tl i e, None), mkState tail true (S i)).
Proof.
  intros Hp He Hd. unfold entry. cbn [opened rest count negb].
  change (if isObject tl then "}"%char else "]"%char) with (closeByte tl).
  rewrite tokenChar_miss; [|done|by destruct tl].
  rewrite tokenChar_hit by done. cbn [negb].
  apply (entry_result tl e i true); [done|done| |done].
  cbn [length]. rewrite length_app. lia.
Qed.

(** The first entry: the opening byte, then the item. *)
Lemma entry_first tl e p tail :
  entryOk tl e -> encodeEntry tl e = Some p -> delimited tail ->
  entry tl (mkState (openByte tl :: p ++ tail) false 0)
  = Some ((canon tl 0 e, None), mkState tail true 1).
Proof.
  intros Hp He Hd. unfold entry. cbn [opened rest count].
  change (if isObject tl then "}"%char else "]"%char) with (closeByte tl).
  change (if isObject tl then "{"%char else "["%char) with (openByte tl).
  rewrite tokenChar_hit by apply openByte_not_ws. cbn [negb].
  destruct (part_start tl e p (proj1 Hp) He) as (c & l & -> & Hws & Hc).
  change ((c :: l) ++ tail) with (c :: (l ++ tail)).
  rewrite tokenChar_miss by done. cbn [negb].
  change (c :: (l ++ tail)) with ((c :: l) ++ tail).
  apply (entry_result tl e 0 true); [done|done| |done].
  cbn [length]. rewrite length_app. cbn [length]. lia.
Qed.

(** The entries after the first. *)
Lemma run_items tl es parts : forall i,
  Forall2 (fun e p => encodeEntry tl e = Some p) es parts ->
  Forall (entryOk tl) es ->
  run tl (S (length es))
      (mkState (concat (map (cons ","%char) parts) ++ [closeByte tl]) true i)
  = Some (imap (fun j e => (canon tl (i + j) e, None)) es
          ++ [(Entry0, Some io_EOF)]).
Proof.
  intros i H. revert i. induction H as [|e p es parts He _ IH]; intros i Hok.
  - cbn [length map concat app imap]. rewrite run_S, entry_close. by cbn.
  - apply Forall_cons in Hok as [Hp Hok].
    cbn [length map concat app]. rewrite run_S, <- app_assoc.
    rewrite (entry_item tl e p) by (done || apply delimited_items).
    cbn [mbind option_bind]. rewrite IH by done. cbn [mbind option_bind imap app].
    rewrite Nat.add_0_r. do 3 f_equal.
    apply imap_ext. intros j x _. cbn. do 3 f_equal. lia.
Qed.

(** Decoding a document gives its entries in order, then the end of
    the stream. *)
Lemma run_document tl es text :
  Forall (entryOk tl) es ->
  docText tl es = Some text ->
  run tl (S (length es)) (start text)
  = Some (imap (fun j e => (canon tl j e, None)) es ++ [(Entry0, Some io_EOF)]).
Proof.
  intros Hok (parts & Hparts & ->)%docText_parts. unfold start.
  destruct Hparts as [|e p es parts He Hparts].
  - cbn [join app length imap]. rewrite run_S, entry_empty. by cbn.
  - apply Forall_cons in Hok as [Hp Hok].
    rewrite join_cons, <- app_assoc. cbn [length]. rewrite run_S.
    rewrite (entry_first tl e p) by (done || apply delimited_items).
    cbn [mbind option_bind]. rewrite (run_items tl es parts 1 Hparts Hok).
    cbn [mbind option_bind imap app]. done.
Qed.

(** *** The writer *)

Lemma Write_unlimited p s :
  room s = None -> Write p s = (mkSink (out s ++ p) None, None).
Proof. intros H. unfold Write. by rewrite H. Qed.

Lemma WriteEntry_ok tl e p w :
  JSONWriter.tlt w = tl -> room (JSONWriter.wr w) = None ->
  encodeEntry tl e = Some p ->
  (tl = tlt_object ->
   Key e <> EmptyString /\ JSONWriter.keysWritten w !! Key e <> Some true) ->
  exists w',
    JSONWriter.WriteEntry e w = (w', None)
    /\ JSONWriter.tlt w' = tl /\ room (JSONWriter.wr w') = None
    /\ JSONWriter.rowsWritten w' = S (JSONWriter.rowsWritten w)
    /\ out (JSONWriter.wr w')
       = out (JSONWriter.wr w)
         ++ (if (JSONWriter.rowsWritten w =? 0)%nat then [openByte tl] else [","%char])
         ++ p
    /\ (forall k, JSONWriter.keysWritten w' !! k = Some true ->
                  (tl = tlt_object /\ k = Key e)
                  \/ JSONWriter.keysWritten w !! k = Some true).
Proof.
  intros Htl Hroom He Hkey. destruct w as [n tl' [o r] ks]. cbn in Htl, Hroom.
  subst tl' r. unfold JSONWriter.WriteEntry, JSONWriter.valBytes, JSONWriter.Marshal.
  cbn [JSONWriter.rowsWritten JSONWriter.tlt JSONWriter.wr JSONWriter.keysWritten
       JSONWriter.setWr] in *.
  destruct tl; cbn [encodeEntry isObject isArray openByte] in *.
  - rewrite He. unfold Write.
    destruct n as [|n]; cbn; (eexists; split; [reflexivity|]); cbn;
      rewrite <- ?app_assoc; auto 10.
  - destruct (Hkey eq_refl) as [Hne Hnew].
    destruct (json.Marshal (EValue e)) as [b|] eqn:Eb; [|done]. cbn in He.
    injection He as <-.
    apply String.eqb_neq in Hne. unfold Write.
    destruct n as [|n]; cbn; rewrite Hne, bool_decide_eq_false_2 by done; cbn;
      (eexists; split; [reflexivity|]); cbn; rewrite <- ?app_assoc.
    all: (do 4 (split; [done|])).
    all: intros k; (destruct (decide (Key e = k)) as [<-|Hk];
        [by left|rewrite lookup_insert_ne by done; by right]).
Qed.

(** The entries after the first are each written behind a comma. *)
Lemma writeAll_ok tl es parts : forall w,
  JSONWriter.tlt w = tl -> room (JSONWriter.wr w) = None ->
  JSONWriter.rowsWritten w <> 0%nat ->
  Forall2 (fun e p => encodeEntry tl e = Some p) es parts ->
  (tl = tlt_object ->
   Forall (fun e => Key e <> EmptyString) es /\ NoDup (map Key es)
   /\ forall e, e ∈ es -> JSONWriter.keysWritten w !! Key e <> Some true) ->
  exists w',
    JSONWriter.writeAll es w = (w', replicate (length es) None)
    /\ JSONWriter.tlt w' = tl /\ room (JSONWriter.wr w') = None
    /\ JSONWriter.rowsWritten w' <> 0%nat
    /\ out (JSONWriter.wr w')
       = out (JSONWriter.wr w) ++ concat (map (cons ","%char) parts).
Proof.
  intros w Htl Hroom Hrows H. revert w Htl Hroom Hrows.
  induction H as [|e p es parts He _ IH]; intros w Htl Hroom Hrows Hkeys.
  - exists w. cbn. by rewrite app_nil_r.
  - destruct (WriteEntry_ok tl e p w Htl Hroom He)
      as (w1 & Hw & Htl1 & Hroom1 & Hrows1 & Hout1 & Hk1).
    { intros Ho. destruct (Hkeys Ho) as (Hne & _ & Hnew).
      split; [by apply Forall_cons in Hne as [? _]|]. apply Hnew. left. }
    destruct (IH w1 Htl1 Hroom1) as (w2 & Hw2 & Htl2 & Hroom2 & Hrows2 & Hout2);
      [lia| |].
    { intros Ho. destruct (Hkeys Ho) as (Hne & Hnd & Hnew).
      apply Forall_cons in Hne as [_ Hne]. cbn [map] in Hnd.
      apply NoDup_cons in Hnd as [Hnotin Hnd].
      split; [done|]. split; [done|]. intros e' He' Hin.
      destruct (Hk1 _ Hin) as [[_ Heq]|Hold].
      - apply Hnotin. rewrite <- Heq. by apply (list_elem_of_fmap_2 Key).
      - apply (Hnew e'); [by right|done]. }
    exists w2. cbn [JSONWriter.writeAll length replicate map concat].
    rewrite Hw, Hw2. split; [done|]. split; [done|]. split; [done|]. split; [done|].
    rewrite Hout2, Hout1.
    destruct (JSONWriter.rowsWritten w) as [|n]; [done|]. cbn [Nat.eqb].
    by rewrite <- !app_assoc.
Qed.

(** A session on an empty buffer writes the document of its entries,
    and no call fails. *)
Lemma written_document tl es text :
  keysOk tl es -> docText tl es = Some text ->
  written tl es = ((replicate (length es) None, None), text).
Proof.
  intros Hkeys (parts & Hparts & ->)%docText_parts. unfold written.
  destruct Hparts as [|e p es parts He Hparts].
  - by destruct tl.
  - destruct (WriteEntry_ok tl e p (JSONWriter.NewJSONWriter tl (bufferSink [])))
      as (w1 & Hw & Htl1 & Hroom1 & Hrows1 & Hout1 & Hk1); [done|done|done| |].
    { intros Ho. destruct (Hkeys Ho) as [Hne _].
      split; [by apply Forall_cons in Hne as [? _]|done]. }
    destruct (writeAll_ok tl es parts w1) as (w2 & Hw2 & Htl2 & Hroom2 & Hrows2 & Hout2);
      [done|done|lia|done| |].
    { intros Ho. destruct (Hkeys Ho) as [Hne Hnd].
      apply Forall_cons in Hne as [_ Hne]. cbn [map] in Hnd.
      apply NoDup_cons in Hnd as [Hnotin Hnd].
      split; [done|]. split; [done|]. intros e' He' Hin.
      destruct (Hk1 _ Hin) as [[_ Heq]|Hold]; [|done].
      apply Hnotin. rewrite <- Heq. by apply (list_elem_of_fmap_2 Key). }
    cbn [JSONWriter.writeAll]. rewrite Hw, Hw2. cbn [fst snd length replicate].
    unfold JSONWriter.Close. rewrite Htl2.
    destruct (JSONWriter.rowsWritten w2) as [|n] eqn:En; [done|]. cbn [Nat.eqb].
    rewrite !Write_unlimited by done. cbn [fst snd JSONWriter.setWr JSONWriter.wr out].
    rewrite Hout2, Hout1. cbn [JSONWriter.NewJSONWriter JSONWriter.rowsWritten
      JSONWriter.wr bufferSink out Nat.eqb app].
    rewrite join_cons. do 2 f_equal.
    rewrite <- !app_assoc. by destruct tl.
Qed.

End Documents.

(** C2, as stated, fails, in three ways.  The float 1.0 is written as
    the byte "1" (the encoder prints the shortest digits and no point),
    and the reader, which tells integers from floats by the bytes of
    the number, gives back the integer 1.  A nil slice is written as
    null and comes back as nil.  A text that is not valid UTF-8 is
    written with U+FFFD in the place of the offending byte and comes
    back as that other text. *)
Lemma roundtrip_counterexample :
  (roundtrip.written tlt_array [mkEntry 0 "" (VFloat roundtrip.one)]
   = (([None], None), bytes_of "[1]")
   /\ JSONReader.run 2
        (JSONReader.NewJSONReaderSize tlt_array (bufio.mkSource (bytes_of "[1]") []) 4096)
      = Ret [(mkEntry 0 "" (VInt 1), None); (Entry0, Some io_EOF)]
   /\ mkEntry 0 "" (VInt 1) <> mkEntry 0 "" (VFloat roundtrip.one))
  /\ (roundtrip.written tlt_array [mkEntry 0 "" VNilSlice]
      = (([None], None), bytes_of "[null]")
      /\ JSONReader.run 2
           (JSONReader.NewJSONReaderSize tlt_array
              (bufio.mkSource (bytes_of "[null]") []) 4096)
         = Ret [(mkEntry 0 "" VNull, None); (Entry0, Some io_EOF)]
      /\ mkEntry 0 "" VNull <> mkEntry 0 "" VNilSlice)
  /\ (roundtrip.written tlt_array [mkEntry 0 "" (VString roundtrip.badText)]
      = (([None], None),
         bytes_of "[" ++ [dquote] ++ bytes_of "\ufffd" ++ [dquote] ++ bytes_of "]")
      /\ JSONReader.run 2
           (JSONReader.NewJSONReaderSize tlt_array
              (bufio.mkSource
                 (bytes_of "[" ++ [dquote] ++ bytes_of "\ufffd" ++ [dquote] ++ bytes_of "]")
                 []) 4096)
         = Ret [(mkEntry 0 "" (VString roundtrip.replaced), None); (Entry0, Some io_EOF)]
      /\ mkEntry 0 "" (VString roundtrip.replaced)
         <> mkEntry 0 "" (VString roundtrip.badText)).
Proof.
  repeat split; try (vm_compute; reflexivity); discriminate.
Qed.

(** C2, amended: for entries whose values are portable (null,
    booleans, integers of 64 bits, floats printed with a point or an
    exponent, text of valid UTF-8, sequences and mappings that are not
    nil, of such values and with keys of valid UTF-8) and, in a keyed
    document, whose keys are valid UTF-8, non-empty and distinct, every
    call of the writer succeeds, the buffer holds the document of the
    entries, and the reader gives the entries back in order, each with
    its position as index in an ordered document and with its key in a
    keyed one, and then the end of the stream; this for every buffer
    size and every chunking of the reads. *)
Theorem write_then_read_roundtrip (tl : TopLevelType) (es : list Entry)
    (sch : list nat) (size : nat) :
  Forall (roundtrip.entryOk tl) es ->
  roundtrip.keysOk tl es ->
  exists text,
    roundtrip.docText tl es = Some text
    /\ roundtrip.written tl es = ((replicate (length es) None, None), text)
    /\ JSONReader.run (S (length es))
         (JSONReader.NewJSONReaderSize tl (bufio.mkSource text sch) size)
       = Ret (imap (fun i e => (roundtrip.canon tl i e, None)) es
              ++ [(Entry0, Some io_EOF)]).
Proof.
  intros Hok Hkeys. destruct (docText_ok tl es Hok) as [text Htext].
  exists text. split; [done|]. split; [by apply written_document|].
  eapply run_follows; [apply agree_start|]. by apply run_document.
Qed.

Lemma write_then_read_roundtrip_witness :
  exists text,
    roundtrip.docText tlt_object roundtrip.sample = Some text
    /\ roundtrip.written tlt_object roundtrip.sample
       = ((replicate (length roundtrip.sample) None, None), text)
    /\ JSONReader.run (S (length roundtrip.sample))
         (JSONReader.NewJSONReaderSize tlt_object
            (bufio.mkSource text [2; 0; 5; 1]%nat) 16)
       = Ret (imap (fun i e => (roundtrip.canon tlt_object i e, None)) roundtrip.sample
              ++ [(Entry0, Some io_EOF)]).
Proof.
  apply (write_then_read_roundtrip tlt_object roundtrip.sample [2; 0; 5; 1]%nat 16).
  - repeat constructor.
    + apply Forall_forall. repeat constructor. all: vm_compute; discriminate.
    + intros k v [<- <-]%lookup_singleton_Some. repeat constructor.
    + intros k v [<- <-]%lookup_singleton_Some. constructor. vm_compute. reflexivity.
  - intros _. split; [repeat constructor; discriminate|].
    repeat constructor; cbn [Key].
    + intros [E|E]%elem_of_cons; [discriminate|by apply elem_of_nil in E].
    + apply not_elem_of_nil.
Defined.




(* ================================================================== *)
(** * Further properties of the code *)

(* ------------------------------------------------------------------ *)
(** ** replacecr: text with proper line ends, and the last byte of the
    destination *)

Section ReplacecrBounds.
Import bufio replacecr.

(** In a text that [normalize] leaves alone, a carriage return is
    followed by a line feed. *)
Lemma normalize_fixed_cons c l :
  normalize (c :: l) = c :: l ->
  normalize l = l
  /\ ((c =? CR)%char = true -> exists l', l = LF :: l').
Proof.
  cbn [normalize]. destruct (c =? CR)%char eqn:Ec.
  - destruct l as [|c' l']; [done|].
    destruct (c' =? LF)%char eqn:El.
    + apply Ascii.eqb_eq in El. subst c'. intros H. split; [congruence|]. by eexists.
    + intros H. assert (LF = c') as <- by congruence. by rewrite Ascii.eqb_refl in El.
  - intros H. split; [congruence|]. done.
Qed.

Lemma readLoop_keeps l : forall fuel plen p b,
  unread b = l ->
  (0 < size b)%nat ->
  normalize l = l ->
  (length p <= plen)%nat ->
  (plen - length p < fuel)%nat ->
  exists b',
    readLoop fuel plen p b
    = Ret ((p ++ take (plen - length p) l,
            if (length p + length l <? plen)%nat then Some io_EOF else None), b')
    /\ unread b' = drop (plen - length p) l.
Proof.
  induction l as [|c l IH]; intros fuel plen p b Hu Hs Hn Hp Hf;
    (destruct fuel as [|fuel]; [lia|]); cbn [readLoop].
  - destruct (length p =? plen)%nat eqn:E.
    + apply Nat.eqb_eq in E. exists b. rewrite take_nil, drop_nil, app_nil_r.
      replace (length p + length [] <? plen)%nat with false
        by (symmetry; apply Nat.ltb_ge; cbn; lia). done.
    + apply Nat.eqb_neq in E.
      pose proof (ReadByte_spec b Hs) as Hr. rewrite Hu in Hr.
      destruct Hr as (c & b' & -> & Hu' & _).
      exists b'. rewrite take_nil, drop_nil, app_nil_r.
      replace (length p + length [] <? plen)%nat with true
        by (symmetry; apply Nat.ltb_lt; cbn; lia). done.
  - destruct (length p =? plen)%nat eqn:E.
    + apply Nat.eqb_eq in E. exists b.
      replace (plen - length p)%nat with 0%nat by lia. rewrite take_0, drop_0, app_nil_r.
      replace (length p + length (c :: l) <? plen)%nat with false
        by (symmetry; apply Nat.ltb_ge; cbn; lia). done.
    + apply Nat.eqb_neq in E.
      pose proof (ReadByte_spec b Hs) as Hr. rewrite Hu in Hr.
      destruct Hr as (b1 & -> & Hu1 & Hs1).
      replace (length p <? plen)%nat with true by (symmetry; apply Nat.ltb_lt; lia).
      rewrite andb_true_r.
      destruct (normalize_fixed_cons c l Hn) as [Hn' Hlf].
      assert (forall bb, unread bb = l -> size bb = size b ->
                exists b',
                  readLoop fuel plen (p ++ [c]) bb
                  = Ret ((p ++ take (plen - length p) (c :: l),
                          if (length p + length (c :: l) <? plen)%nat
                          then Some io_EOF else None), b')
                  /\ unread b' = drop (plen - length p) (c :: l)) as Hnext.
      { intros bb Hbb Hsz.
        destruct (IH fuel plen (p ++ [c]) bb Hbb) as (b' & Hr & Hb');
          [lia|done|rewrite length_app; cbn; lia|rewrite length_app; cbn; lia|].
        exists b'. rewrite Hr, Hb'. rewrite length_app. cbn [length].
        replace (plen - length p)%nat with (S (plen - (length p + 1))) by lia.
        cbn [take drop]. rewrite <- app_assoc. cbn [app].
        replace (length p + 1 + length l)%nat with (length p + S (length l))%nat by lia.
        done. }
      destruct (c =? CR)%char eqn:Ec.
      * destruct (Hlf eq_refl) as [l' ->].
        destruct (Peek 1 b1) as [[pk perr] b2] eqn:Ep.
        apply Peek1_lonely in Ep as (Hu2 & Hs2 & ->); [|lia].
        rewrite Hu1. rewrite Ascii.eqb_refl. cbn [negb].
        apply Hnext; congruence.
      * by apply Hnext.
Qed.

(** X1. On a text in which every carriage return is followed by a line
    feed, [Read] changes nothing: it delivers the first [len(p)] bytes
    of the text as they are, reports the end of the stream exactly when
    the text is shorter than [p], and leaves the other bytes to the
    next call, however the source chunks its reads. *)
Theorem Read_keeps_proper_text (input : bytes) (sch : list nat) (plen : nat) :
  normalize input = input ->
  (0 < plen)%nat ->
  exists b',
    Read plen (Reader (mkSource input sch))
    = Ret ((take plen input,
            if (length input <? plen)%nat then Some io_EOF else None), b')
    /\ unread b' = drop plen input.
Proof.
  intros Hn Hp. unfold Read.
  replace (plen =? 0)%nat with false by (symmetry; apply Nat.eqb_neq; lia).
  destruct (readLoop_keeps input (S plen) plen [] (Reader (mkSource input sch)))
    as (b' & Hr & Hb'); try done; cbn [length]; try lia.
  { cbn. unfold defaultBufSize. lia. }
  exists b'. rewrite Nat.sub_0_r in Hr, Hb'. done.
Qed.

Lemma Read_keeps_proper_text_witness :
  exists b',
    Read 5 (Reader (mkSource (bytes_of "ab" ++ [CR; LF] ++ bytes_of "cd") [0; 2]%nat))
    = Ret ((take 5 (bytes_of "ab" ++ [CR; LF] ++ bytes_of "cd"),
            if (length (bytes_of "ab" ++ [CR; LF] ++ bytes_of "cd") <? 5)%nat
            then Some io_EOF else None), b')
    /\ unread b' = drop 5 (bytes_of "ab" ++ [CR; LF] ++ bytes_of "cd").
Proof.
  apply (Read_keeps_proper_text (bytes_of "ab" ++ [CR; LF] ++ bytes_of "cd") [0; 2]%nat 5).
  - reflexivity.
  - lia.
Defined.

Lemma readLoop_panics pre : forall fuel plen p b rest,
  unread b = pre ++ CR :: rest ->
  (0 < size b)%nat ->
  normalize pre = pre ->
  match rest with c :: _ => (c =? LF)%char = false | [] => True end ->
  plen = S (length p + length pre) ->
  (length pre < fuel)%nat ->
  readLoop fuel plen p b = Panic "index out of range".
Proof.
  induction pre as [|c pre IH]; intros fuel plen p b rest Hu Hs Hn Hrest Hplen Hf;
    (destruct fuel as [|fuel]; [cbn in Hf; lia|]); cbn [readLoop]; cbn [length] in *;
    (replace (length p =? plen)%nat with false by (symmetry; apply Nat.eqb_neq; lia));
    pose proof (ReadByte_spec b Hs) as Hr; rewrite Hu in Hr; cbn [app] in Hr;
    destruct Hr as (b1 & -> & Hu1 & Hs1);
    (replace (length p <? plen)%nat with true by (symmetry; apply Nat.ltb_lt; lia));
    rewrite andb_true_r.
  - rewrite Ascii.eqb_refl.
    destruct (Peek 1 b1) as [[pk perr] b2] eqn:Ep.
    apply Peek1_lonely in Ep as (Hu2 & Hs2 & ->); [|lia].
    rewrite Hu1.
    replace (S (length p) <? plen)%nat with false by (symmetry; apply Nat.ltb_ge; lia).
    destruct rest as [|c r]; [done|]. by rewrite Hrest.
  - destruct (normalize_fixed_cons c pre Hn) as [Hn' Hlf].
    assert (forall bb, unread bb = pre ++ CR :: rest -> size bb = size b ->
              readLoop fuel plen (p ++ [c]) bb = Panic "index out of range") as Hnext.
    { intros bb Hbb Hsz. apply (IH fuel plen (p ++ [c]) bb rest); try done;
        rewrite ?length_app; cbn [length]; lia. }
    destruct (c =? CR)%char eqn:Ec.
    + destruct (Hlf eq_refl) as [l' ->].
      destruct (Peek 1 b1) as [[pk perr] b2] eqn:Ep.
      apply Peek1_lonely in Ep as (Hu2 & Hs2 & ->); [|lia].
      rewrite Hu1. cbn [app]. rewrite Ascii.eqb_refl. cbn [negb].
      apply Hnext; congruence.
    + by apply Hnext.
Qed.

(** X2. [Read] panics whenever a carriage return that needs a line
    feed is stored in the last byte of the destination: after a text
    with proper line ends that fills all of [p] but one byte, a
    carriage return followed by anything but a line feed (or by the end
    of the stream) makes the filter write behind the end of [p]. *)
Theorem Read_panics_on_cr_in_last_byte (pre rest : bytes) (sch : list nat) :
  normalize pre = pre ->
  match rest with c :: _ => (c =? LF)%char = false | [] => True end ->
  Read (S (length pre)) (Reader (mkSource (pre ++ CR :: rest) sch))
  = Panic "index out of range".
Proof.
  intros Hn Hrest. unfold Read. cbn [Nat.eqb].
  apply (readLoop_panics pre _ _ [] _ rest); try done; cbn [length]; try lia.
  cbn. unfold defaultBufSize. lia.
Qed.

Lemma Read_panics_on_cr_in_last_byte_witness :
  Read (S (length (bytes_of "x,y")))
       (Reader (mkSource (bytes_of "x,y" ++ CR :: bytes_of "z") [1]%nat))
  = Panic "index out of range".
Proof.
  apply (Read_panics_on_cr_in_last_byte (bytes_of "x,y") (bytes_of "z") [1]%nat).
  - reflexivity.
  - reflexivity.
Defined.

End ReplacecrBounds.

(* ------------------------------------------------------------------ *)
(** ** JSONReader: input that is empty, ends, or is not JSON *)

Section ReaderEdges.
Import strconv json JSONText roundtrip chunking.

Lemma skipWs_idem l : skipWs (skipWs l) = skipWs l.
Proof.
  induction l as [|c l IH]; [done|]. cbn [skipWs].
  destruct (JSONReader.isWhitespace c) eqn:E; [done|]. cbn [skipWs]. by rewrite E.
Qed.

Lemma tokenChar_false ch rem :
  match skipWs rem with c :: _ => (c =? ch)%char = false | [] => True end ->
  tokenChar ch rem = (false, skipWs rem).
Proof. unfold tokenChar. destruct (skipWs rem) as [|c l]; [done|]. by intros ->. Qed.

Lemma run_unopened tl n : forall text k,
  match skipWs text with c :: _ => (c =? openByte tl)%char = false | [] => True end ->
  run tl n (mkState text false k)
  = Some (replicate n (Entry0, Some (Errorf (if isObject tl
                                             then "Expected: opening object '{'"
                                             else "Expected: opening array '['")))).
Proof.
  induction n as [|n IH]; intros text k Hc; [done|].
  rewrite run_S. unfold entry. cbn [opened rest count].
  change (if isObject tl then "{"%char else "["%char) with (openByte tl).
  rewrite tokenChar_false by done. cbn [negb mbind option_bind].
  rewrite IH by (by rewrite skipWs_idem). done.
Qed.

(** X3. Without the opening byte of its container (on empty input, on
    white space only, on a document of the other kind) the reader
    returns the same error at every call and never the end of the
    stream: only white space is consumed. *)
Theorem reader_without_opening (tl : TopLevelType) (text : bytes)
    (sch : list nat) (size n : nat) :
  match skipWs text with c :: _ => (c =? openByte tl)%char = false | [] => True end ->
  JSONReader.run n (JSONReader.NewJSONReaderSize tl (bufio.mkSource text sch) size)
  = Ret (replicate n (Entry0, Some (Errorf (if isObject tl
                                            then "Expected: opening object '{'"
                                            else "Expected: opening array '['")))).
Proof.
  intros Hc. eapply run_follows; [apply agree_start|]. by apply run_unopened.
Qed.

Lemma reader_without_opening_witness :
  JSONReader.run 3
    (JSONReader.NewJSONReaderSize tlt_object
       (bufio.mkSource (bytes_of "  [1,2]") [1; 0]%nat) 16)
  = Ret (replicate 3 (Entry0, Some (Errorf (if isObject tlt_object
                                            then "Expected: opening object '{'"
                                            else "Expected: opening array '['")))).
Proof.
  apply (reader_without_opening tlt_object (bytes_of "  [1,2]") [1; 0]%nat 16 3).
  reflexivity.
Defined.





Lemma value_default fuel c rest :
  JSONReader.isWhitespace c = false -> valueStart c = false ->
  value (S fuel) (c :: rest) = Some ((VNull, None), c :: rest).
Proof.
  intros Hws Hs. cbn [value]. rewrite peekChar_start by done.
  destruct c as [[] [] [] [] [] [] [] []]; done.
Qed.

Lemma run_stuck tl c rest n k :
  JSONReader.isWhitespace c = false ->
  (c =? closeByte tl)%char = false -> (c =? ",")%char = false ->
  run tl n (mkState (c :: rest) true k)
  = Some (replicate n (Entry0, Some (Errorf "Expected: separator ','"))).
Proof.
  intros Hws Hc Hs. induction n as [|n IH]; [done|]. rewrite run_S. unfold entry.
  cbn [JSONText.opened JSONText.rest JSONText.count negb].
  change (if isObject tl then "}"%char else "]"%char) with (closeByte tl).
  rewrite !tokenChar_miss by done. cbn [negb mbind option_bind]. by rewrite IH.
Qed.

(** X5. A byte that starts no value is taken for null.  In an ordered
    document whose first element starts with a byte that is neither
    white space nor the start of a value nor the closing bracket, the
    first call returns an entry with value nil and no error, without
    consuming the byte; when the byte is not a comma, every later call
    fails on the missing separator. *)
Theorem reader_takes_garbage_for_null (c : ascii) (rest : bytes)
    (sch : list nat) (size n : nat) :
  JSONReader.isWhitespace c = false ->
  valueStart c = false ->
  (c =? "]")%char = false ->
  (c =? ",")%char = false ->
  JSONReader.run (S n)
    (JSONReader.NewJSONReaderSize tlt_array
       (bufio.mkSource ("["%char :: c :: rest) sch) size)
  = Ret ((mkEntry 0 "" VNull, None)
         :: replicate n (Entry0, Some (Errorf "Expected: separator ','"))).
Proof.
  intros Hws Hs Hc Hsep. eapply run_follows; [apply agree_start|].
  rewrite run_S. unfold entry, start.
  cbn [JSONText.opened JSONText.rest JSONText.count isObject].
  rewrite tokenChar_hit by done. cbn [negb].
  rewrite tokenChar_miss by done.
  rewrite value_default by done. cbn [mbind option_bind].
  by rewrite (run_stuck tlt_array c rest n 1 Hws Hc Hsep).
Qed.

Lemma reader_takes_garbage_for_null_witness :
  JSONReader.run (S 2)
    (JSONReader.NewJSONReaderSize tlt_array
       (bufio.mkSource ("["%char :: "x"%char :: bytes_of "yz, 1]") [0; 1]%nat) 16)
  = Ret ((mkEntry 0 "" VNull, None)
         :: replicate 2 (Entry0, Some (Errorf "Expected: separator ','"))).
Proof.
  apply (reader_takes_garbage_for_null "x"%char (bytes_of "yz, 1]") [0; 1]%nat 16 2);
    reflexivity.
Defined.

(** X6. [readString] undoes the string encoder of the writer: on the
    encoding of an ASCII string, whatever follows it and however the
    bytes are cut into reads and buffers, it returns the string without
    error and consumes exactly the encoding. *)
Theorem readString_reads_encoded_string (s : string) (rest : bytes) (r : JSONReader.t) :
  asciiOnly s ->
  holds r (marshalString s ++ rest) ->
  exists r',
    JSONReader.readString r = Ret ((s, None), r') /\ holds r' rest.
Proof.
  intros Ha%asciiOnly_valid Hr.
  destruct (readString_spec r _ _ _ Hr (string_roundtrip s rest Ha)) as (r' & Hs & Hh & _).
  by exists r'.
Qed.

Lemma readString_reads_encoded_string_witness :
  exists r',
    JSONReader.readString
      (JSONReader.NewJSONReaderSize tlt_array
         (bufio.mkSource (marshalString "a\b<c" ++ bytes_of ",1]") [1; 0; 2]%nat) 16)
    = Ret (("a\b<c"%string, None), r')
    /\ holds r' (bytes_of ",1]").
Proof.
  apply (readString_reads_encoded_string "a\b<c" (bytes_of ",1]")).
  - unfold asciiOnly. cbn. repeat constructor.
  - apply (agree_start tlt_array).
Defined.

Lemma objectLoop_entries f rest es parts : forall acc fuel,
  Forall2 (fun e p => encodeEntry tlt_object e = Some p) es parts ->
  Forall (entryOk tlt_object) es ->
  (forall p, p ∈ parts -> (length p < f)%nat) ->
  (length es < fuel)%nat ->
  objectLoop (value f) fuel acc
    (concat (map (cons ","%char) parts) ++ "}"%char :: rest)
  = Some ((VObject (foldl (fun a e => <[Key e := EValue e]> a) acc es), None), rest).
Proof.
  intros acc fuel H. revert acc fuel.
  induction H as [|e p es parts He _ IH]; intros acc fuel Hok Hlen Hfuel;
    (destruct fuel as [|fuel]; [cbn in Hfuel; lia|]); cbn [objectLoop map concat app].
  - by rewrite tokenChar_hit by done.
  - apply Forall_cons in Hok as [Hp Hok].
    rewrite tokenChar_miss by done. rewrite tokenChar_hit by done. cbn [negb].
    rewrite <- app_assoc.
    pose proof (item_roundtrip tlt_object e p
                  (concat (map (cons ","%char) parts) ++ "}"%char :: rest) f Hp He)
      as Hitem.
    cbn [isObject] in Hitem.
    rewrite Hitem; [|apply Hlen; left|by apply delimited_commas].
    cbn [mbind option_bind foldl].
    apply IH; [done|intros q Hq; apply Hlen; by right|cbn in Hfuel; lia].
Qed.

(** X7. A nested object with a repeated key is read without error and
    keeps the last member of that key: [readObject] stores every member
    in a Go map under its key.  For members with keys of valid UTF-8 and
    portable values, reading the object made of them, whatever follows
    it and however the bytes are chunked, yields the map of the
    reversed member list (the first binding of a key in that list, so
    the last one in the text). *)
Theorem readObject_keeps_last_of_repeated_keys (es : list Entry) (text rest : bytes)
    (r : JSONReader.t) :
  Forall (entryOk tlt_object) es ->
  docText tlt_object es = Some text ->
  holds r (text ++ rest) ->
  exists r',
    JSONReader.readValue (S (length text)) r
    = Ret ((VObject (list_to_map (reverse (map (fun e => (Key e, EValue e)) es))), None),
           r')
    /\ holds r' rest.
Proof.
  intros Hok Htext Hr.
  assert (value (S (length text)) (text ++ rest)
          = Some ((VObject (foldl (fun a e => <[Key e := EValue e]> a) ∅ es), None), rest))
    as Hv.
  { apply docText_parts in Htext as (parts & Hparts & ->).
    cbn [openByte closeByte isObject].
    assert (forall p, p ∈ parts -> (length p < length ("{"%char :: join [","%char] parts ++ ["}"%char]))%nat)
      as Hlen.
    { intros p Hp. pose proof (join_part _ _ Hp). cbn [length].
      rewrite length_app. cbn [length]. lia. }
    assert (length es <= length (join [","%char] parts) + 1)%nat as Hcount.
    { pose proof (join_count parts). rewrite (Forall2_length _ _ _ Hparts). lia. }
    remember (length ("{"%char :: join [","%char] parts ++ ["}"%char])) as f eqn:Hf.
    cbn [value app]. rewrite peekChar_start by done. cbv iota beta.
    unfold object_. rewrite tokenChar_hit by done. cbn [negb].
    destruct Hparts as [|e p es parts He Hparts].
    - cbn [join app foldl]. by rewrite tokenChar_hit.
    - apply Forall_cons in Hok as [Hp Hok].
      rewrite join_cons, <- !app_assoc.
      change (["}"%char] ++ rest) with ("}"%char :: rest).
      destruct (part_start tlt_object e p (proj1 Hp) He) as (c & l & -> & Hws & Hc).
      change ((c :: l) ++ ?t) with (c :: (l ++ t)).
      rewrite tokenChar_miss by done.
      change (c :: (l ++ ?t)) with ((c :: l) ++ t).
      pose proof (item_roundtrip tlt_object e (c :: l)
                    (concat (map (cons ","%char) parts) ++ "}"%char :: rest) f Hp He)
        as Hitem.
      cbn [isObject] in Hitem.
      rewrite Hitem; [|apply Hlen; left|by apply delimited_commas].
      cbn [mbind option_bind foldl].
      apply objectLoop_entries; [done|done|intros q Hq; apply Hlen; by right|].
      cbn [length] in Hcount. rewrite join_cons, length_app in Hcount.
      cbn [length] in Hf. rewrite join_cons, !length_app in Hf. cbn [length] in Hf.
      pose proof (commas_length parts) as Hcl.
      rewrite <- (Forall2_length _ _ _ Hparts) in Hcl. lia. }
  destruct (readValue_follows _ r _ _ _ Hr Hv) as (r' & Hrv & Hh & _).
  exists r'. split; [|done]. rewrite Hrv. do 4 f_equal.
  rewrite <- (right_id_L ∅ (∪) (list_to_map _)), <- foldl_insert_list.
  revert Hok. generalize (∅ : gmap string Value). clear.
  induction es as [|e es IH]; intros acc; [done|]. intros Hok. cbn [map foldl fst snd].
  apply IH. by apply Forall_cons in Hok as [_ ?].
Qed.

Lemma readObject_keeps_last_of_repeated_keys_witness :
  exists r',
    JSONReader.readValue (S (length repeatedKey))
      (JSONReader.NewJSONReaderSize tlt_array
         (bufio.mkSource (repeatedKey ++ bytes_of "]") [2; 0]%nat) 16)
    = Ret ((VObject (list_to_map (reverse (map (fun e => (Key e, EValue e))
                                               [mkEntry 0 "a" (VInt 1);
                                                mkEntry 0 "a" (VInt 2)]))), None),
           r')
    /\ holds r' (bytes_of "]").
Proof.
  apply (readObject_keeps_last_of_repeated_keys
           [mkEntry 0 "a" (VInt 1); mkEntry 0 "a" (VInt 2)] repeatedKey (bytes_of "]")).
  - unfold entryOk. cbn [EValue Key].
    repeat constructor. all: vm_compute; discriminate.
  - reflexivity.
  - apply (agree_start tlt_array).
Defined.

End ReaderEdges.

(* ------------------------------------------------------------------ *)
(** ** JSONWriter: what an ordered document ignores, and what a failed
    encoding leaves behind *)

Section WriterEdges.
Import JSONWriter roundtrip.

Lemma WriteEntry_array_value e e' w :
  tlt w = tlt_array -> EValue e = EValue e' -> WriteEntry e w = WriteEntry e' w.
Proof.
  intros Htl He. destruct w as [n tl s ks]. cbn in Htl. subst tl.
  unfold WriteEntry, valBytes. cbn [rowsWritten tlt wr keysWritten isObject].
  destruct (n =? 0)%nat; [destruct (Write _ s) as [s1 [oe|]]|];
    cbn [setWr rowsWritten tlt wr keysWritten isArray]; by rewrite ?He.
Qed.

Lemma writeAll_array_values es : forall es' w,
  tlt w = tlt_array -> map EValue es = map EValue es' ->
  writeAll es w = writeAll es' w.
Proof.
  induction es as [|e es IH]; intros [|e' es'] w Htl Hv; try done.
  injection Hv as He Hv. cbn [writeAll].
  rewrite (WriteEntry_array_value e e' w Htl He).
  destruct (WriteEntry e' w) as [w1 r1] eqn:Ew.
  apply WriteEntry_fields in Ew as [_ Htl1].
  by rewrite (IH es' w1) by congruence.
Qed.

(** X8. In an ordered document the writer looks at the value of an
    entry only: two sessions whose entries have the same values, in the
    same order, return the same results and write the same bytes,
    whatever the keys and indices of the entries. *)
Theorem array_writer_ignores_key_and_index (es es' : list Entry) :
  map EValue es = map EValue es' ->
  written tlt_array es = written tlt_array es'.
Proof.
  intros Hv. unfold written. by rewrite (writeAll_array_values es es').
Qed.

Lemma array_writer_ignores_key_and_index_witness :
  written tlt_array [mkEntry 7 "k" (VInt 1); mkEntry 0 "" VNull]
  = written tlt_array [mkEntry 0 "" (VInt 1); mkEntry 3 "z" VNull].
Proof.
  apply (array_writer_ignores_key_and_index
           [mkEntry 7 "k" (VInt 1); mkEntry 0 "" VNull]
           [mkEntry 0 "" (VInt 1); mkEntry 3 "z" VNull]).
  reflexivity.
Defined.

(** X9. A first entry that cannot be encoded leaves a stray comma.
    The call fails, but the row counter has passed zero, so the next
    entry is written behind a separator although nothing precedes it:
    the closed document is the opening bracket, a comma, the second
    entry and the closing bracket. *)
Theorem failed_first_write_leaves_stray_comma (e1 e2 : Entry) (b : bytes) :
  json.Marshal (EValue e1) = None ->
  json.Marshal (EValue e2) = Some b ->
  exists err,
    written tlt_array [e1; e2]
    = (([Some err; None], None), "["%char :: ","%char :: b ++ ["]"%char]).
Proof.
  intros H1 H2. exists (marshalErr (EValue e1)). unfold written, writeAll, WriteEntry, valBytes, Marshal.
  cbn. rewrite H1. cbn. rewrite H2. cbn. done.
Qed.

Lemma failed_first_write_leaves_stray_comma_witness :
  exists err,
    written tlt_array [mkEntry 0 "" (VFloat strconv.FNaN); mkEntry 1 "" (VInt 5)]
    = (([Some err; None], None), "["%char :: ","%char :: bytes_of "5" ++ ["]"%char]).
Proof.
  apply (failed_first_write_leaves_stray_comma
           (mkEntry 0 "" (VFloat strconv.FNaN)) (mkEntry 1 "" (VInt 5)) (bytes_of "5"));
    reflexivity.
Defined.

(** X10. In a keyed document a key is recorded before its value is
    encoded.  When the value of an entry cannot be encoded the call
    fails and nothing of the entry is written, yet a later entry with
    the same key is rejected as already written; the closed document is
    the empty object. *)
Theorem failed_value_blocks_its_key (e1 e2 : Entry) :
  Key e1 <> EmptyString ->
  Key e2 = Key e1 ->
  json.Marshal (EValue e1) = None ->
  exists err,
    written tlt_object [e1; e2]
    = (([Some err; Some (keyRepeated (Key e1))], None), bytes_of "{}").
Proof.
  intros Hne Hk H1. exists (marshalErr (EValue e1)). apply String.eqb_neq in Hne.
  unfold written, writeAll, WriteEntry, valBytes, Marshal.
  cbn. rewrite Hne, H1. cbn.
  rewrite bool_decide_eq_false_2 by (by rewrite lookup_empty). cbn.
  rewrite Hk, Hne.
  rewrite bool_decide_eq_true_2 by (by rewrite lookup_insert_eq). done.
Qed.

Lemma failed_value_blocks_its_key_witness :
  exists err,
    written tlt_object [mkEntry 0 "k" (VFloat strconv.FNaN); mkEntry 0 "k" (VInt 1)]
    = (([Some err; Some (keyRepeated (Key (mkEntry 0 "k" (VFloat strconv.FNaN))))], None),
       bytes_of "{}").
Proof.
  apply (failed_value_blocks_its_key
           (mkEntry 0 "k" (VFloat strconv.FNaN)) (mkEntry 0 "k" (VInt 1)));
    [discriminate|reflexivity|reflexivity].
Defined.

End WriterEdges.

(* ------------------------------------------------------------------ *)
(** ** CSVReader: short schemas, the header row, the end of the input *)

Section CSVEdges.
Import CSVReader.

Variable ParseNumber : string -> option strconv.float64.
Variable ParseInteger : string -> option Z.
Variable ParseBoolean : string -> option bool.
Variable UnmarshalObject : string -> option (gmap string Value).
Variable UnmarshalArray : string -> option (list Value).

Local Abbreviation decode :=
  (decode ParseNumber ParseInteger ParseBoolean UnmarshalObject UnmarshalArray).
Local Abbreviation ReadEntry :=
  (ReadEntry ParseNumber ParseInteger ParseBoolean UnmarshalObject UnmarshalArray).
Local Abbreviation run :=
  (run ParseNumber ParseInteger ParseBoolean UnmarshalObject UnmarshalArray).

Lemma decode_short_types (rd : t) (strings : list string) :
  (length (types rd) < length strings)%nat ->
  decode rd strings = (map VString strings, None).
Proof.
  intros Hlt. unfold CSVReader.decode.
  replace (length (types rd) <? length strings)%nat with true
    by (symmetry; by apply Nat.ltb_lt).
  f_equal. apply list_eq. intros i.
  rewrite list_lookup_imap, list_lookup_fmap.
  destruct (strings !! i) as [str|] eqn:E; [|done]. cbn. f_equal.
  rewrite (list_lookup_total_correct _ _ "string"); [done|].
  apply lookup_replicate_2. by eapply lookup_lt_Some.
Qed.

(** X11. When the schema names fewer column types than a record has
    fields (or none, because the schema has no column list), [decode]
    drops all the types: every field of the record is returned as its
    text, also the fields of the columns that have a type. *)
Theorem decode_short_types_keeps_all_text (rd : t) (strings : list string) :
  (length (types rd) < length strings)%nat ->
  decode rd strings = (map VString strings, None).
Proof.
  intros Hlt. rewrite decode_short_types by done. reflexivity.
Qed.

Lemma run_started st1 st2 ty n : forall recs,
  run n (mk st1 true recs ty) = run n (mk st2 true recs ty).
Proof.
  induction n as [|n IH]; intros recs; [done|].
  cbn [CSVReader.run]. unfold CSVReader.ReadEntry, Read.
  cbn [readHeader negb r st types].
  destruct recs as [|[fields|e] q]; cbn [r st types readHeader CSVReader.decode fst snd].
  - by rewrite IH.
  - by rewrite IH.
  - by rewrite IH.
Qed.





(** X13. The end of the input is final: a reader that has no record
    left returns [io.EOF] at every call, with or without header row. *)
Theorem csv_end_of_input_is_final (rd : t) (n : nat) :
  r rd = [] ->
  run n rd = replicate n (Entry0, Some io_EOF).
Proof.
  revert rd. induction n as [|n IH]; intros rd Hr; [done|].
  cbn [CSVReader.run replicate]. unfold CSVReader.ReadEntry, Read.
  destruct (negb (readHeader rd)); [destruct (HasHeaderRow (st rd))|];
    rewrite ?Hr; cbn [r]; rewrite ?Hr; by rewrite IH.
Qed.

End CSVEdges.

Lemma decode_short_types_keeps_all_text_witness :
  CSVReader.decode vals.ParseNumber vals.ParseInteger vals.ParseBoolean
    (fun _ => None) (fun _ => None)
    (CSVReader.mk scenario.structure true [] ["integer"]) ["1"; "foo"]
  = (map VString ["1"; "foo"], None).
Proof.
  apply (decode_short_types_keeps_all_text vals.ParseNumber vals.ParseInteger
           vals.ParseBoolean (fun _ => None) (fun _ => None)
           (CSVReader.mk scenario.structure true [] ["integer"]) ["1"; "foo"]).
  cbn. lia.
Defined.


(** The header "n,s" fixes two fields: the record "1,foo,x" is
    reported with its line, the record "2,bar" is decoded. *)
Example csv_header_fixes_field_count :
  CSVReader.run vals.ParseNumber vals.ParseInteger vals.ParseBoolean
    (fun _ => None) (fun _ => None) 3
    (CSVReader.NewCSVReader scenario.structure
       (csv.records (bytes_of "n,s" ++ [LF] ++ bytes_of "1,foo,x" ++ [LF]
                     ++ bytes_of "2,bar" ++ [LF])))
  = [(Entry0, Some (Errorf "record on line 2: wrong number of fields"));
     (mkEntry 0 "" (VArray [VInt 2; VString "bar"]), None);
     (Entry0, Some io_EOF)].
Proof. vm_compute. reflexivity. Qed.

Lemma csv_end_of_input_is_final_witness :
  CSVReader.run vals.ParseNumber vals.ParseInteger vals.ParseBoolean
    (fun _ => None) (fun _ => None) 2
    (CSVReader.NewCSVReader scenario.structure (csv.records []))
  = replicate 2 (Entry0, Some io_EOF).
Proof.
  apply (csv_end_of_input_is_final vals.ParseNumber vals.ParseInteger vals.ParseBoolean
           (fun _ => None) (fun _ => None)
           (CSVReader.NewCSVReader scenario.structure (csv.records [])) 2).
  reflexivity.
Defined.

(** X14. [HasHeaderRow] answers true only for the format csv with a
    configuration map in which [headerRow] is the boolean true and all
    four options are acceptable to [NewCSVOptions]; a configuration
    with, say, a separator of two bytes turns the header row off
    without an error. *)
Theorem HasHeaderRow_true_iff (st : Structure) :
  CSVReader.HasHeaderRow st = true
  <-> Format st = "csv"
      /\ exists opts,
           FormatConfig st = Some opts
           /\ opts !! "headerRow" = Some (VBool true)
           /\ is_Some (NewCSVOptions (Some opts)).
Proof.
  unfold CSVReader.HasHeaderRow. split.
  - destruct (String.eqb_spec (Format st) "csv") as [Hf|]; [|done].
    destruct (FormatConfig st) as [opts|]; [|done]. cbn [andb].
    rewrite bool_decide_eq_true_2 by done.
    destruct (NewCSVOptions (Some opts)) as [o|] eqn:Eo; [|done].
    intros Hh. split; [done|]. exists opts. split; [done|]. split; [|by rewrite Eo].
    revert Eo. unfold NewCSVOptions, boolOpt.
    destruct (opts !! "headerRow") as [[]|]; cbn; try done.
    all: repeat (match goal with |- context [match ?x with _ => _ end] =>
                   destruct x; cbn; try done end).
    all: intros [= <-]; cbn in Hh; congruence.
  - intros (Hf & opts & Hc & Hh & [o Ho]). rewrite Hf, Hc.
    change (String.eqb "csv" "csv") with true.
    rewrite bool_decide_eq_true_2 by done. cbn [andb]. rewrite Ho.
    revert Ho. unfold NewCSVOptions, boolOpt. rewrite Hh. cbn.
    repeat (match goal with |- context [match ?x with _ => _ end] =>
              destruct x; cbn; try done end).
    all: by intros [= <-].
Qed.

(* ------------------------------------------------------------------ *)
(** ** Format options and their maps (data_format_config.go) *)

(** X15. A set of CSV options without separator survives the way
    through its map: [NewCSVOptions] applied to [Map] gives the options
    back. *)
Theorem CSVOptions_map_roundtrip (o : CSVOptions) :
  Separator o = None ->
  NewCSVOptions (CSVOptions_Map (Some o)) = Some o.
Proof.
  destruct o as [h lq sep vf]. cbn [Separator]. intros ->.
  destruct h, lq, vf; vm_compute; reflexivity.
Qed.

Lemma CSVOptions_map_roundtrip_witness :
  NewCSVOptions (CSVOptions_Map (Some (mkCSVOptions true false None true)))
  = Some (mkCSVOptions true false None true).
Proof.
  apply (CSVOptions_map_roundtrip (mkCSVOptions true false None true)). reflexivity.
Defined.

(** X16. A set of CSV options with a separator does not: [Map] stores
    the separator as a rune, [NewCSVOptions] accepts a string only, so
    the map that [Map] returns is rejected. *)
Theorem CSVOptions_map_with_separator_is_rejected (o : CSVOptions) (c : ascii) :
  Separator o = Some c ->
  c <> "000"%char ->
  NewCSVOptions (CSVOptions_Map (Some o)) = None.
Proof.
  destruct o as [h lq sep vf]. cbn [Separator]. intros -> Hc.
  apply Ascii.eqb_neq in Hc.
  unfold CSVOptions_Map, NewCSVOptions, boolOpt.
  cbn [HeaderRow LazyQuotes VariadicFields Separator]. rewrite Hc.
  destruct h, lq, vf; simplify_map_eq; done.
Qed.

Lemma CSVOptions_map_with_separator_is_rejected_witness :
  NewCSVOptions (CSVOptions_Map (Some (mkCSVOptions true false (Some ";"%char) false)))
  = None.
Proof.
  apply (CSVOptions_map_with_separator_is_rejected
           (mkCSVOptions true false (Some ";"%char) false) ";"%char);
    [reflexivity|discriminate].
Defined.

(** X17. [NewCSVOptions] reads four keys and ignores every other key
    of the map. *)
Theorem NewCSVOptions_ignores_other_keys (opts : gmap string Value) (k : string)
    (v : Value) :
  k <> "headerRow" -> k <> "lazyQuotes" -> k <> "separator" -> k <> "variadicFields" ->
  NewCSVOptions (Some (<[k := v]> opts)) = NewCSVOptions (Some opts).
Proof.
  intros H1 H2 H3 H4. unfold NewCSVOptions, boolOpt.
  by rewrite !lookup_insert_ne by done.
Qed.

Lemma NewCSVOptions_ignores_other_keys_witness :
  NewCSVOptions (Some (<["quoteChar" := VString "'"]> {[ "headerRow" := VBool true ]}))
  = NewCSVOptions (Some {[ "headerRow" := VBool true ]}).
Proof.
  apply (NewCSVOptions_ignores_other_keys {[ "headerRow" := VBool true ]}
           "quoteChar" (VString "'")); discriminate.
Defined.

(** X18. A separator that is a string of no byte or of more than one
    byte is rejected, whatever the other options. *)
Theorem NewCSVOptions_rejects_long_separator (opts : gmap string Value) (sep : string) :
  opts !! "separator" = Some (VString sep) ->
  String.length sep <> 1%nat ->
  NewCSVOptions (Some opts) = None.
Proof.
  intros Hs Hl. unfold NewCSVOptions. rewrite Hs.
  destruct (boolOpt opts "headerRow" false); [|done].
  destruct (boolOpt opts "lazyQuotes" false); [|done]. cbn.
  destruct sep as [|c [|c' sep]]; cbn in *; done.
Qed.

Lemma NewCSVOptions_rejects_long_separator_witness :
  NewCSVOptions (Some {[ "separator" := VString "||" ]}) = None.
Proof.
  apply (NewCSVOptions_rejects_long_separator {[ "separator" := VString "||" ]} "||");
    [reflexivity|cbn; lia].
Defined.

(** X19. XLSX options always survive the way through their map. *)
Theorem XLSXOptions_map_roundtrip (o : XLSXOptions) :
  NewXLSXOptions (XLSXOptions_Map (Some o)) = Some o.
Proof.
  destruct o as [name]. unfold XLSXOptions_Map, NewXLSXOptions. cbn [SheetName].
  destruct (String.eqb_spec name "") as [->|Hne]; cbn [negb].
  - by rewrite lookup_empty.
  - by rewrite lookup_insert_eq.
Qed.

(* ------------------------------------------------------------------ *)
(** ** JSONReader: errors that are reported, hidden, or made up for *)

Section ReaderErrors.
Import strconv json JSONText roundtrip chunking.

(** X20. In a keyed document a member must start with a quoted key:
    on any other byte the first call fails with the error of
    [readString], returns an entry without key and value, and consumes
    nothing of the member; when the byte is not a comma, every later
    call fails on the missing separator. *)
Theorem reader_rejects_unquoted_key (c : ascii) (rest : bytes)
    (sch : list nat) (size n : nat) :
  JSONReader.isWhitespace c = false ->
  (c =? dquote)%char = false ->
  (c =? "}")%char = false ->
  (c =? ",")%char = false ->
  JSONReader.run (S n)
    (JSONReader.NewJSONReaderSize tlt_object
       (bufio.mkSource ("{"%char :: c :: rest) sch) size)
  = Ret ((Entry0, Some (Errorf "Expected: string"))
         :: replicate n (Entry0, Some (Errorf "Expected: separator ','"))).
Proof.
  intros Hws Hq Hc Hsep. eapply run_follows; [apply agree_start|].
  rewrite run_S. unfold entry, start.
  cbn [JSONText.opened JSONText.rest JSONText.count isObject].
  rewrite tokenChar_hit by done. cbn [negb].
  rewrite tokenChar_miss by done.
  unfold keyValuePair, string_. rewrite skipWs_stop by done. rewrite Hq.
  cbn [mbind option_bind].
  by rewrite (run_stuck tlt_object c rest n 0 Hws Hc Hsep).
Qed.

Lemma reader_rejects_unquoted_key_witness :
  JSONReader.run (S 1)
    (JSONReader.NewJSONReaderSize tlt_object
       (bufio.mkSource ("{"%char :: "a"%char :: bytes_of ":1}") [0; 2]%nat) 16)
  = Ret ((Entry0, Some (Errorf "Expected: string"))
         :: replicate 1 (Entry0, Some (Errorf "Expected: separator ','"))).
Proof.
  apply (reader_rejects_unquoted_key "a"%char (bytes_of ":1}") [0; 2]%nat 16 1);
    reflexivity.
Defined.



(** X22. An entry that the writer failed to encode comes back as
    null.  When the first write of an ordered document fails on the
    encoding and a second, portable entry is written, the closed
    document is read without error as two entries: nil at index 0, made
    up by the reader at the stray comma, and the second entry at
    index 1. *)
Theorem failed_write_reads_back_as_null (e1 e2 : Entry) (sch : list nat) (size : nat) :
  Marshal (EValue e1) = None ->
  Portable (EValue e2) ->
  exists err text,
    written tlt_array [e1; e2] = (([Some err; None], None), text)
    /\ JSONReader.run 3
         (JSONReader.NewJSONReaderSize tlt_array (bufio.mkSource text sch) size)
       = Ret [(mkEntry 0 "" VNull, None); (mkEntry 1 "" (EValue e2), None);
              (Entry0, Some io_EOF)].
Proof.
  intros H1 Hp. destruct (Marshal_start _ Hp) as (c & l & Hb & _).
  exists (JSONWriter.marshalErr (EValue e1)), ("["%char :: ","%char :: (c :: l) ++ ["]"%char]).
  split.
  { unfold written, JSONWriter.writeAll, JSONWriter.WriteEntry, JSONWriter.valBytes,
      JSONWriter.Marshal.
    cbn. rewrite H1. cbn. rewrite Hb. cbn. done. }
  eapply run_follows; [apply agree_start|].
  rewrite run_S. unfold entry at 1, start.
  cbn [JSONText.opened JSONText.rest JSONText.count isObject].
  rewrite tokenChar_hit by done. cbn [negb].
  rewrite tokenChar_miss by done.
  rewrite value_default by done. cbn [mbind option_bind].
  rewrite run_S.
  assert (entryOk tlt_array e2) as Hok2 by (split; [done|discriminate]).
  rewrite (entry_item tlt_array e2 (c :: l) ["]"%char] 1 Hok2 Hb) by done.
  cbn [mbind option_bind]. rewrite run_S.
  change ["]"%char] with [closeByte tlt_array]. rewrite entry_close.
  done.
Qed.

Lemma failed_write_reads_back_as_null_witness :
  exists err text,
    written tlt_array [mkEntry 0 "" (VFloat FNaN); mkEntry 1 "" (VString "x")]
    = (([Some err; None], None), text)
    /\ JSONReader.run 3
         (JSONReader.NewJSONReaderSize tlt_array (bufio.mkSource text [1; 0]%nat) 16)
       = Ret [(mkEntry 0 "" VNull, None);
              (mkEntry 1 "" (EValue (mkEntry 1 "" (VString "x"))), None);
              (Entry0, Some io_EOF)].
Proof.
  apply (failed_write_reads_back_as_null
           (mkEntry 0 "" (VFloat FNaN)) (mkEntry 1 "" (VString "x")) [1; 0]%nat 16).
  - reflexivity.
  - cbn [EValue]. constructor. unfold asciiOnly. cbn. repeat constructor.
Defined.

End ReaderErrors.

Lemma Read_normalizes_with_room_witness :
  exists b',
    replacecr.Read 9
      (replacecr.Reader (bufio.mkSource ["a"%char; CR; "b"%char; CR] [1; 0]%nat))
    = Ret ((replacecr.normalize ["a"%char; CR; "b"%char; CR], Some io_EOF), b')
    /\ bufio.unread b' = [].
Proof.
  apply (Read_normalizes_with_room ["a"%char; CR; "b"%char; CR] [1; 0]%nat 9).
  cbn. lia.
Defined.

(* ------------------------------------------------------------------ *)
(** ** CSVReader: a structure without column list *)

Section CSVSchema.
Import CSVReader.

Variable ParseNumber : string -> option strconv.float64.
Variable ParseInteger : string -> option Z.
Variable ParseBoolean : string -> option bool.
Variable UnmarshalObject : string -> option (gmap string Value).
Variable UnmarshalArray : string -> option (list Value).

Local Abbreviation ReadEntry :=
  (ReadEntry ParseNumber ParseInteger ParseBoolean UnmarshalObject UnmarshalArray).



End CSVSchema.


